(** * dasdbord: a shallow embedding of the client-side utilities

    The development follows the layout of the repository:
    - [Js]       the fragment of the JavaScript runtime the sources rely on
                 (string and array [slice], truthiness, property reads,
                 [JSON.stringify] of a flat record, [localStorage]);
    - [Config]   [src/util/config.ts] (storage keys, status codes, messages);
    - [Util]     [src/util/index.ts] ([truncate], [chunk], [omit],
                 [isAuthenticated], ...);
    - [Pages]    [pages/auth/Login.tsx], [pages/auth/Register.tsx] and
                 [pages/Dashboard.tsx] (mock API and the storage life cycle);
    - [Request]  [src/util/request.ts] ([ApiError], [request], [retryRequest]).

    Strings are sequences of characters ([string]); JavaScript numbers that
    count things (lengths, indices, retry counts, HTTP statuses, delays in
    milliseconds) are integers of [Z]. *)

From Stdlib Require Import ZArith Lia Ascii.
From Stdlib Require String.
From stdpp Require Import base option list gmap strings pretty.
From Equations Require Import Equations.

Local Open Scope Z_scope.
#[local] Set Warnings "-register-all".

(* ===================================================================== *)
(** * The JavaScript runtime fragment *)
(* ===================================================================== *)

Module Js.

(** [s.length] *)
Definition slen (s : string) : Z := Z.of_nat (String.length s).

(** [a.length] *)
Definition alen {T} (a : list T) : Z := Z.of_nat (length a).

(** The relative index of [String.prototype.slice] and
    [Array.prototype.slice]: a negative index counts from the end, and the
    result is clamped to [0 .. len]. *)
Definition rel_index (len i : Z) : Z :=
  if i <? 0 then Z.max (len + i) 0 else Z.min i len.

(** [s.slice(start, end)] *)
Definition str_slice (s : string) (start end_ : Z) : string :=
  let len := slen s in
  let from := rel_index len start in
  let to := rel_index len end_ in
  if from >=? to then ""
  else String.substring (Z.to_nat from) (Z.to_nat (to - from)) s.

(** [a.slice(start, end)] *)
Definition arr_slice {T} (a : list T) (start end_ : Z) : list T :=
  let len := alen a in
  let k := rel_index len start in
  let final := rel_index len end_ in
  take (Z.to_nat (Z.max (final - k) 0)) (drop (Z.to_nat k) a).

(** Truthiness of a string: only the empty string is falsy. *)
Definition truthy_str (s : string) : bool :=
  negb (String.eqb s "").

(** Truthiness of [string | null] (what [localStorage.getItem] returns) and
    of [string | undefined]. *)
Definition truthy_opt (o : option string) : bool :=
  match o with
  | Some s => truthy_str s
  | None => false
  end.

(** [a || b] on [string | undefined] with a string fallback. *)
Definition or_str (o : option string) (fallback : string) : string :=
  match o with
  | Some s => if truthy_str s then s else fallback
  | None => fallback
  end.

(** [s.includes(sub)] *)
Definition includes (s sub : string) : bool :=
  match String.index 0 sub s with
  | Some _ => true
  | None => false
  end.

(** [s.startsWith(p)] *)
Definition startsWith (s p : string) : bool := String.prefix p s.

(** ** [localStorage] *)

(** The storage area: a finite map from keys to string values. *)
Abbreviation Storage := (gmap string string).

Definition getItem (k : string) (ls : Storage) : option string := ls !! k.
Definition setItem (k v : string) (ls : Storage) : Storage := <[k := v]> ls.
Definition removeItem (k : string) (ls : Storage) : Storage := delete k ls.

(** ** The browser *)

(** What the pages and the request wrapper touch: the storage area and the
    current location (set by [navigate(path)] and by an assignment to
    [window.location.href]). *)
Record Browser := {
  localStorage : Storage;
  location : string;
}.

Definition withStorage (f : Storage -> Storage) (b : Browser) : Browser :=
  {| localStorage := f (localStorage b); location := location b |}.

Definition navigate (path : string) (b : Browser) : Browser :=
  {| localStorage := localStorage b; location := path |}.

(** ** Timers *)

(** An asynchronous computation that only awaits timers: the delays (in
    milliseconds) it waited for, in order, and the value it resolves to. *)
Definition Async (A : Type) : Type := list Z * A.

Definition resolve {A} (a : A) : Async A := ([], a).

(** [await new Promise((r) => setTimeout(r, ms))] *)
Definition sleep (ms : Z) : Async unit := ([ms], tt).

Definition await {A B} (m : Async A) (k : A -> Async B) : Async B :=
  let '(d1, a) := m in let '(d2, b) := k a in (d1 ++ d2, b).

(** ** [JSON.stringify] of strings and flat records *)

Definition dquote : ascii := "034"%char.
Definition backslash : ascii := "092"%char.

Definition hex_digit (n : N) : ascii :=
  if (n <? 10)%N then ascii_of_N (48 + n) else ascii_of_N (87 + n).

(** One character inside a JSON string literal: the quote, the backslash
    and the control characters are escaped, everything else is kept. *)
Definition json_escape_char (c : ascii) : string :=
  let n := N_of_ascii c in
  if (n =? 34)%N then String backslash (String dquote "")
  else if (n =? 92)%N then String backslash (String backslash "")
  else if (n =? 8)%N then String backslash "b"
  else if (n =? 12)%N then String backslash "f"
  else if (n =? 10)%N then String backslash "n"
  else if (n =? 13)%N then String backslash "r"
  else if (n =? 9)%N then String backslash "t"
  else if (n <? 32)%N then
    String backslash ("u00" +:+ String (hex_digit (n / 16)) (String (hex_digit (n mod 16)) ""))
  else String c "".

Fixpoint json_escape (s : string) : string :=
  match s with
  | EmptyString => ""
  | String c s' => json_escape_char c +:+ json_escape s'
  end.

(** [JSON.stringify(s)] for a string [s]. *)
Definition json_quote (s : string) : string :=
  String dquote (json_escape s +:+ String dquote "").

(** The members of an object literal whose values are strings or
    [undefined]: a member with an [undefined] value is left out. *)
Fixpoint json_members (fields : list (string * option string)) : list string :=
  match fields with
  | [] => []
  | (k, Some v) :: rest => (json_quote k +:+ ":" +:+ json_quote v) :: json_members rest
  | (_, None) :: rest => json_members rest
  end.

(** [JSON.stringify({ k1: v1, ..., kn: vn })] *)
Definition JSON_stringify (fields : list (string * option string)) : string :=
  "{" +:+ String.concat "," (json_members fields) +:+ "}".

(** [String(v)] for [string | undefined], as [setItem] applies it. *)
Definition to_string (o : option string) : string := default "undefined" o.

(** ** Values *)

(** An [Error] object as the platform throws them ([TypeError],
    [SyntaxError], the [AbortError] of an aborted [fetch], ...). *)
Record JsError := {
  err_name : string;
  err_message : string;
}.

(** The values the request wrapper handles as [any]: what a response body
    parses to (a JSON value, a text, a blob), or a caught [Error] object.
    Numbers are the integers. *)
Inductive JsVal :=
| JUndefined
| JNull
| JBool (b : bool)
| JNum (n : Z)
| JStr (s : string)
| JArr (items : list JsVal)
| JObj (members : list (string * JsVal))
| JBlob
| JErr (e : JsError).

Definition TypeError (msg : string) : JsError :=
  {| err_name := "TypeError"; err_message := msg |}.

(** The own property [k] of an object literal. *)
Fixpoint member (k : string) (members : list (string * JsVal)) : JsVal :=
  match members with
  | [] => JUndefined
  | (k', v) :: rest => if String.eqb k k' then v else member k rest
  end.

(** [v.k] for the property names the wrapper reads ([message], [data],
    [errors]): reading a property of [null] or [undefined] throws a
    [TypeError]; primitives, arrays and blobs have no such property. *)
Definition get_prop (v : JsVal) (k : string) : JsError + JsVal :=
  match v with
  | JUndefined => inl (TypeError "Cannot read properties of undefined")
  | JNull => inl (TypeError "Cannot read properties of null")
  | JObj members => inr (member k members)
  | JErr e =>
      inr (if String.eqb k "message" then JStr (err_message e)
           else if String.eqb k "name" then JStr (err_name e)
           else JUndefined)
  | _ => inr JUndefined
  end.

(** [v?.k] *)
Definition get_prop_opt (v : JsVal) (k : string) : JsVal :=
  match get_prop v k with
  | inl _ => JUndefined
  | inr x => x
  end.

(** Truthiness. *)
Definition truthy (v : JsVal) : bool :=
  match v with
  | JUndefined | JNull => false
  | JBool b => b
  | JNum n => negb (n =? 0)
  | JStr s => truthy_str s
  | _ => true
  end.

(** [a || b] *)
Definition or_else (a b : JsVal) : JsVal := if truthy a then a else b.

(** [Error.prototype.toString] *)
Definition error_to_string (e : JsError) : string :=
  let name := err_name e in
  let msg := err_message e in
  if String.eqb name "" then msg
  else if String.eqb msg "" then name
  else name +:+ ": " +:+ msg.

(** [String(v)], the conversion the [Error] constructor applies to its
    message. *)
Fixpoint to_str (v : JsVal) : string :=
  match v with
  | JUndefined => "undefined"
  | JNull => "null"
  | JBool true => "true"
  | JBool false => "false"
  | JNum n => pretty n
  | JStr s => s
  | JArr items =>
      String.concat ","
        (map (fun x => match x with
                       | JUndefined | JNull => ""
                       | _ => to_str x
                       end) items)
  | JObj _ => "[object Object]"
  | JBlob => "[object Blob]"
  | JErr e => error_to_string e
  end.

(** ** Objects on the heap *)

(** An object is the finite map of its own enumerable string-keyed
    properties; objects live in a heap and are passed by reference. *)
Abbreviation loc := positive.
Abbreviation Obj V := (gmap string V).
Abbreviation Heap V := (gmap loc (gmap string V)).

(** [{ ...o }]: a fresh object with a copy of the own properties. *)
Definition alloc {V} (o : Obj V) (h : Heap V) : loc * Heap V :=
  let l := fresh (dom h) in (l, <[l := o]> h).

(** [delete r[k]] on the object stored at [r]. *)
Definition delete_prop {V} (r : loc) (k : string) (h : Heap V) : Heap V :=
  alter (delete k) r h.

End Js.

(* ===================================================================== *)
(** * [src/util/config.ts] *)
(* ===================================================================== *)

Module Config.

Module STORAGE_KEYS.
Definition TOKEN : string := "company_token".
Definition USER : string := "company_user".
Definition REFRESH_TOKEN : string := "company_refresh_token".
Definition THEME : string := "app_theme".
Definition LANGUAGE : string := "app_language".
End STORAGE_KEYS.

Module HTTP_STATUS.
Definition OK : Z := 200.
Definition BAD_REQUEST : Z := 400.
Definition UNAUTHORIZED : Z := 401.
Definition FORBIDDEN : Z := 403.
Definition NOT_FOUND : Z := 404.
Definition UNPROCESSABLE_ENTITY : Z := 422.
Definition INTERNAL_SERVER_ERROR : Z := 500.
End HTTP_STATUS.

Module ERROR_MESSAGES.
Definition NETWORK_ERROR : string := "Network error. Please check your connection.".
Definition UNAUTHORIZED : string := "You are not authorized. Please login again.".
Definition FORBIDDEN : string := "You don't have permission to access this resource.".
Definition NOT_FOUND : string := "The requested resource was not found.".
Definition VALIDATION_ERROR : string := "Please check your input and try again.".
Definition SERVER_ERROR : string := "Something went wrong on our end. Please try again later.".
Definition TIMEOUT : string := "Request timeout. Please try again.".
Definition UNKNOWN : string := "An unknown error occurred.".
End ERROR_MESSAGES.

(** [API_CONFIG.BASE_URL]: the environment variable, or the local default. *)
Definition BASE_URL (env : option string) : string :=
  Js.or_str env "http://localhost:3001".

(** [API_URL = `${BASE_URL}/api/${VERSION}`] *)
Definition API_URL (env : option string) : string :=
  BASE_URL env +:+ "/api/" +:+ "v1".

End Config.

(* ===================================================================== *)
(** * [src/util/index.ts] *)
(* ===================================================================== *)

Module Util.
Import Js.

(** [truncate(text, maxLength, suffix = "...")] *)
Definition truncate (text : string) (maxLength : Z) (suffix : option string) : string :=
  let suffix := default "..." suffix in
  if negb (truthy_str text) || (slen text <=? maxLength) then text
  else str_slice text 0 (maxLength - slen suffix) +:+ suffix.

(** The loop of [chunk]: [for (let i = 0; i < array.length; i += size)].
    The loop does not terminate for [size <= 0] on a non-empty array, so the
    iteration is bounded by [fuel]; [None] means the bound was hit. *)
Fixpoint chunk_loop {T} (fuel : nat) (array : list T) (size i : Z)
    (chunks : list (list T)) : option (list (list T)) :=
  if i <? alen array then
    match fuel with
    | O => None
    | S fuel' =>
        chunk_loop fuel' array size (i + size)
          (chunks ++ [arr_slice array i (i + size)])
    end
  else Some chunks.

(** [chunk(array, size)]. With [size >= 1] the loop body runs at most
    [array.length] times, which is the bound given to [chunk_loop]. *)
Definition chunk {T} (array : list T) (size : Z) : option (list (list T)) :=
  chunk_loop (length array) array size 0 [].

(** [omit(obj, keys)]: [obj] is a reference into the heap; the result is
    the reference of the copy together with the heap after the call. *)
Definition omit {V} (obj : loc) (keys : list string) (h : Heap V)
    : option (loc * Heap V) :=
  o ← h !! obj;
  let '(result, h1) := alloc o h in
  Some (result, foldl (fun h' key => delete_prop result key h') h1 keys).

(** [isAuthenticated()]: [!!localStorage.getItem(STORAGE_KEYS.TOKEN)] *)
Definition isAuthenticated (ls : Storage) : bool :=
  truthy_opt (getItem Config.STORAGE_KEYS.TOKEN ls).

(** [getAuthToken()] *)
Definition getAuthToken (ls : Storage) : option string :=
  getItem Config.STORAGE_KEYS.TOKEN ls.

(** [clearAuth()] *)
Definition clearAuth (ls : Storage) : Storage :=
  removeItem Config.STORAGE_KEYS.REFRESH_TOKEN
    (removeItem Config.STORAGE_KEYS.USER
      (removeItem Config.STORAGE_KEYS.TOKEN ls)).

(** [saveAuthData(token, user, refreshToken?)], for a user record whose
    members are strings. *)
Definition saveAuthData (token : string) (user : list (string * option string))
    (refreshToken : option string) (ls : Storage) : Storage :=
  let ls := setItem Config.STORAGE_KEYS.TOKEN token ls in
  let ls := setItem Config.STORAGE_KEYS.USER (JSON_stringify user) ls in
  if truthy_opt refreshToken
  then setItem Config.STORAGE_KEYS.REFRESH_TOKEN (to_string refreshToken) ls
  else ls.

Section Parsing.

(** [JSON.parse(text)]: the value, or the [SyntaxError] it throws. *)
Variable JSON_parse : string -> JsError + JsVal.

(** [getCurrentUser()]; [null] is [JNull]. *)
Definition getCurrentUser (ls : Storage) : JsVal :=
  let userStr := getItem Config.STORAGE_KEYS.USER ls in
  if negb (truthy_opt userStr) then JNull
  else
    match JSON_parse (to_string userStr) with
    | inr user => user
    | inl _ => JNull
    end.

(** [safeJsonParse(json, fallback)] *)
Definition safeJsonParse (json : string) (fallback : JsVal) : JsVal :=
  match JSON_parse json with
  | inr v => v
  | inl _ => fallback
  end.

End Parsing.

(** The units of [getRelativeTime], in the order [Object.entries] lists
    them, with their length in seconds. *)
Definition intervals : list (string * Z) :=
  [("year", 31536000); ("month", 2592000); ("week", 604800);
   ("day", 86400); ("hour", 3600); ("minute", 60)].

(** The [for ... of] loop of [getRelativeTime] over the remaining units. *)
Fixpoint relative_loop (seconds : Z) (entries : list (string * Z)) : string :=
  match entries with
  | [] => "just now"
  | (unit, secondsInUnit) :: rest =>
      let interval := seconds / secondsInUnit in
      if interval >=? 1
      then pretty interval +:+ " " +:+ unit
             +:+ (if interval >? 1 then "s" else "") +:+ " ago"
      else relative_loop seconds rest
  end.

(** [getRelativeTime(date)], for a valid date: [d] is [date.getTime()] and
    [now] is [new Date().getTime()], both in milliseconds. *)
Definition getRelativeTime (now d : Z) : string :=
  let seconds := (now - d) / 1000 in
  relative_loop seconds intervals.

(** [unique(array)]: [[...new Set(array)]]. A [Set] keeps its elements in
    the order of their first insertion; [seen] is that sequence. *)
Definition unique {T} `{EqDecision T} (array : list T) : list T :=
  foldl (fun seen x => if decide (x ∈ seen) then seen else seen ++ [x]) [] array.

Section GroupBy.

(** The property names every object literal inherits from
    [Object.prototype] ([constructor], [toString], ...): each reads as a
    truthy value that has no [push] method. *)
Variable inherited : string -> bool.

Context {T : Type}.

(** [String(item[key])] *)
Variable keyOf : T -> string.

(** One step of the [reduce] of [groupBy]. *)
Definition groupBy_step (result : gmap string (list T)) (item : T)
    : JsError + gmap string (list T) :=
  let groupKey := keyOf item in
  match result !! groupKey with
  | Some group => inr (<[groupKey := group ++ [item]]> result)
  | None =>
      if inherited groupKey
      then inl (TypeError "result[groupKey].push is not a function")
      else inr (<[groupKey := [item]]> result)
  end.

(** [groupBy(array, key)] *)
Definition groupBy (array : list T) : JsError + gmap string (list T) :=
  foldl (fun acc item =>
           match acc with
           | inr result => groupBy_step result item
           | inl e => inl e
           end) (inr ∅) array.

End GroupBy.

(** [result[key] = v] on the object stored at [r]. *)
Definition set_prop {V} (r : loc) (k : string) (v : V) (h : Heap V) : Heap V :=
  alter (<[k := v]>) r h.

Section Pick.

Context {V : Type}.

(** What [obj] has through its prototype chain, as writable data
    properties: for an object literal the members of [Object.prototype]
    ([toString], [constructor], ...), for an instance of a class its
    methods as well. *)
Variable inherited : gmap string V.

(** [obj[key]], and with it [key in obj]: an own property first, then the
    prototype chain. *)
Definition read_prop (o : Obj V) (key : string) : option V :=
  match o !! key with
  | Some v => Some v
  | None => inherited !! key
  end.

(** [result[key] = v] on the object literal stored at [result]: an own
    property, except for [__proto__], which the accessor of
    [Object.prototype] takes and which never becomes an own property. *)
Definition assign (result : loc) (key : string) (v : V) (h : Heap V) : Heap V :=
  if String.eqb key "__proto__" then h else set_prop result key v h.

(** [pick(obj, keys)] *)
Definition pick (obj : loc) (keys : list string) (h : Heap V)
    : option (loc * Heap V) :=
  _ ← h !! obj;
  let '(result, h1) := alloc ∅ h in
  Some (result,
        foldl (fun h' key =>
                 match h' !! obj ≫= (fun o => read_prop o key) with
                 | Some v => assign result key v h'
                 | None => h'
                 end) h1 keys).

End Pick.

(** The value of a hexadecimal digit, in either case. *)
Definition hex_value (c : ascii) : option Z :=
  let n := Z.of_N (N_of_ascii c) in
  if (48 <=? n) && (n <=? 57) then Some (n - 48)
  else if (97 <=? n) && (n <=? 102) then Some (n - 87)
  else if (65 <=? n) && (n <=? 70) then Some (n - 55)
  else None.

(** [parseInt(s, 16)] for a group [([a-f\d]{2})] of the pattern. *)
Definition parse_hex2 (c1 c2 : ascii) : option Z :=
  hi ← hex_value c1; lo ← hex_value c2; Some (16 * hi + lo).

Record RGB := { r : Z; g : Z; b : Z }.

(** [hexToRgb(hex)]: the pattern [/^#?([a-f\d]{2})([a-f\d]{2})([a-f\d]{2})$/i]. *)
Definition hexToRgb (hex : string) : option RGB :=
  let digits :=
    match hex with
    | String "#"%char rest => rest
    | _ => hex
    end in
  match digits with
  | String c1 (String c2 (String c3 (String c4 (String c5 (String c6 EmptyString))))) =>
      r ← parse_hex2 c1 c2; g ← parse_hex2 c3 c4; b ← parse_hex2 c5 c6;
      Some {| r := r; g := g; b := b |}
  | _ => None
  end.

(** [n.toString(16)] for an integer [n >= 0]. *)
Equations? to_hex (n : Z) : string by wf (Z.to_nat n) lt :=
  to_hex n with Z_lt_dec n 16 := {
    | left _ => String (hex_digit (Z.to_N n)) "";
    | right _ => to_hex (n / 16) +:+ String (hex_digit (Z.to_N (n mod 16))) "" }.
Proof.
  assert (n / 16 < n) by (apply Z.div_lt; lia).
  assert (0 <= n / 16) by (apply Z.div_pos; lia).
  lia.
Qed.

(** [randomColor()], where [drawn] is [Math.floor(Math.random() * 16777215)],
    an integer from 0 to 16777214. *)
Definition randomColor (drawn : Z) : string := "#" +:+ to_hex drawn.

End Util.

(* ===================================================================== *)
(** * The pages *)
(* ===================================================================== *)

Module Pages.
Import Js.

(** What the mock API calls resolve to: [{ ok: true, token, name }] or
    [{ ok: false, error }]; a member that is not there reads [undefined]. *)
Record AuthResult := {
  ok : bool;
  token : option string;
  name : option string;
  error : option string;
}.

(** ** [pages/auth/Login.tsx] *)
Module Login.

(** [loginApi(email, password)] *)
Definition loginApi (email password : string) : Async AuthResult :=
  await (sleep 500) (fun _ =>
  if String.eqb email "user@company.com" && String.eqb password "password" then
    resolve {| ok := true; token := Some "demo-token-123";
               name := Some "Demo User"; error := None |}
  else
    resolve {| ok := false; token := None; name := None;
               error := Some "Invalid email or password" |}).

(** The component state ([useState]). *)
Record State := {
  email : string;
  password : string;
  loading : bool;
  error_ : string;
}.

Definition setLoading (v : bool) (st : State) : State :=
  {| email := email st; password := password st; loading := v; error_ := error_ st |}.

Definition setError (v : string) (st : State) : State :=
  {| email := email st; password := password st; loading := loading st; error_ := v |}.

(** [handleSubmit(e)] *)
Definition handleSubmit (st : State) (b : Browser) : Async (State * Browser) :=
  let st := setError "" st in
  let st := setLoading true st in
  await (loginApi (email st) (password st)) (fun res =>
  let st := setLoading false st in
  if ok res then
    let b := withStorage (setItem "company_token" (to_string (token res))) b in
    let b := withStorage
      (setItem "company_user"
         (JSON_stringify [("name", name res); ("email", Some (email st))])) b in
    let b := navigate "/dashboard" b in
    resolve (st, b)
  else
    resolve (setError (or_str (error res) "Login failed") st, b)).

End Login.

(** ** [pages/auth/Register.tsx] *)
Module Register.

(** [registerApi(name, email, password)] *)
Definition registerApi (name email password : string) : Async AuthResult :=
  await (sleep 500) (fun _ =>
  if includes email "@" && (slen password >=? 4) then
    resolve {| ok := true; token := Some "demo-token-456";
               name := Some name; error := None |}
  else
    resolve {| ok := false; token := None; name := None;
               error := Some "Invalid registration details" |}).

Record State := {
  name : string;
  email : string;
  password : string;
  loading : bool;
  error_ : string;
}.

Definition setLoading (v : bool) (st : State) : State :=
  {| name := name st; email := email st; password := password st;
     loading := v; error_ := error_ st |}.

Definition setError (v : string) (st : State) : State :=
  {| name := name st; email := email st; password := password st;
     loading := loading st; error_ := v |}.

(** [handleSubmit(e)] *)
Definition handleSubmit (st : State) (b : Browser) : Async (State * Browser) :=
  let st := setError "" st in
  let st := setLoading true st in
  await (registerApi (name st) (email st) (password st)) (fun res =>
  let st := setLoading false st in
  if ok res then
    let b :=
      if truthy_opt (token res)
      then withStorage (setItem "company_token" (to_string (token res))) b
      else b in
    let b := withStorage
      (setItem "company_user"
         (JSON_stringify [("name", Some (name st)); ("email", Some (email st))])) b in
    let b := navigate "/dashboard" b in
    resolve (st, b)
  else
    resolve (setError (or_str (error res) "Registration failed") st, b)).

End Register.

(** ** [pages/Dashboard.tsx] *)
Module Dashboard.

(** [handleLogout()] *)
Definition handleLogout (b : Browser) : Browser :=
  let b := withStorage (removeItem "company_token") b in
  let b := withStorage (removeItem "company_user") b in
  navigate "/login" b.

Section Mount.

(** [JSON.parse(text)]: the value, or the [SyntaxError] it throws. *)
Variable JSON_parse : string -> JsError + JsVal.

(** The effect run when the dashboard is mounted, from the [user] state
    (initially [null]): the new [user] state and the browser, or the error
    thrown out of the effect. *)
Definition mount (user : JsVal) (b : Browser) : JsError + (JsVal * Browser) :=
  let token := getItem "company_token" (localStorage b) in
  let userData := getItem "company_user" (localStorage b) in
  if negb (truthy_opt token) then inr (user, navigate "/login" b)
  else if truthy_opt userData then
    match JSON_parse (to_string userData) with
    | inr parsed => inr (parsed, b)
    | inl e => inl e
    end
  else inr (user, b).

End Mount.

End Dashboard.

End Pages.

(* ===================================================================== *)
(** * [src/util/request.ts] *)
(* ===================================================================== *)

Module Request.
Import Js Config.

(** ** [class ApiError extends Error] *)
Module ApiError.
Record t := {
  message : string;
  status : Z;
  data : JsVal;
  errors : JsVal;
}.
End ApiError.

(** [new ApiError(message, status, data)]; [errors] is [data?.errors], and
    an omitted [data] is [undefined]. *)
Definition new_ApiError (message : string) (status : Z) (data : JsVal) : ApiError.t :=
  {| ApiError.message := message;
     ApiError.status := status;
     ApiError.data := data;
     ApiError.errors := get_prop_opt data "errors" |}.

(** What a [throw] carries: an instance of [ApiError], or any other value
    (an [Error] object of the platform is [ThrownVal (JErr e)]). *)
Inductive Thrown :=
| ThrownApi (e : ApiError.t)
| ThrownVal (v : JsVal).

(** ** Computations that read and write a state and may throw *)

Definition Eff (St A : Type) : Type := St -> St * (Thrown + A).

Definition ret {St A} (a : A) : Eff St A := fun st => (st, inr a).

Definition throw {St A} (t : Thrown) : Eff St A := fun st => (st, inl t).

Definition bind {St A B} (m : Eff St A) (k : A -> Eff St B) : Eff St B :=
  fun st =>
    match m st with
    | (st', inr a) => k a st'
    | (st', inl t) => (st', inl t)
    end.

(** [try { m } catch (error) { handler }] *)
Definition try_catch {St A} (m : Eff St A) (handler : Thrown -> Eff St A) : Eff St A :=
  fun st =>
    match m st with
    | (st', inl t) => handler t st'
    | r => r
    end.

(** A state update. *)
Definition modify {St} (f : St -> St) : Eff St unit := fun st => (f st, inr tt).

(** The outcome of a platform call: a value, or an [Error] object thrown. *)
Definition lift {St A} (r : JsError + A) : Eff St A :=
  match r with
  | inl e => throw (ThrownVal (JErr e))
  | inr a => ret a
  end.

Declare Scope eff_scope.
Delimit Scope eff_scope with eff.
Notation "x <- m ;; k" := (bind m (fun x => k))
  (at level 100, m at next level, right associativity) : eff_scope.
Notation "m ;;; k" := (bind m (fun _ => k))
  (at level 100, right associativity) : eff_scope.
Local Open Scope eff_scope.

(** ** The network *)

(** A [Response] as the wrapper uses it: its status, its [content-type]
    header, and what reading the body as JSON, as text or as a blob gives
    (a value, or the error the read rejects with). *)
Module Response.
Record t := {
  status : Z;
  content_type : option string;
  json : JsError + JsVal;
  text : JsError + string;
  blob : JsError + unit;
}.

(** [response.ok]: the status is in the range 200-299. *)
Definition ok (r : t) : bool := (200 <=? status r) && (status r <=? 299).
End Response.

(** The second argument of [fetch]: method and body as the caller gave
    them, the headers built by the wrapper, and the abort signal, which
    fires after [signal] milliseconds. *)
Record RequestInit := {
  init_method : option string;
  init_body : option string;
  init_headers : gmap string string;
  signal : Z;
}.

(** [RequestOptions] *)
Record RequestOptions := {
  timeout : option Z;
  requiresAuth : option bool;
  baseURL : option string;
  headers : option (list (string * string));
  method : option string;
  body : option string;
}.

(** [interface ApiResponse] *)
Module ApiResponse.
Record t := {
  data : JsVal;
  message : JsVal;
  success : bool;
  status : Z;
  errors : JsVal;
}.
End ApiResponse.

Section Wrapper.

(** [fetch(url, init)]: the response, or the [Error] it rejects with (an
    [AbortError] when the signal fired first). *)
Variable fetch : string -> RequestInit -> JsError + Response.t.

(** [process.env.REACT_APP_API_BASE_URL] *)
Variable env_base_url : option string.

(** [getAuthToken()] *)
Definition getAuthToken : Eff Browser (option string) :=
  fun b => (b, inr (getItem STORAGE_KEYS.TOKEN (localStorage b))).

(** [clearAuthData()] *)
Definition clearAuthData : Eff Browser unit :=
  modify (withStorage (removeItem STORAGE_KEYS.TOKEN)) ;;;
  modify (withStorage (removeItem STORAGE_KEYS.USER)) ;;;
  modify (withStorage (removeItem STORAGE_KEYS.REFRESH_TOKEN)).

(** [redirectToLogin()] *)
Definition redirectToLogin : Eff Browser unit :=
  clearAuthData ;;;
  modify (navigate "/login").

(** What [fetchWithTimeout] hands to [fetch]: the caller's options with
    the built headers and the signal of the timeout, 30000 ms by default. *)
Definition fetch_init (options : RequestOptions)
    (requestHeaders : gmap string string) : RequestInit :=
  let timeout := default 30000 (timeout options) in
  {| init_method := method options; init_body := body options;
     init_headers := requestHeaders; signal := timeout |}.

(** [fetchWithTimeout(url, options)] *)
Definition fetchWithTimeout (url : string) (options : RequestOptions)
    (requestHeaders : gmap string string) : Eff Browser Response.t :=
  match fetch url (fetch_init options requestHeaders) with
  | inr response => ret response
  | inl error =>
      if String.eqb (err_name error) "AbortError"
      then throw (ThrownApi (new_ApiError ERROR_MESSAGES.TIMEOUT 408 JUndefined))
      else throw (ThrownVal (JErr error))
  end.

(** [parseResponse(response)] *)
Definition parseResponse (response : Response.t) : Eff Browser JsVal :=
  let contentType := Response.content_type response in
  let is_type (t : string) :=
    match contentType with
    | Some ct => truthy_str ct && includes ct t
    | None => false
    end in
  if is_type "application/json" then lift (Response.json response)
  else if is_type "text/" then
    s <- lift (Response.text response) ;; ret (JStr s)
  else if is_type "application/pdf" then
    lift (Response.blob response) ;;; ret JBlob
  else
    try_catch (lift (Response.json response))
      (fun _ => s <- lift (Response.text response) ;; ret (JStr s)).

(** [buildHeaders(requiresAuth, customHeaders)] *)
Definition buildHeaders (requiresAuth : bool) (customHeaders : list (string * string))
    : Eff Browser (gmap string string) :=
  let headers : gmap string string := {[ "Content-Type" := "application/json" ]} in
  let headers := foldl (fun h kv => <[fst kv := snd kv]> h) headers customHeaders in
  if requiresAuth then
    token <- getAuthToken ;;
    if truthy_opt token
    then ret (<["Authorization" := "Bearer " +:+ to_string token]> headers)
    else throw (ThrownApi (new_ApiError ERROR_MESSAGES.UNAUTHORIZED
                             HTTP_STATUS.UNAUTHORIZED JUndefined))
  else ret headers.

(** The [catch (error)] block of [request]. *)
Definition request_catch {A} (error : Thrown) : Eff Browser A :=
  match error with
  | ThrownApi e => throw (ThrownApi e)
  | ThrownVal v =>
      msg <- lift (get_prop v "message") ;;
      match msg with
      | JStr "Failed to fetch" =>
          throw (ThrownApi (new_ApiError ERROR_MESSAGES.NETWORK_ERROR 0 v))
      | _ =>
          throw (ThrownApi
            (new_ApiError (to_str (or_else msg (JStr ERROR_MESSAGES.UNKNOWN))) 0 v))
      end
  end.

(** The full URL of [request]. *)
Definition full_url (endpoint : string) (options : RequestOptions) : string :=
  let baseURL := default (API_URL env_base_url) (baseURL options) in
  if startsWith endpoint "http" then endpoint
  else baseURL +:+ (if startsWith endpoint "/" then endpoint else "/" +:+ endpoint).

(** [request(endpoint, options)] *)
Definition request (endpoint : string) (options : RequestOptions)
    : Eff Browser ApiResponse.t :=
  let requiresAuth := default true (requiresAuth options) in
  let headers := default [] (headers options) in
  let url := full_url endpoint options in
  requestHeaders <- buildHeaders requiresAuth headers ;;
  try_catch
    (response <- fetchWithTimeout url options requestHeaders ;;
     data <- parseResponse response ;;
     let status := Response.status response in
     if status =? HTTP_STATUS.UNAUTHORIZED then
       redirectToLogin ;;;
       throw (ThrownApi (new_ApiError ERROR_MESSAGES.UNAUTHORIZED
                           HTTP_STATUS.UNAUTHORIZED data))
     else if status =? HTTP_STATUS.FORBIDDEN then
       throw (ThrownApi (new_ApiError ERROR_MESSAGES.FORBIDDEN
                           HTTP_STATUS.FORBIDDEN data))
     else if status =? HTTP_STATUS.NOT_FOUND then
       throw (ThrownApi (new_ApiError ERROR_MESSAGES.NOT_FOUND
                           HTTP_STATUS.NOT_FOUND data))
     else if status =? HTTP_STATUS.UNPROCESSABLE_ENTITY then
       msg <- lift (get_prop data "message") ;;
       throw (ThrownApi
         (new_ApiError (to_str (or_else msg (JStr ERROR_MESSAGES.VALIDATION_ERROR)))
            HTTP_STATUS.UNPROCESSABLE_ENTITY data))
     else if status >=? 500 then
       throw (ThrownApi (new_ApiError ERROR_MESSAGES.SERVER_ERROR status data))
     else if negb (Response.ok response) then
       msg <- lift (get_prop data "message") ;;
       throw (ThrownApi
         (new_ApiError (to_str (or_else msg (JStr ("HTTP " +:+ pretty status))))
            status data))
     else
       inner <- lift (get_prop data "data") ;;
       message <- lift (get_prop data "message") ;;
       errors <- lift (get_prop data "errors") ;;
       ret {| ApiResponse.data :=
                match inner with JUndefined => data | _ => inner end;
              ApiResponse.message := message;
              ApiResponse.success := true;
              ApiResponse.status := status;
              ApiResponse.errors := errors |})
    request_catch.

End Wrapper.

(** ** [uploadFile] *)

(** [c.toLowerCase()] on the letters [A-Z]; no other character maps to a
    letter of ["content-type"]. *)
Definition lower_char (c : ascii) : ascii :=
  let n := N_of_ascii c in
  if ((65 <=? n) && (n <=? 90))%N then ascii_of_N (n + 32) else c.

Fixpoint toLowerCase (s : string) : string :=
  match s with
  | EmptyString => EmptyString
  | String c s' => String (lower_char c) (toLowerCase s')
  end.

Section Upload.

Variable fetch : string -> RequestInit -> JsError + Response.t.
Variable env_base_url : option string.

(** The [requestHeaders] object of [uploadFile]: the custom headers except
    [content-type], then [Authorization] when a token is required and
    there is one. *)
Definition upload_headers (requiresAuth : bool) (token : option string)
    (headers : list (string * string)) : gmap string string :=
  let requestHeaders :=
    foldl (fun h kv =>
             if negb (String.eqb (toLowerCase (fst kv)) "content-type")
             then <[fst kv := snd kv]> h else h) ∅ headers in
  if requiresAuth && truthy_opt token
  then <["Authorization" := "Bearer " +:+ to_string token]> requestHeaders
  else requestHeaders.

(** The object [{ method: "POST", headers: requestHeaders, body: formData,
    ...options }]: a member that [options] has replaces the one before
    it. The headers are kept apart, as [fetchWithTimeout] takes them. *)
Definition upload_options (formData : string) (options : RequestOptions)
    : RequestOptions :=
  {| timeout := timeout options;
     requiresAuth := requiresAuth options;
     baseURL := baseURL options;
     headers := headers options;
     method := Some (default "POST" (method options));
     body := Some (default formData (body options)) |}.

Definition upload_sent_headers (requestHeaders : gmap string string)
    (options : RequestOptions) : gmap string string :=
  match headers options with
  | Some custom => foldl (fun h kv => <[fst kv := snd kv]> h) ∅ custom
  | None => requestHeaders
  end.

(** The [catch (error)] block of [uploadFile]. *)
Definition upload_catch {A} (error : Thrown) : Eff Browser A :=
  match error with
  | ThrownApi e => throw (ThrownApi e)
  | ThrownVal v =>
      msg <- lift (get_prop v "message") ;;
      throw (ThrownApi
        (new_ApiError (to_str (or_else msg (JStr "Upload failed"))) 0 v))
  end.

(** [uploadFile(endpoint, file, additionalData, options)], where
    [formData] is the form built from the file and the additional data. *)
Definition uploadFile (endpoint : string) (formData : string)
    (options : RequestOptions) : Eff Browser ApiResponse.t :=
  let requiresAuth := default true (requiresAuth options) in
  let headers := default [] (headers options) in
  token <- getAuthToken ;;
  let url := full_url env_base_url endpoint options in
  let requestHeaders := upload_headers requiresAuth token headers in
  try_catch
    (response <- fetchWithTimeout fetch url (upload_options formData options)
                   (upload_sent_headers requestHeaders options) ;;
     data <- parseResponse response ;;
     if negb (Response.ok response) then
       msg <- lift (get_prop data "message") ;;
       throw (ThrownApi
         (new_ApiError (to_str (or_else msg (JStr "Upload failed")))
            (Response.status response) data))
     else
       inner <- lift (get_prop data "data") ;;
       message <- lift (get_prop data "message") ;;
       ret {| ApiResponse.data := or_else inner data;
              ApiResponse.message := message;
              ApiResponse.success := true;
              ApiResponse.status := Response.status response;
              ApiResponse.errors := JUndefined |})
    upload_catch.

End Upload.

(** ** [sequentialRequest] *)

Section Sequential.

Context {St T : Type}.

(** The loop [for (const req of requests)] with the results so far. *)
Fixpoint sequential_loop (requests : list (Eff St T)) (results : list T)
    : Eff St (list T) :=
  match requests with
  | [] => ret results
  | req :: rest =>
      results' <- try_catch (result <- req ;; ret (results ++ [result])) throw ;;
      sequential_loop rest results'
  end.

(** [sequentialRequest(requests)] *)
Definition sequentialRequest (requests : list (Eff St T)) : Eff St (list T) :=
  sequential_loop requests [].

End Sequential.

(** ** [retryRequest] *)

(** [error instanceof ApiError && error.status >= 400 && error.status < 500] *)
Definition is_client_error (error : Thrown) : bool :=
  match error with
  | ThrownApi e => (ApiError.status e >=? 400) && (ApiError.status e <? 500)
  | ThrownVal _ => false
  end.

(** What [retryRequest] does that can be observed from outside: the calls
    of the request function (numbered by the loop counter, with what the
    call produced) and the timers it awaits. *)
Inductive Event (T : Type) :=
| Attempt (i : Z) (outcome : Thrown + T)
| Wait (delay : Z).
Arguments Attempt {T} i outcome.
Arguments Wait {T} delay.

(** [baseDelay * Math.pow(2, i)] *)
Definition backoff (baseDelay i : Z) : Z := baseDelay * 2 ^ i.

Section Retry.

Context {St T : Type}.

(** The request function: it may depend on, and change, any state. *)
Variable requestFn : Eff St T.
Variables maxRetries baseDelay : Z.

(** The loop [for (let i = 0; i < maxRetries; i++)], from the counter [i]
    on, with the current value of [lastError]; the result is the final
    state, what the function returns or throws, and the events in order. *)
Equations? retry_loop (i : Z) (lastError : Thrown) (st : St)
    : St * (Thrown + T) * list (Event T)
    by wf (Z.to_nat (maxRetries - i)) lt :=
  retry_loop i lastError st with Z_lt_dec i maxRetries := {
    | right _ => (st, inl lastError, []);
    | left Hlt with requestFn st := {
        | (st1, inr response) =>
            (st1, inr response, [Attempt i (inr response)]);
        | (st1, inl error) with is_client_error error := {
            | true => (st1, inl error, [Attempt i (inl error)]);
            | false with retry_loop (i + 1) error st1 := {
                | (st2, result, events) =>
                    (st2, result,
                     Attempt i (inl error)
                       :: (if i <? maxRetries - 1
                           then [Wait (backoff baseDelay i)] else [])
                       ++ events) } } } }.
Proof. lia. Qed.

End Retry.

(** [retryRequest(requestFn, maxRetries = 3, baseDelay = 1000)] *)
Definition retryRequest {St T} (requestFn : Eff St T)
    (maxRetries baseDelay : option Z) (st : St)
    : St * (Thrown + T) * list (Event T) :=
  retry_loop requestFn (default 3 maxRetries) (default 1000 baseDelay)
    0 (ThrownVal JUndefined) st.

End Request.

(* ===================================================================== *)
(** * Specification vocabulary *)
(* ===================================================================== *)

(** The predicates the properties below are stated with. *)
Module Spec.
Import Js Config Request.

(** What the loop of [chunk] produces for the part [rest] of the array
    that is still ahead: slices that concatenate to [rest], all of length
    [size] except possibly the last, which is not empty. *)
Definition chunks_of {T} (size : Z) (rest : list T) (cs : list (list T)) : Prop :=
  concat cs = rest /\
  (forall (j : nat) c, cs !! j = Some c -> (S j < length cs)%nat -> alen c = size) /\
  (forall c, last cs = Some c -> 1 <= alen c <= size) /\
  (rest <> [] -> cs <> []).

(** Every value [m] throws satisfies [P]. *)
Definition throws_only {St A} (P : Thrown -> Prop) (m : Eff St A) : Prop :=
  forall st st' t, m st = (st', inl t) -> P t.

(** An [ApiError] as the constructor builds it: [errors] is [data?.errors]. *)
Definition constructed (e : ApiError.t) : Prop :=
  ApiError.errors e = get_prop_opt (ApiError.data e) "errors".

(** Inside the [try] block of [request]: an [ApiError], or an [Error]
    object of the platform. *)
Definition api_or_platform (t : Thrown) : Prop :=
  match t with
  | ThrownApi e => constructed e
  | ThrownVal (JErr _) => True
  | ThrownVal _ => False
  end.

(** Out of [request]: an [ApiError]. *)
Definition api_only (t : Thrown) : Prop :=
  exists e, t = ThrownApi e /\ constructed e.

Section Wrapper.

Variable fetch : string -> RequestInit -> JsError + Response.t.
Variable env_base_url : option string.

(** The call got as far as the network and a response came back: the
    headers were built (no token was missing) and [fetch] resolved. *)
Definition response_arrives (endpoint : string) (options : RequestOptions)
    (b : Browser) (response : Response.t) : Prop :=
  exists requestHeaders,
    snd (buildHeaders (default true (requiresAuth options))
           (default [] (headers options)) b) = inr requestHeaders /\
    fetch (full_url env_base_url endpoint options)
      (fetch_init options requestHeaders) = inr response.

(** The forced logout: the three credential keys are gone, the browser is
    on [/login], and the call is rejected with an [ApiError] of status 401. *)
Definition forced_logout (out : Browser * (Thrown + ApiResponse.t)) : Prop :=
  exists e : ApiError.t,
    snd out = inl (ThrownApi e) /\
    ApiError.status e = 401 /\
    localStorage (fst out) !! STORAGE_KEYS.TOKEN = None /\
    localStorage (fst out) !! STORAGE_KEYS.USER = None /\
    localStorage (fst out) !! STORAGE_KEYS.REFRESH_TOKEN = None /\
    location (fst out) = "/login".

End Wrapper.

Section Retry.

Context {T : Type}.
Variables maxRetries baseDelay : Z.

(** The runs of the loop, as a relation between the counter it starts
    from, the value of [lastError] there, the events and the outcome. *)
Inductive Run : Z -> Thrown -> list (Event T) -> Thrown + T -> Prop :=
| Run_exhausted i lastError :
    maxRetries <= i ->
    Run i lastError [] (inl lastError)
| Run_success i lastError response :
    i < maxRetries ->
    Run i lastError [Attempt i (inr response)] (inr response)
| Run_client_error i lastError error :
    i < maxRetries -> is_client_error error = true ->
    Run i lastError [Attempt i (inl error)] (inl error)
| Run_retry i lastError error events result :
    i < maxRetries - 1 -> is_client_error error = false ->
    Run (i + 1) error events result ->
    Run i lastError
      (Attempt i (inl error) :: Wait (backoff baseDelay i) :: events) result
| Run_last i lastError error events result :
    i = maxRetries - 1 -> is_client_error error = false ->
    Run (i + 1) error events result ->
    Run i lastError (Attempt i (inl error) :: events) result.

End Retry.

(** The number of calls of the request function in a sequence of events. *)
Fixpoint attempts {T} (events : list (Event T)) : Z :=
  match events with
  | [] => 0
  | Attempt _ _ :: rest => 1 + attempts rest
  | Wait _ :: rest => attempts rest
  end.

End Spec.

(* ===================================================================== *)
(** * Scenarios *)
(* ===================================================================== *)

(** Browsers, servers and request functions the examples are run on. *)
Module Scenario.
Import Js Config Request.

(** A session: a logged-in browser on the dashboard. *)
Definition session : Browser :=
  {| localStorage :=
       {[ "company_token" := "demo-token-123";
          "company_user" :=
            JSON_stringify [("name", Some "Demo User");
                            ("email", Some "user@company.com")];
          "company_refresh_token" := "demo-refresh";
          "app_theme" := "dark" ]};
     location := "/dashboard" |}.

Definition no_options : RequestOptions :=
  {| timeout := None; requiresAuth := None; baseURL := None;
     headers := None; method := None; body := None |}.

(** A JSON response with the given status and parsed body. *)
Definition json_response (status : Z) (parsed : JsError + JsVal) : Response.t :=
  {| Response.status := status;
     Response.content_type := Some "application/json; charset=utf-8";
     Response.json := parsed;
     Response.text := inl (TypeError "body stream already read");
     Response.blob := inl (TypeError "body stream already read") |}.

Definition SyntaxError (msg : string) : JsError :=
  {| err_name := "SyntaxError"; err_message := msg |}.

(** A server that answers every request with the same response. *)
Definition always (r : Response.t) : string -> RequestInit -> JsError + Response.t :=
  fun _ _ => inr r.

Definition expired : JsVal := JObj [("message", JStr "Token expired")].

(** A server that answers 503 twice and then 200; the state counts the
    calls. *)
Definition flaky : Eff nat Z :=
  fun n =>
    (S n,
     if (n <? 2)%nat
     then inl (ThrownApi (new_ApiError ERROR_MESSAGES.SERVER_ERROR 503 JNull))
     else inr 200).

(** A server that is down: every call fails with 503. *)
Definition down : Eff nat Z :=
  fun n => (S n, inl (ThrownApi (new_ApiError ERROR_MESSAGES.SERVER_ERROR 503 JNull))).

End Scenario.

(* ===================================================================== *)
(** * Further vocabulary and scenarios *)
(* ===================================================================== *)

Module SpecMore.
Import Js Config Util Request.

(** The names on [Object.prototype]. *)
Definition object_prototype (k : string) : bool :=
  bool_decide (k ∈ ["constructor"; "__defineGetter__"; "__defineSetter__";
                    "hasOwnProperty"; "__lookupGetter__"; "__lookupSetter__";
                    "isPrototypeOf"; "propertyIsEnumerable"; "toString";
                    "valueOf"; "__proto__"; "toLocaleString"]).

(** The items of [array] whose key is [k], in order. *)
Definition with_key {T} (keyOf : T -> string) (k : string) (array : list T)
    : list T :=
  filter (fun item => keyOf item = k) array.

(** What the group of [k] is after more items have been pushed. *)
Definition extend {T} (group : option (list T)) (more : list T)
    : option (list T) :=
  match group, more with
  | Some g, _ => Some (g ++ more)
  | None, [] => None
  | None, _ => Some more
  end.

(** [`${n} ${unit}${n > 1 ? "s" : ""} ago`] *)
Definition ago (n : Z) (unit : string) : string :=
  pretty n +:+ " " +:+ unit +:+ (if n >? 1 then "s" else "") +:+ " ago".

(** The browser after the forced logout of [redirectToLogin]. *)
Definition logged_out (b : Browser) : Browser :=
  {| localStorage := clearAuth (localStorage b); location := "/login" |}.

(** The part of [request] that follows the reading of the body: the
    dispatch on the status. *)
Definition dispatch (response : Response.t) (data : JsVal)
    : Eff Browser ApiResponse.t :=
  (let status := Response.status response in
   if status =? HTTP_STATUS.UNAUTHORIZED then
     redirectToLogin ;;;
     throw (ThrownApi (new_ApiError ERROR_MESSAGES.UNAUTHORIZED
                         HTTP_STATUS.UNAUTHORIZED data))
   else if status =? HTTP_STATUS.FORBIDDEN then
     throw (ThrownApi (new_ApiError ERROR_MESSAGES.FORBIDDEN
                         HTTP_STATUS.FORBIDDEN data))
   else if status =? HTTP_STATUS.NOT_FOUND then
     throw (ThrownApi (new_ApiError ERROR_MESSAGES.NOT_FOUND
                         HTTP_STATUS.NOT_FOUND data))
   else if status =? HTTP_STATUS.UNPROCESSABLE_ENTITY then
     msg <- lift (get_prop data "message") ;;
     throw (ThrownApi
       (new_ApiError (to_str (or_else msg (JStr ERROR_MESSAGES.VALIDATION_ERROR)))
          HTTP_STATUS.UNPROCESSABLE_ENTITY data))
   else if status >=? 500 then
     throw (ThrownApi (new_ApiError ERROR_MESSAGES.SERVER_ERROR status data))
   else if negb (Response.ok response) then
     msg <- lift (get_prop data "message") ;;
     throw (ThrownApi
       (new_ApiError (to_str (or_else msg (JStr ("HTTP " +:+ pretty status))))
          status data))
   else
     inner <- lift (get_prop data "data") ;;
     message <- lift (get_prop data "message") ;;
     errors <- lift (get_prop data "errors") ;;
     ret {| ApiResponse.data :=
              match inner with JUndefined => data | _ => inner end;
            ApiResponse.message := message;
            ApiResponse.success := true;
            ApiResponse.status := status;
            ApiResponse.errors := errors |})%eff.

(** The time [retryRequest] spends in its timers, and their number. *)
Fixpoint total_wait {T} (events : list (Event T)) : Z :=
  match events with
  | [] => 0
  | Wait delay :: rest => delay + total_wait rest
  | Attempt _ _ :: rest => total_wait rest
  end.

Fixpoint waits {T} (events : list (Event T)) : Z :=
  match events with
  | [] => 0
  | Wait _ :: rest => 1 + waits rest
  | Attempt _ _ :: rest => waits rest
  end.

(** A server that cannot be reached, and one that never answers in time. *)
Definition unreachable : string -> RequestInit -> JsError + Response.t :=
  fun _ _ => inl (TypeError "Failed to fetch").

Definition too_slow : string -> RequestInit -> JsError + Response.t :=
  fun _ _ => inl {| err_name := "AbortError"; err_message := "The operation was aborted." |}.

(** What the result of [pick] holds at [k] once the listed keys are gone
    through, when it held [acc] before. *)
Definition picked_at {V} (inherited : gmap string V) (o acc : Obj V)
    (keys : list string) (k : string) : option V :=
  if decide (k ∈ keys /\ k <> "__proto__") then
    match read_prop inherited o k with
    | Some v => Some v
    | None => acc !! k
    end
  else acc !! k.

(** [c] is the hexadecimal digit of value [v], in either case. *)
Definition hexadecimal (c : ascii) (v : Z) : Prop :=
  0 <= v < 16 /\
  (String.get (Z.to_nat v) "0123456789abcdef" = Some c \/
   String.get (Z.to_nat v) "0123456789ABCDEF" = Some c).

(** The second argument of the only [fetch] of an upload: the method and
    the body of [options] where it has them, its headers where it has
    them, and otherwise nothing but the bearer token. *)
Definition upload_init (formData : string) (options : RequestOptions)
    (b : Browser) : RequestInit :=
  {| init_method := Some (default "POST" (method options));
     init_body := Some (default formData (body options));
     init_headers :=
       match headers options with
       | Some custom => foldl (fun h kv => <[fst kv := snd kv]> h) ∅ custom
       | None =>
           match getItem STORAGE_KEYS.TOKEN (localStorage b) with
           | Some token =>
               if default true (requiresAuth options) && truthy_str token
               then {[ "Authorization" := "Bearer " +:+ token ]}
               else ∅
           | None => ∅
           end
       end;
     signal := default 30000 (timeout options) |}.

(** A request that answers with the state it was sent in, and one that
    fails there. *)
Definition answers : Eff nat Z := fun n => (S n, inr (Z.of_nat n)).

Definition fails_at (k : nat) : Eff nat Z :=
  fun n => if decide (n = k)
           then (S n, inl (ThrownVal (JStr "refused")))
           else (S n, inr (Z.of_nat n)).

End SpecMore.

(* ===================================================================== *)
(** * Properties *)
(* ===================================================================== *)

Module UtilFacts.
Import Js Util Spec.

Example truncate_ex1 : truncate "hello world" 8 None = "hello...".
Proof. reflexivity. Qed.

Example chunk_ex1 : chunk [1;2;3;4;5] 2 = Some [[1;2];[3;4];[5]].
Proof. reflexivity. Qed.

Example chunk_ex2 : chunk [1;2;3;4;5] 0 = None.
Proof. reflexivity. Qed.

Example truncate_ex2 : truncate "hello world" 8 (Some "") = "hello wo".
Proof. reflexivity. Qed.

Example json_escape_ex :
  json_escape (String "010"%char (String "031"%char "a\b")) =
  String backslash "n" +:+ String backslash "u001f" +:+ "a" +:+
  String backslash (String backslash "b").
Proof. reflexivity. Qed.

(** ** Strings: [substring] and [append] *)

Lemma append_nil_l (t : string) : "" +:+ t = t.
Proof. reflexivity. Qed.

Lemma append_cons (c : ascii) (s t : string) :
  String c s +:+ t = String c (s +:+ t).
Proof. reflexivity. Qed.

Lemma slen_append (s t : string) : slen (s +:+ t) = slen s + slen t.
Proof.
  unfold slen. induction s as [|c s IH].
  - rewrite append_nil_l. simpl. lia.
  - rewrite append_cons. simpl String.length. rewrite !Nat2Z.inj_succ. lia.
Qed.

Lemma substring_0_length (m : nat) (s : string) :
  (m <= String.length s)%nat -> String.length (String.substring 0 m s) = m.
Proof.
  revert s. induction m as [|m IH]; intros [|c s] Hm; simpl in *; try lia.
  rewrite IH by lia. reflexivity.
Qed.

Lemma substring_0_prefix (m : nat) (s : string) :
  exists rest, s = String.substring 0 m s +:+ rest.
Proof.
  revert s. induction m as [|m IH]; intros [|c s]; simpl.
  - exists "". reflexivity.
  - exists (String c s). reflexivity.
  - exists "". reflexivity.
  - destruct (IH s) as [rest Hrest]. exists rest.
    rewrite append_cons. congruence.
Qed.

(** [text.slice(0, n)] for [0 <= n <= text.length] is the first [n]
    characters of [text]. *)
Lemma str_slice_0 (text : string) (n : Z) :
  0 <= n <= slen text ->
  slen (str_slice text 0 n) = n /\
  exists rest, text = str_slice text 0 n +:+ rest.
Proof.
  intros Hn. unfold str_slice, rel_index.
  replace (0 <? 0) with false by reflexivity.
  assert (Hlen : 0 <= slen text) by (unfold slen; lia).
  rewrite Z.min_l by lia.
  destruct (n <? 0) eqn:Hneg; [lia|].
  rewrite Z.min_l by lia.
  destruct (0 >=? n) eqn:Hz.
  - assert (n = 0) by lia. subst n. split; [reflexivity|].
    exists text. reflexivity.
  - rewrite Z.sub_0_r. change (Z.to_nat 0) with 0%nat. split.
    + unfold slen in *. rewrite substring_0_length by lia. lia.
    + apply substring_0_prefix.
Qed.

(** ** [truncate] *)

(** C9. A text that fits ([text.length <= maxLength]) is returned unchanged.
    A longer text, cut with a suffix that fits ([suffix.length <= maxLength],
    the suffix being ["..."] when the argument is omitted), gives a string of
    length exactly [maxLength] that ends with the suffix and begins with a
    prefix of the text. *)
Theorem truncate_spec (text : string) (maxLength : Z) (suffix : option string) :
  (slen text <= maxLength -> truncate text maxLength suffix = text) /\
  (slen text > maxLength -> slen (default "..." suffix) <= maxLength ->
   slen (truncate text maxLength suffix) = maxLength /\
   exists p rest,
     truncate text maxLength suffix = p +:+ default "..." suffix /\
     text = p +:+ rest).
Proof.
  unfold truncate. split.
  - intros Hfit. apply Z.leb_le in Hfit. rewrite Hfit, orb_true_r.
    reflexivity.
  - intros Hlong Hsfx. set (sfx := default "..." suffix) in *.
    assert (Hne : truthy_str text = true).
    { destruct text; [unfold slen in *; simpl in *; unfold slen in Hsfx; lia|].
      reflexivity. }
    rewrite Hne. simpl negb. rewrite orb_false_l.
    destruct (slen text <=? maxLength) eqn:Hle; [lia|].
    destruct (str_slice_0 text (maxLength - slen sfx)) as [Hlen [rest Hrest]].
    { unfold slen in *. lia. }
    split.
    + rewrite slen_append, Hlen. lia.
    + exists (str_slice text 0 (maxLength - slen sfx)), rest. split; [reflexivity|].
      exact Hrest.
Qed.

Lemma truncate_spec_witness :
  truncate "hi" 8 None = "hi" /\
  slen (truncate "hello world" 8 (Some "..")) = 8 /\
  exists p rest,
    truncate "hello world" 8 (Some "..") = p +:+ ".." /\
    "hello world" = p +:+ rest.
Proof.
  split.
  - apply (proj1 (truncate_spec "hi" 8 None)). vm_compute. discriminate.
  - apply (proj2 (truncate_spec "hello world" 8 (Some ".."))).
    + vm_compute. reflexivity.
    + vm_compute. discriminate.
Defined.

(** ** [chunk] *)

(** Inside the array, [array.slice(i, i + size)] is the next [size]
    elements (fewer at the end of the array). *)
Lemma arr_slice_window {T} (a : list T) (i size : Z) :
  0 <= i < alen a -> 0 < size ->
  arr_slice a i (i + size) = take (Z.to_nat size) (drop (Z.to_nat i) a).
Proof.
  intros Hi Hs. unfold arr_slice, rel_index.
  destruct (i <? 0) eqn:H1; [lia|].
  destruct (i + size <? 0) eqn:H2; [lia|].
  rewrite (Z.min_l i) by lia.
  destruct (Z.le_gt_cases (i + size) (alen a)) as [Hin|Hout].
  - rewrite Z.min_l by lia. f_equal. lia.
  - rewrite Z.min_r by lia. unfold alen in *.
    rewrite !take_ge; [reflexivity| |]; rewrite length_drop; lia.
Qed.

Lemma chunks_of_nil {T} (size : Z) : @chunks_of T size [] [].
Proof.
  split; [reflexivity|]. split; [|split].
  - intros j c Hj. rewrite lookup_nil in Hj. discriminate.
  - intros c Hc. discriminate.
  - congruence.
Qed.

(** One more full or final slice in front of the slices of the rest. *)
Lemma chunks_of_cons {T} (size : Z) (rest : list T) (cs : list (list T)) :
  0 < size -> rest <> [] ->
  chunks_of size (drop (Z.to_nat size) rest) cs ->
  chunks_of size rest (take (Z.to_nat size) rest :: cs).
Proof.
  intros Hs Hrest (Hcat & Hfull & Hlast & Hne).
  set (c0 := take (Z.to_nat size) rest).
  assert (Hc0 : alen c0 = Z.min size (alen rest)).
  { subst c0. unfold alen. rewrite length_take. lia. }
  assert (Hpos : 1 <= alen rest).
  { unfold alen. destruct rest; [congruence|simpl; lia]. }
  split; [|split; [|split]].
  - simpl. rewrite Hcat. apply take_drop.
  - intros [|j] c Hj Hlen; simpl in *.
    + injection Hj as <-. rewrite Hc0.
      destruct cs as [|c1 cs']; [simpl in Hlen; lia|].
      destruct (Z.le_gt_cases size (alen rest)) as [Hle|Hgt]; [lia|].
      exfalso. unfold alen in *.
      rewrite drop_ge in Hcat by lia.
      assert (Hc1 : 1 <= Z.of_nat (length c1)).
      { destruct cs' as [|c2 cs''].
        - apply (Hlast c1). reflexivity.
        - rewrite (Hfull 0%nat c1 eq_refl) by (simpl; lia). lia. }
      apply (f_equal length) in Hcat. simpl in Hcat.
      rewrite length_app in Hcat. lia.
    + apply (Hfull j c Hj). lia.
  - intros c Hc. rewrite last_cons in Hc.
    destruct (last cs) as [y|] eqn:Hy; injection Hc as <-.
    + apply Hlast. reflexivity.
    + rewrite Hc0. lia.
  - discriminate.
Qed.

(** The loop invariant of [chunk]: started at an index [i] with enough fuel,
    the loop returns, having appended to [chunks] the slices of the part of
    the array from [i] on. *)
Lemma chunk_loop_spec {T} (fuel : nat) (a : list T) (size i : Z)
    (chunks : list (list T)) :
  0 < size -> 0 <= i -> alen a - i <= Z.of_nat fuel ->
  exists cs,
    chunk_loop fuel a size i chunks = Some (chunks ++ cs) /\
    chunks_of size (drop (Z.to_nat i) a) cs.
Proof.
  intros Hs. revert i chunks.
  induction fuel as [|fuel IH]; intros i chunks Hi Hfuel; simpl;
    destruct (i <? alen a) eqn:Hlt;
    try apply Z.ltb_lt in Hlt; try apply Z.ltb_ge in Hlt; try lia.
  - exists []. rewrite app_nil_r. split; [reflexivity|].
    unfold alen in *. rewrite drop_ge by lia. apply chunks_of_nil.
  - destruct (IH (i + size) (chunks ++ [arr_slice a i (i + size)]))
      as (cs & Hrun & Hcs); [lia|lia|].
    rewrite arr_slice_window in * by lia.
    exists (take (Z.to_nat size) (drop (Z.to_nat i) a) :: cs).
    rewrite Hrun, <- app_assoc. split; [reflexivity|].
    apply chunks_of_cons; [exact Hs| |].
    + intros Hnil. apply (f_equal length) in Hnil.
      rewrite length_drop in Hnil. unfold alen in *. simpl in Hnil. lia.
    + rewrite drop_drop.
      replace (Z.to_nat i + Z.to_nat size)%nat with (Z.to_nat (i + size)) by lia.
      exact Hcs.
  - exists []. rewrite app_nil_r. split; [reflexivity|].
    unfold alen in *. rewrite drop_ge by lia. apply chunks_of_nil.
Qed.

(** The bound of [chunk_loop] is only ever hit by a loop that would not
    end: with [size <= 0] on a non-empty array the counter never reaches the
    length, whatever the fuel. *)
Lemma chunk_loop_diverges {T} (fuel : nat) (a : list T) (size i : Z)
    (chunks : list (list T)) :
  size <= 0 -> i < alen a -> chunk_loop fuel a size i chunks = None.
Proof.
  intros Hs. revert i chunks.
  induction fuel as [|fuel IH]; intros i chunks Hi; simpl;
    destruct (i <? alen a) eqn:Hlt; try lia; [reflexivity|].
  apply IH. lia.
Qed.

(** C8. For a positive integer [size], [chunk] returns; the sub-arrays
    concatenate, in order, to the array; every sub-array but the last has
    length exactly [size]; and the last one (there is one when the array is
    not empty) has a length between 1 and [size]. *)
Theorem chunk_spec {T} (a : list T) (size : Z) :
  0 < size ->
  exists cs,
    chunk a size = Some cs /\
    concat cs = a /\
    (forall (j : nat) c, cs !! j = Some c -> (S j < length cs)%nat -> alen c = size) /\
    (forall c, last cs = Some c -> 1 <= alen c <= size) /\
    (a <> [] -> exists c, last cs = Some c).
Proof.
  intros Hs. unfold chunk.
  destruct (chunk_loop_spec (length a) a size 0 [] Hs) as
    (cs & Hrun & Hcat & Hfull & Hlast & Hne); [lia|unfold alen; lia|].
  exists cs. rewrite Hrun. simpl in *.
  split; [reflexivity|]. split; [exact Hcat|]. split; [exact Hfull|].
  split; [exact Hlast|].
  intros Ha. destruct (last cs) as [c|] eqn:Hc; [eauto|].
  apply last_None in Hc. exfalso. exact (Hne Ha Hc).
Qed.

Lemma chunk_spec_witness :
  0 < 2 /\
  exists cs,
    chunk [1; 2; 3; 4; 5] 2 = Some cs /\
    concat cs = [1; 2; 3; 4; 5] /\
    (forall (j : nat) c, cs !! j = Some c -> (S j < length cs)%nat -> alen c = 2) /\
    (forall c, last cs = Some c -> 1 <= alen c <= 2) /\
    ([1; 2; 3; 4; 5] <> [] -> exists c, last cs = Some c).
Proof.
  split; [lia|]. apply (chunk_spec [1; 2; 3; 4; 5] 2). lia.
Defined.

(** ** [omit] *)

(** Deleting a list of keys from one object: the keys are gone, every other
    key is as before. *)
Lemma delete_keys_lookup {V} (keys : list string) (r : Obj V) (k : string) :
  foldl (fun r' key => delete key r') r keys !! k =
  if decide (k ∈ keys) then None else r !! k.
Proof.
  revert r. induction keys as [|key keys IH]; intros r; cbn [foldl].
  - rewrite decide_False; [reflexivity|]. apply not_elem_of_nil.
  - rewrite IH. destruct (decide (k = key)) as [->|Hne].
    + rewrite lookup_delete_eq.
      rewrite (decide_True (P := key ∈ key :: keys)) by (apply elem_of_cons; auto).
      destruct (decide (key ∈ keys)); reflexivity.
    + rewrite lookup_delete_ne by congruence.
      destruct (decide (k ∈ keys)) as [Hin|Hnin].
      * rewrite decide_True by (apply elem_of_cons; auto). reflexivity.
      * rewrite decide_False; [reflexivity|].
        intros [?|?]%elem_of_cons; contradiction.
Qed.

(** The [forEach] of [omit] only ever writes to the object at [result]. *)
Lemma delete_props_heap {V} (result : loc) (keys : list string) (h : Heap V) :
  foldl (fun h' key => delete_prop result key h') h keys =
  alter (fun r => foldl (fun r' key => delete key r') r keys) result h.
Proof.
  revert h. induction keys as [|key keys IH]; intros h; cbn [foldl].
  - apply map_eq. intros l. destruct (decide (result = l)) as [<-|Hl].
    + rewrite lookup_alter_eq. destruct (h !! result); reflexivity.
    + rewrite lookup_alter_ne by exact Hl. reflexivity.
  - rewrite IH. unfold delete_prop. apply map_eq. intros l.
    destruct (decide (result = l)) as [<-|Hl].
    + rewrite !lookup_alter_eq. destruct (h !! result); reflexivity.
    + rewrite !lookup_alter_ne by exact Hl. reflexivity.
Qed.

(** C10. [omit(obj, keys)] returns a new object in which no key of [keys]
    is present and every other key has exactly the value it has in [obj];
    the object [obj] itself, and every other object of the heap, is left as
    it was. *)
Theorem omit_spec {V} (h : Heap V) (obj : loc) (o : Obj V) (keys : list string) :
  h !! obj = Some o ->
  exists result h' r,
    omit obj keys h = Some (result, h') /\
    h' !! result = Some r /\
    (forall k, k ∈ keys -> r !! k = None) /\
    (forall k, k ∉ keys -> r !! k = o !! k) /\
    h' !! obj = Some o /\
    h !! result = None /\
    (forall l, l <> result -> h' !! l = h !! l).
Proof.
  intros Hobj. unfold omit, alloc. rewrite Hobj. simpl.
  set (result := fresh (dom h)).
  assert (Hfresh : h !! result = None).
  { apply not_elem_of_dom. apply is_fresh. }
  assert (Hneq : obj <> result) by congruence.
  rewrite delete_props_heap.
  exists result, (alter (fun r => foldl (fun r' key => delete key r') r keys)
                    result (<[result := o]> h)),
    (foldl (fun r' key => delete key r') o keys).
  split; [reflexivity|]. split.
  { rewrite lookup_alter_eq, lookup_insert_eq. reflexivity. }
  split; [|split].
  - intros k Hk. rewrite delete_keys_lookup, decide_True by exact Hk.
    reflexivity.
  - intros k Hk. rewrite delete_keys_lookup, decide_False by exact Hk.
    reflexivity.
  - split; [|split].
    + rewrite lookup_alter_ne, lookup_insert_ne by congruence. exact Hobj.
    + exact Hfresh.
    + intros l Hl. rewrite lookup_alter_ne, lookup_insert_ne by congruence.
      reflexivity.
Qed.

Lemma omit_spec_witness :
  let o : Obj Z := {[ "id" := 1; "password" := 2; "name" := 3 ]} in
  let h : Heap Z := {[ 1%positive := o ]} in
  h !! 1%positive = Some o /\
  exists result h' r,
    omit 1%positive ["password"] h = Some (result, h') /\
    h' !! result = Some r /\
    (forall k, k ∈ ["password"] -> r !! k = None) /\
    (forall k, k ∉ ["password"] -> r !! k = o !! k) /\
    h' !! 1%positive = Some o /\
    h !! result = None /\
    (forall l, l <> result -> h' !! l = h !! l).
Proof.
  intros o h.
  assert (Hobj : h !! 1%positive = Some o) by (apply lookup_singleton_eq).
  split; [exact Hobj|]. exact (omit_spec h 1%positive o ["password"] Hobj).
Defined.

(** ** [isAuthenticated] *)

Example isAuthenticated_token :
  isAuthenticated {[ "company_token" := "demo-token-123" ]} = true.
Proof. reflexivity. Qed.

Example isAuthenticated_empty_token :
  isAuthenticated {[ "company_token" := "" ]} = false.
Proof. reflexivity. Qed.

Lemma truthy_str_spec (s : string) : truthy_str s = true <-> s <> "".
Proof.
  unfold truthy_str. destruct (String.eqb_spec s ""); simpl; split;
    congruence.
Qed.

(** C6, as stated, fails: a [company_token] key that is set to the empty
    string is present, yet [isAuthenticated] answers [false]. *)
Lemma isAuthenticated_presence_counterexample :
  ~ (forall ls : Storage,
       isAuthenticated ls = true <->
       is_Some (ls !! Config.STORAGE_KEYS.TOKEN)).
Proof.
  intros H.
  specialize (H {[ Config.STORAGE_KEYS.TOKEN := "" ]}).
  destruct H as [_ H].
  assert (Hset : is_Some
    (({[ Config.STORAGE_KEYS.TOKEN := "" ]} : Storage) !! Config.STORAGE_KEYS.TOKEN)).
  { rewrite lookup_singleton_eq. eexists. reflexivity. }
  apply H in Hset. vm_compute in Hset. discriminate.
Qed.

(** C6, amended. [isAuthenticated] answers [true] exactly when the
    [company_token] key is set to a non-empty string; nothing else of the
    value, and no other key, is looked at. *)
Theorem isAuthenticated_spec (ls : Storage) :
  isAuthenticated ls = true <->
  exists token, ls !! Config.STORAGE_KEYS.TOKEN = Some token /\ token <> "".
Proof.
  unfold isAuthenticated, getItem, truthy_opt.
  destruct (ls !! Config.STORAGE_KEYS.TOKEN) as [token|].
  - rewrite truthy_str_spec. split.
    + intros Hne. exists token. split; [reflexivity|exact Hne].
    + intros (t & Ht & Hne). congruence.
  - split; [discriminate|]. intros (t & Ht & _). discriminate.
Qed.

End UtilFacts.

Module PagesFacts.
Import Js Pages.

(** ** The mock login *)

Example loginApi_demo :
  Login.loginApi "user@company.com" "password" =
  ([500], {| ok := true; token := Some "demo-token-123";
             name := Some "Demo User"; error := None |}).
Proof. reflexivity. Qed.

Example loginApi_wrong_password :
  Login.loginApi "user@company.com" "Password" =
  ([500], {| ok := false; token := None; name := None;
             error := Some "Invalid email or password" |}).
Proof. reflexivity. Qed.

(** C7. [loginApi] waits for one timer of 500 ms, whatever its arguments,
    and then resolves to the canned success exactly when the email is
    ["user@company.com"] and the password is ["password"], and to the canned
    failure for every other input. *)
Theorem loginApi_spec (email password : string) :
  fst (Login.loginApi email password) = [500] /\
  (email = "user@company.com" /\ password = "password" ->
   snd (Login.loginApi email password) =
     {| ok := true; token := Some "demo-token-123";
        name := Some "Demo User"; error := None |}) /\
  (~ (email = "user@company.com" /\ password = "password") ->
   snd (Login.loginApi email password) =
     {| ok := false; token := None; name := None;
        error := Some "Invalid email or password" |}).
Proof.
  unfold Login.loginApi, await, sleep, resolve.
  destruct (String.eqb_spec email "user@company.com") as [He|He];
    destruct (String.eqb_spec password "password") as [Hp|Hp]; simpl;
    (split; [reflexivity|]); split; intros H;
    try reflexivity; try (destruct H; congruence); try (exfalso; apply H; auto).
Qed.

Lemma loginApi_spec_witness :
  fst (Login.loginApi "user@company.com" "password") = [500] /\
  snd (Login.loginApi "user@company.com" "password") =
    {| ok := true; token := Some "demo-token-123";
       name := Some "Demo User"; error := None |} /\
  fst (Login.loginApi "root" "toor") = [500] /\
  snd (Login.loginApi "root" "toor") =
    {| ok := false; token := None; name := None;
       error := Some "Invalid email or password" |}.
Proof.
  split; [exact (proj1 (loginApi_spec "user@company.com" "password"))|].
  split.
  { apply (proj1 (proj2 (loginApi_spec "user@company.com" "password"))).
    split; reflexivity. }
  split; [exact (proj1 (loginApi_spec "root" "toor"))|].
  apply (proj2 (proj2 (loginApi_spec "root" "toor"))).
  intros [H _]. discriminate H.
Defined.

(** ** The storage life cycle *)

(** The user record written by a successful demo login, as text. *)
Example login_user_record :
  JSON_stringify [("name", Some "Demo User"); ("email", Some "user@company.com")] =
  "{" +:+ json_quote "name" +:+ ":" +:+ json_quote "Demo User" +:+ "," +:+
  json_quote "email" +:+ ":" +:+ json_quote "user@company.com" +:+ "}".
Proof. reflexivity. Qed.

Example json_quote_plain : String.length (json_quote "Demo User") = 11%nat.
Proof. reflexivity. Qed.

Lemma loginApi_ok (email password : string) :
  ok (snd (Login.loginApi email password)) = true ->
  snd (Login.loginApi email password) =
    {| ok := true; token := Some "demo-token-123";
       name := Some "Demo User"; error := None |}.
Proof.
  unfold Login.loginApi, await, sleep, resolve.
  destruct (_ && _); simpl; [reflexivity|discriminate].
Qed.

Lemma registerApi_ok (name email password : string) :
  ok (snd (Register.registerApi name email password)) = true ->
  snd (Register.registerApi name email password) =
    {| ok := true; token := Some "demo-token-456";
       name := Some name; error := None |}.
Proof.
  unfold Register.registerApi, await, sleep, resolve.
  destruct (_ && _); simpl; [reflexivity|discriminate].
Qed.

(** C5. When the mock login succeeds, [handleSubmit] of the login page
    leaves the token under [company_token] and the user record, as JSON
    text, under [company_user]; so does [handleSubmit] of the registration
    page when the mock registration succeeds; and [handleLogout] of the
    dashboard leaves neither key set. *)
Theorem storage_lifecycle :
  (forall (st : Login.State) (b : Browser),
     ok (snd (Login.loginApi (Login.email st) (Login.password st))) = true ->
     let b' := snd (snd (Login.handleSubmit st b)) in
     localStorage b' !! Config.STORAGE_KEYS.TOKEN = Some "demo-token-123" /\
     localStorage b' !! Config.STORAGE_KEYS.USER =
       Some (JSON_stringify [("name", Some "Demo User");
                             ("email", Some (Login.email st))])) /\
  (forall (st : Register.State) (b : Browser),
     ok (snd (Register.registerApi (Register.name st) (Register.email st)
                (Register.password st))) = true ->
     let b' := snd (snd (Register.handleSubmit st b)) in
     localStorage b' !! Config.STORAGE_KEYS.TOKEN = Some "demo-token-456" /\
     localStorage b' !! Config.STORAGE_KEYS.USER =
       Some (JSON_stringify [("name", Some (Register.name st));
                             ("email", Some (Register.email st))])) /\
  (forall b : Browser,
     let b' := Pages.Dashboard.handleLogout b in
     localStorage b' !! Config.STORAGE_KEYS.TOKEN = None /\
     localStorage b' !! Config.STORAGE_KEYS.USER = None).
Proof.
  split; [|split].
  - intros st b Hok. unfold Login.handleSubmit, await. simpl Login.email.
    simpl Login.password.
    pose proof (loginApi_ok _ _ Hok) as Hres.
    destruct (Login.loginApi (Login.email st) (Login.password st)) as [d res].
    simpl in Hres. subst res. simpl. unfold setItem. split.
    + rewrite lookup_insert_ne by discriminate. apply lookup_insert_eq.
    + apply lookup_insert_eq.
  - intros st b Hok. unfold Register.handleSubmit, await.
    simpl Register.name. simpl Register.email. simpl Register.password.
    pose proof (registerApi_ok _ _ _ Hok) as Hres.
    destruct (Register.registerApi (Register.name st) (Register.email st)
                (Register.password st)) as [d res].
    simpl in Hres. subst res. simpl. unfold setItem. split.
    + rewrite lookup_insert_ne by discriminate. apply lookup_insert_eq.
    + apply lookup_insert_eq.
  - intros b. unfold Dashboard.handleLogout. simpl. unfold removeItem. split.
    + rewrite lookup_delete_ne by discriminate. apply lookup_delete_eq.
    + apply lookup_delete_eq.
Qed.

Lemma storage_lifecycle_witness :
  let st := {| Login.email := "user@company.com"; Login.password := "password";
               Login.loading := false; Login.error_ := "" |} in
  let rt := {| Register.name := "Ada"; Register.email := "ada@company.com";
               Register.password := "s3cret"; Register.loading := false;
               Register.error_ := "" |} in
  let b := {| localStorage := ∅; location := "/login" |} in
  (localStorage (snd (snd (Login.handleSubmit st b))) !! Config.STORAGE_KEYS.TOKEN
     = Some "demo-token-123" /\
   localStorage (snd (snd (Login.handleSubmit st b))) !! Config.STORAGE_KEYS.USER
     = Some (JSON_stringify [("name", Some "Demo User");
                             ("email", Some "user@company.com")])) /\
  (localStorage (snd (snd (Register.handleSubmit rt b))) !! Config.STORAGE_KEYS.TOKEN
     = Some "demo-token-456" /\
   localStorage (snd (snd (Register.handleSubmit rt b))) !! Config.STORAGE_KEYS.USER
     = Some (JSON_stringify [("name", Some "Ada");
                             ("email", Some "ada@company.com")])) /\
  (localStorage (Pages.Dashboard.handleLogout (snd (snd (Login.handleSubmit st b))))
     !! Config.STORAGE_KEYS.TOKEN = None /\
   localStorage (Pages.Dashboard.handleLogout (snd (snd (Login.handleSubmit st b))))
     !! Config.STORAGE_KEYS.USER = None).
Proof.
  intros st rt b.
  destruct storage_lifecycle as (Hlogin & Hregister & Hlogout).
  split; [|split].
  - apply (Hlogin st b). reflexivity.
  - apply (Hregister rt b). reflexivity.
  - apply (Hlogout (snd (snd (Login.handleSubmit st b)))).
Defined.

End PagesFacts.

Module RequestFacts.
Import Js Config Request Spec Scenario.

(** ** The request wrapper on examples *)

Example request_401 :
  request (always (json_response 401 (inr expired))) None "/users/me" no_options session =
  ({| localStorage := {[ "app_theme" := "dark" ]}; location := "/login" |},
   inl (ThrownApi (new_ApiError ERROR_MESSAGES.UNAUTHORIZED 401 expired))).
Proof. vm_compute. reflexivity. Qed.


Example request_401_broken_body :
  request (always (json_response 401 (inl (SyntaxError "Unexpected end of JSON input"))))
    None "/users/me" no_options session =
  (session,
   inl (ThrownApi (new_ApiError "Unexpected end of JSON input" 0
                     (JErr (SyntaxError "Unexpected end of JSON input"))))).
Proof. vm_compute. reflexivity. Qed.

Example request_200 :
  snd (request (always (json_response 200 (inr (JObj [("data", JNum 7)]))))
         None "/users/me" no_options session) =
  inr {| ApiResponse.data := JNum 7; ApiResponse.message := JUndefined;
         ApiResponse.success := true; ApiResponse.status := 200;
         ApiResponse.errors := JUndefined |}.
Proof. vm_compute. reflexivity. Qed.

Example request_network_failure :
  snd (request (fun _ _ => inl (TypeError "Failed to fetch"))
         None "/users/me" no_options session) =
  inl (ThrownApi (new_ApiError ERROR_MESSAGES.NETWORK_ERROR 0
                    (JErr (TypeError "Failed to fetch")))).
Proof. vm_compute. reflexivity. Qed.

Example request_timeout :
  snd (request (fun _ _ => inl {| err_name := "AbortError"; err_message := "aborted" |})
         None "/users/me" no_options session) =
  inl (ThrownApi (new_ApiError ERROR_MESSAGES.TIMEOUT 408 JUndefined)).
Proof. vm_compute. reflexivity. Qed.

(** Without a token no request is sent. *)
Example request_no_token :
  request (always (json_response 200 (inr JNull))) None "/users/me" no_options
    {| localStorage := ∅; location := "/" |} =
  ({| localStorage := ∅; location := "/" |},
   inl (ThrownApi (new_ApiError ERROR_MESSAGES.UNAUTHORIZED 401 JUndefined))).
Proof. vm_compute. reflexivity. Qed.

(** ** What a computation can throw *)

Section Throws.

Context {St : Type} (P : Thrown -> Prop).

Lemma throws_only_ret {A} (a : A) : throws_only P (ret (St := St) a).
Proof. intros st st' t H. discriminate H. Qed.

Lemma throws_only_throw {A} (t : Thrown) :
  P t -> throws_only P (throw (St := St) (A := A) t).
Proof. intros Ht st st' t' H. injection H as _ <-. exact Ht. Qed.

Lemma throws_only_modify (f : St -> St) : throws_only P (modify f).
Proof. intros st st' t H. discriminate H. Qed.

Lemma throws_only_bind {A B} (m : Eff St A) (k : A -> Eff St B) :
  throws_only P m -> (forall a, throws_only P (k a)) ->
  throws_only P (bind m k).
Proof.
  intros Hm Hk st st' t. unfold bind.
  destruct (m st) as [st1 [t1|a]] eqn:Hrun.
  - intros H. injection H as _ <-. exact (Hm _ _ _ Hrun).
  - apply Hk.
Qed.

Lemma throws_only_lift {A} (r : JsError + A) :
  (forall e, P (ThrownVal (JErr e))) -> throws_only P (lift (St := St) r).
Proof.
  intros HP. destruct r as [e|a]; simpl.
  - apply throws_only_throw, HP.
  - apply throws_only_ret.
Qed.

Lemma throws_only_if {A} (c : bool) (m1 m2 : Eff St A) :
  throws_only P m1 -> throws_only P m2 ->
  throws_only P (if c then m1 else m2).
Proof. destruct c; auto. Qed.

Lemma throws_only_try_catch {A} (Q : Thrown -> Prop) (m : Eff St A)
    (handler : Thrown -> Eff St A) :
  throws_only Q m -> (forall t, Q t -> throws_only P (handler t)) ->
  throws_only P (try_catch m handler).
Proof.
  intros Hm Hh st st' t. unfold try_catch.
  destruct (m st) as [st1 [t1|a]] eqn:Hrun.
  - apply Hh. exact (Hm _ _ _ Hrun).
  - intros H. discriminate H.
Qed.

End Throws.

Lemma api_or_platform_new (message : string) (status : Z) (data : JsVal) :
  api_or_platform (ThrownApi (new_ApiError message status data)).
Proof. reflexivity. Qed.

Lemma api_only_new (message : string) (status : Z) (data : JsVal) :
  api_only (ThrownApi (new_ApiError message status data)).
Proof. eexists. split; reflexivity. Qed.

Create HintDb throws.
#[local] Hint Resolve api_or_platform_new api_only_new : throws.

Ltac throws_step :=
  first
    [ apply throws_only_ret
    | apply throws_only_modify
    | apply throws_only_throw; auto with throws
    | apply throws_only_lift; intros; exact I
    | apply throws_only_if
    | apply throws_only_bind; [|intros ?] ].

Section WrapperFacts.

Variable fetch : string -> RequestInit -> JsError + Response.t.
Variable env_base_url : option string.

Lemma fetchWithTimeout_throws url options requestHeaders :
  throws_only api_or_platform (fetchWithTimeout fetch url options requestHeaders).
Proof.
  unfold fetchWithTimeout.
  destruct (fetch url _) as [error|response]; repeat throws_step.
  exact I.
Qed.

Lemma parseResponse_throws response :
  throws_only api_or_platform (parseResponse response).
Proof.
  unfold parseResponse. repeat throws_step.
  apply (throws_only_try_catch _ api_or_platform); repeat throws_step.
  intros t _. repeat throws_step.
Qed.

Lemma buildHeaders_throws requiresAuth customHeaders :
  throws_only api_only (buildHeaders requiresAuth customHeaders).
Proof.
  unfold buildHeaders, getAuthToken. destruct requiresAuth; repeat throws_step.
  intros st st' t H. discriminate H.
Qed.

(** The [catch] block turns whatever the [try] block throws into an
    [ApiError]. *)
Lemma request_catch_throws {A} (t : Thrown) :
  api_or_platform t -> throws_only api_only (request_catch (A := A) t).
Proof.
  destruct t as [e|v]; simpl.
  - intros He. apply throws_only_throw. exists e. split; [reflexivity|exact He].
  - destruct v; try contradiction. intros _. 
    unfold request_catch. simpl.
    intros st st' t H. unfold bind, ret in H.
    destruct (err_message e) as [|c m] eqn:Hm; simpl in H.
    + injection H as _ <-. apply api_only_new.
    + revert H. 
      repeat match goal with
             | |- context [match ?x with _ => _ end] => destruct x
             end; intros H; injection H as _ <-; apply api_only_new.
Qed.

(** C4. Whenever [request] fails, what it throws is an instance of
    [ApiError]: a numeric status, a message, the data, and the [errors] read
    from the data when there are any. Nothing else escapes: the errors of
    [fetch] and of reading the body, and the [TypeError] of reading a
    property of a [null] body, are all caught and wrapped. *)
Theorem request_throws_ApiError (endpoint : string) (options : RequestOptions)
    (b b' : Browser) (t : Thrown) :
  request fetch env_base_url endpoint options b = (b', inl t) ->
  exists e : ApiError.t,
    t = ThrownApi e /\
    ApiError.errors e = get_prop_opt (ApiError.data e) "errors".
Proof.
  revert b b' t. change (throws_only api_only
    (request fetch env_base_url endpoint options)).
  unfold request. apply throws_only_bind; [apply buildHeaders_throws|].
  intros requestHeaders.
  apply (throws_only_try_catch _ api_or_platform);
    [|intros t Ht; apply request_catch_throws; exact Ht].
  apply throws_only_bind; [apply fetchWithTimeout_throws|]. intros response.
  apply throws_only_bind; [apply parseResponse_throws|]. intros data.
  unfold redirectToLogin, clearAuthData. repeat throws_step.
Qed.

(** ** The 401 path *)

Lemma buildHeaders_state requiresAuth customHeaders (b : Browser) :
  fst (buildHeaders requiresAuth customHeaders b) = b.
Proof.
  unfold buildHeaders, getAuthToken, bind, ret, throw.
  destruct requiresAuth; [|reflexivity].
  destruct (truthy_opt _); reflexivity.
Qed.

Lemma parseResponse_state response (b : Browser) :
  fst (parseResponse response b) = b.
Proof.
  unfold parseResponse, try_catch, bind, lift, ret, throw.
  destruct (Response.json response), (Response.text response),
    (Response.blob response), (Response.content_type response) as [ct|];
    try destruct (truthy_str ct && includes ct "application/json");
    try destruct (truthy_str ct && includes ct "text/");
    try destruct (truthy_str ct && includes ct "application/pdf");
    reflexivity.
Qed.

(** The branch [// Handle unauthorized (401)] is reached once the body of
    the response has been read: then [request] removes [company_token],
    [company_user] and [company_refresh_token] from the storage, sends the
    browser to [/login] and rejects with an [ApiError] of status 401. *)
Lemma request_401_forced_logout (endpoint : string) (options : RequestOptions)
    (b : Browser) (response : Response.t) (data : JsVal) :
  response_arrives fetch env_base_url endpoint options b response ->
  Response.status response = 401 ->
  snd (parseResponse response b) = inr data ->
  forced_logout (request fetch env_base_url endpoint options b).
Proof.
  intros (requestHeaders & Hheaders & Hfetch) Hstatus Hparse.
  unfold request, bind at 1.
  pose proof (buildHeaders_state (default true (requiresAuth options))
                (default [] (headers options)) b) as Hb.
  destruct (buildHeaders _ _ b) as [b1 r1]. simpl in Hb, Hheaders. subst b1 r1.
  unfold try_catch, bind at 1, fetchWithTimeout. rewrite Hfetch.
  unfold ret at 1, bind at 1.
  pose proof (parseResponse_state response b) as Hp.
  destruct (parseResponse response b) as [b2 r2]. simpl in Hp, Hparse.
  subst b2 r2. rewrite Hstatus. simpl.
  exists (new_ApiError ERROR_MESSAGES.UNAUTHORIZED HTTP_STATUS.UNAUTHORIZED data).
  simpl. unfold removeItem.
  split; [reflexivity|]. split; [reflexivity|].
  split; [|split; [|split; [|reflexivity]]].
  - rewrite !lookup_delete_ne by discriminate. apply lookup_delete_eq.
  - rewrite lookup_delete_ne by discriminate. apply lookup_delete_eq.
  - apply lookup_delete_eq.
Qed.

End WrapperFacts.

Lemma request_401_forced_logout_witness :
  response_arrives (always (json_response 401 (inr expired))) None
    "/users/me" no_options session (json_response 401 (inr expired)) /\
  Response.status (json_response 401 (inr expired)) = 401 /\
  snd (parseResponse (json_response 401 (inr expired)) session) = inr expired /\
  forced_logout
    (request (always (json_response 401 (inr expired))) None "/users/me"
       no_options session).
Proof.
  assert (Harrives : response_arrives (always (json_response 401 (inr expired)))
            None "/users/me" no_options session (json_response 401 (inr expired))).
  { eexists. split; reflexivity. }
  split; [exact Harrives|]. split; [reflexivity|]. split; [reflexivity|].
  exact (request_401_forced_logout _ None "/users/me" no_options session
           (json_response 401 (inr expired)) expired Harrives eq_refl eq_refl).
Defined.

(** C1. The code does not do what the claim, and its own branch for the
    status 401, say. [request] awaits [parseResponse] before it looks at
    the status, so a 401 response whose body cannot be read (here a JSON
    content type with a truncated body) leaves the [try] block before the
    branch that logs out; the [catch] block wraps the [SyntaxError] into an
    [ApiError] of status 0, the credentials stay and the browser stays
    where it was. The claim puts no condition on the body, and neither does
    the branch: the order of the two steps is a defect of the code. *)
Theorem request_401_counterexample :
  ~ (forall fetch env_base_url endpoint options b response,
       response_arrives fetch env_base_url endpoint options b response ->
       Response.status response = 401 ->
       forced_logout (request fetch env_base_url endpoint options b)).
Proof.
  intros H.
  pose (response := json_response 401 (inl (SyntaxError "Unexpected end of JSON input"))).
  assert (Harrives : response_arrives (always response) None "/users/me"
                       no_options session response).
  { eexists. split; reflexivity. }
  specialize (H (always response) None "/users/me" no_options session response
                Harrives eq_refl).
  destruct H as (e & Hthrown & Hstatus & _).
  subst response. rewrite request_401_broken_body in Hthrown.
  simpl in Hthrown. injection Hthrown as <-. discriminate Hstatus.
Qed.

Lemma request_throws_ApiError_witness :
  request (always (json_response 422 (inr JNull))) None "/users/me" no_options session =
    (session,
     inl (ThrownApi (new_ApiError "Cannot read properties of null" 0
                       (JErr (TypeError "Cannot read properties of null"))))) /\
  exists e : ApiError.t,
    ThrownApi (new_ApiError "Cannot read properties of null" 0
                 (JErr (TypeError "Cannot read properties of null"))) = ThrownApi e /\
    ApiError.errors e = get_prop_opt (ApiError.data e) "errors".
Proof.
  assert (Hrun :
    request (always (json_response 422 (inr JNull))) None "/users/me" no_options session =
    (session,
     inl (ThrownApi (new_ApiError "Cannot read properties of null" 0
                       (JErr (TypeError "Cannot read properties of null"))))))
    by (vm_compute; reflexivity).
  split; [exact Hrun|].
  exact (request_throws_ApiError _ _ _ _ _ _ _ Hrun).
Defined.

Section RetryFacts.

Context {St T : Type}.
Variable requestFn : Eff St T.
Variables maxRetries baseDelay : Z.

#[local] Abbreviation loop := (retry_loop requestFn maxRetries baseDelay).

Lemma retry_loop_unfold (i : Z) (lastError : Thrown) (st : St) :
  loop i lastError st =
  if decide (i < maxRetries) then
    match requestFn st with
    | (st1, inr response) => (st1, inr response, [Attempt i (inr response)])
    | (st1, inl error) =>
        if is_client_error error then (st1, inl error, [Attempt i (inl error)])
        else
          let '(st2, result, events) := loop (i + 1) error st1 in
          (st2, result,
           Attempt i (inl error)
             :: (if i <? maxRetries - 1 then [Wait (backoff baseDelay i)] else [])
             ++ events)
    end
  else (st, inl lastError, []).
Proof.
  simp retry_loop.
  destruct (Z_lt_dec i maxRetries) as [Hlt|Hge]; simpl.
  - rewrite decide_True by exact Hlt.
    destruct (requestFn st) as [st1 [error|response]]; simpl; [|reflexivity].
    destruct (is_client_error error); simpl; [reflexivity|].
    destruct (loop (i + 1) error st1) as [[st2 result] events]. reflexivity.
  - rewrite decide_False by exact Hge. reflexivity.
Qed.
(** Every execution of the loop is such a run. *)
Lemma retry_loop_Run (i : Z) (lastError : Thrown) (st : St) :
  Run maxRetries baseDelay i lastError
    (snd (loop i lastError st)) (snd (fst (loop i lastError st))).
Proof.
  remember (Z.to_nat (maxRetries - i)) as n eqn:Hn.
  revert i lastError st Hn.
  induction n as [|n IH]; intros i lastError st Hn;
    rewrite retry_loop_unfold; case_decide as Hlt; simpl;
    try (apply Run_exhausted; lia); try lia.
  destruct (requestFn st) as [st1 [error|response]]; simpl.
  - destruct (is_client_error error) eqn:Hclient; simpl.
    + apply Run_client_error; assumption.
    + specialize (IH (i + 1) error st1 ltac:(lia)).
      destruct (loop (i + 1) error st1) as [[st2 result] events]. simpl in *.
      destruct (i <? maxRetries - 1) eqn:Hmore; simpl.
      * apply Run_retry; [lia|assumption|assumption].
      * apply Run_last; [lia|assumption|assumption].
  - apply Run_success. assumption.
Qed.

Lemma Run_past_end (i : Z) (lastError : Thrown)
    (events : list (Event T)) result :
  Run maxRetries baseDelay i lastError events result -> maxRetries <= i ->
  events = [] /\ result = inl lastError.
Proof. intros HR Hi. destruct HR; try lia. split; reflexivity. Qed.

Lemma Run_head (i : Z) (lastError : Thrown)
    (events : list (Event T)) result :
  Run maxRetries baseDelay i lastError events result -> i < maxRetries ->
  exists outcome rest, events = Attempt i outcome :: rest.
Proof. intros HR Hi. destruct HR; try lia; eauto. Qed.

(** What follows an attempt in a run: nothing after a success or a client
    error, which is the outcome; after any other failure, the backoff timer
    and the next attempt, when there is one left, and nothing otherwise. *)
Lemma Run_attempt (i : Z) (lastError : Thrown)
    (events : list (Event T)) result :
  Run maxRetries baseDelay i lastError events result ->
  forall pre j outcome post,
    events = pre ++ Attempt j outcome :: post ->
    i <= j < maxRetries /\
    match outcome with
    | inr response => post = [] /\ result = inr response
    | inl error =>
        if is_client_error error then post = [] /\ result = inl error
        else
          (j + 1 < maxRetries ->
           exists outcome' post',
             post = Wait (backoff baseDelay j) :: Attempt (j + 1) outcome' :: post') /\
          (maxRetries <= j + 1 -> post = [] /\ result = inl error)
    end.
Proof.
  induction 1 as [i lastError Hi|i lastError response Hi|i lastError error Hi Hc
                 |i lastError error events result Hi Hc HR IH
                 |i lastError error events result Hi Hc HR IH];
    intros pre j outcome post Heq.
  - destruct pre; discriminate.
  - destruct pre as [|x [|y pre]]; try discriminate.
    injection Heq as <- <- <-. split; [lia|]. split; reflexivity.
  - destruct pre as [|x [|y pre]]; try discriminate.
    injection Heq as <- <- <-. split; [lia|]. rewrite Hc. split; reflexivity.
  - destruct pre as [|x pre].
    + injection Heq as <- <- <-. split; [lia|]. rewrite Hc. split; [|lia].
      intros _. destruct (Run_head _ _ _ _ HR) as (o' & rest & ->); [lia|].
      eauto.
    + destruct pre as [|y pre]; [discriminate|].
      injection Heq as _ _ Heq. destruct (IH _ _ _ _ Heq) as [Hj Hout].
      split; [lia|exact Hout].
  - destruct (Run_past_end _ _ _ _ HR) as [-> ->]; [lia|].
    destruct pre as [|x [|y pre]]; try discriminate.
    injection Heq as <- <- <-. split; [lia|]. rewrite Hc. split; [lia|].
    intros _. split; reflexivity.
Qed.

End RetryFacts.

Lemma Run_attempts_bound {T} (maxRetries baseDelay i : Z) lastError
    (events : list (Event T)) result :
  Run maxRetries baseDelay i lastError events result ->
  0 <= attempts events <= Z.max 0 (maxRetries - i).
Proof. induction 1; simpl; lia. Qed.


Example retryRequest_flaky :
  retryRequest flaky None None 0%nat =
  (3%nat, inr 200,
   [Attempt 0 (inl (ThrownApi (new_ApiError ERROR_MESSAGES.SERVER_ERROR 503 JNull)));
    Wait 1000;
    Attempt 1 (inl (ThrownApi (new_ApiError ERROR_MESSAGES.SERVER_ERROR 503 JNull)));
    Wait 2000;
    Attempt 2 (inr 200)]).
Proof. reflexivity. Qed.


(** Without a single iteration, [lastError] is thrown as it was declared. *)
Example retryRequest_no_attempt :
  retryRequest down (Some 0) None 0%nat = (0%nat, inl (ThrownVal JUndefined), []).
Proof. reflexivity. Qed.

Lemma backoff_double (baseDelay i : Z) :
  0 <= i -> backoff baseDelay (i + 1) = 2 * backoff baseDelay i.
Proof. intros Hi. unfold backoff. rewrite Z.pow_add_r by lia. lia. Qed.

(** C2. In every run of [retryRequest], for the attempt numbered [i]
    (from 0): if it fails with an [ApiError] whose status is at least 400
    and below 500, nothing follows it and that error is what [retryRequest]
    throws; if it fails with an [ApiError] of status 5xx or 0 and an attempt
    is left, the next events are the timer of [baseDelay * 2^i] and the
    attempt [i + 1] (and with no attempt left the error is thrown at once);
    each delay is twice the one before. *)
Theorem retryRequest_backoff {St T} (requestFn : Eff St T)
    (maxRetries baseDelay : option Z) (st : St) pre i e post :
  snd (retryRequest requestFn maxRetries baseDelay st) =
    pre ++ Attempt i (inl (ThrownApi e)) :: post ->
  let result := snd (fst (retryRequest requestFn maxRetries baseDelay st)) in
  let maxRetries := default 3 maxRetries in
  let baseDelay := default 1000 baseDelay in
  (400 <= ApiError.status e < 500 ->
   post = [] /\ result = inl (ThrownApi e)) /\
  (500 <= ApiError.status e < 600 \/ ApiError.status e = 0 ->
   (i + 1 < maxRetries ->
    exists outcome' post',
      post = Wait (baseDelay * 2 ^ i) :: Attempt (i + 1) outcome' :: post') /\
   (maxRetries <= i + 1 -> post = [] /\ result = inl (ThrownApi e))) /\
  baseDelay * 2 ^ (i + 1) = 2 * (baseDelay * 2 ^ i).
Proof.
  intros Hev. unfold retryRequest in *.
  pose proof (retry_loop_Run requestFn (default 3 maxRetries)
                (default 1000 baseDelay) 0 (ThrownVal JUndefined) st) as HR.
  destruct (Run_attempt _ _ _ _ _ _ HR _ _ _ _ Hev) as [Hi Hout].
  simpl in Hout. split; [|split].
  - intros Hs.
    replace ((ApiError.status e >=? 400) && (ApiError.status e <? 500))
      with true in Hout; [exact Hout|].
    symmetry. apply andb_true_iff. split; lia.
  - intros Hs.
    replace ((ApiError.status e >=? 400) && (ApiError.status e <? 500))
      with false in Hout; [exact Hout|].
    symmetry. apply andb_false_iff. lia.
  - apply (backoff_double (default 1000 baseDelay) i). lia.
Qed.

Lemma retryRequest_backoff_witness :
  let e := new_ApiError ERROR_MESSAGES.SERVER_ERROR 503 JNull in
  let post := [Wait 1000; Attempt 1 (inl (ThrownApi e)); Wait 2000; Attempt 2 (inr 200)] in
  snd (retryRequest flaky None None 0%nat) = [] ++ Attempt 0 (inl (ThrownApi e)) :: post /\
  (400 <= ApiError.status e < 500 ->
   post = [] /\ snd (fst (retryRequest flaky None None 0%nat)) = inl (ThrownApi e)) /\
  (500 <= ApiError.status e < 600 \/ ApiError.status e = 0 ->
   (0 + 1 < 3 ->
    exists outcome' post',
      post = Wait (1000 * 2 ^ 0) :: Attempt (0 + 1) outcome' :: post') /\
   (3 <= 0 + 1 ->
    post = [] /\ snd (fst (retryRequest flaky None None 0%nat)) = inl (ThrownApi e))) /\
  1000 * 2 ^ (0 + 1) = 2 * (1000 * 2 ^ 0).
Proof.
  intros e post. split; [reflexivity|].
  apply (retryRequest_backoff flaky None None 0%nat [] 0 e post). reflexivity.
Defined.



End RequestFacts.

(* ===================================================================== *)
(** * Further properties of [src/util/index.ts] *)
(* ===================================================================== *)

Module UtilMore.
Import Js Util Spec UtilFacts SpecMore.

(** ** [truncate] with a suffix that does not fit *)

Example truncate_long_suffix_ex : truncate "hello world" 2 None = "hello worl...".
Proof. reflexivity. Qed.

(** [text.slice(0, -d)] drops the last [d] characters. *)
Lemma str_slice_drop_last (text : string) (d : Z) :
  0 < d -> slen (str_slice text 0 (- d)) = Z.max (slen text - d) 0.
Proof.
  intros Hd. unfold str_slice, rel_index.
  replace (0 <? 0) with false by reflexivity.
  assert (Hlen : 0 <= slen text) by (unfold slen; lia).
  rewrite Z.min_l by lia.
  destruct (- d <? 0) eqn:Hneg; [|lia].
  destruct (0 >=? Z.max (slen text + - d) 0) eqn:Hz.
  - change (slen "") with 0. lia.
  - rewrite Z.sub_0_r. change (Z.to_nat 0) with 0%nat.
    unfold slen in *. rewrite substring_0_length by lia. lia.
Qed.

(** When the suffix is longer than [maxLength], a text longer than
    [maxLength] loses its last [suffix.length - maxLength] characters and
    gets the whole suffix: the result is longer than [maxLength]. *)
Theorem truncate_long_suffix (text : string) (maxLength : Z) (suffix : option string) :
  text <> "" -> slen text > maxLength ->
  slen (default "..." suffix) > maxLength ->
  let sfx := default "..." suffix in
  truncate text maxLength suffix = str_slice text 0 (maxLength - slen sfx) +:+ sfx /\
  slen (truncate text maxLength suffix) =
    Z.max (slen text - (slen sfx - maxLength)) 0 + slen sfx /\
  slen (truncate text maxLength suffix) > maxLength.
Proof.
  intros Hne Hlong Hsfx sfx. unfold truncate. fold sfx.
  apply truthy_str_spec in Hne. rewrite Hne. simpl negb. rewrite orb_false_l.
  destruct (slen text <=? maxLength) eqn:Hle; [lia|].
  split; [reflexivity|].
  replace (maxLength - slen sfx) with (- (slen sfx - maxLength)) by lia.
  rewrite slen_append, str_slice_drop_last by (subst sfx; lia).
  subst sfx. split; lia.
Qed.

Lemma truncate_long_suffix_witness :
  truncate "hello world" 2 None = str_slice "hello world" 0 (2 - 3) +:+ "..." /\
  slen (truncate "hello world" 2 None) = Z.max (11 - (3 - 2)) 0 + 3 /\
  slen (truncate "hello world" 2 None) > 2.
Proof.
  apply (truncate_long_suffix "hello world" 2 None).
  - discriminate.
  - vm_compute. reflexivity.
  - vm_compute. reflexivity.
Defined.

(** ** [chunk]: how many slices, and when it returns *)

Lemma ceil_div_step (len size : Z) :
  0 < size -> 0 < len ->
  (len + size - 1) / size = 1 + (Z.max (len - size) 0 + size - 1) / size.
Proof.
  intros Hs Hl. destruct (Z.le_gt_cases size len) as [Hge|Hlt].
  - rewrite Z.max_l by lia.
    replace (len + size - 1) with (len - size + size - 1 + 1 * size) by lia.
    rewrite Z.div_add by lia. lia.
  - rewrite Z.max_r by lia.
    replace (0 + size - 1) with (size - 1) by lia.
    rewrite (Z.div_small (size - 1)) by lia.
    symmetry. apply Z.div_unique with (r := len - 1); lia.
Qed.

Lemma chunk_loop_count {T} (fuel : nat) (a : list T) (size i : Z)
    (chunks cs : list (list T)) :
  0 < size -> 0 <= i ->
  chunk_loop fuel a size i chunks = Some cs ->
  Z.of_nat (length cs) =
    Z.of_nat (length chunks) + (Z.max (alen a - i) 0 + size - 1) / size.
Proof.
  intros Hs. revert i chunks.
  induction fuel as [|fuel IH]; intros i chunks Hi; simpl;
    destruct (i <? alen a) eqn:Hlt;
    try apply Z.ltb_lt in Hlt; try apply Z.ltb_ge in Hlt; intros Hrun;
    try discriminate.
  - injection Hrun as <-. rewrite Z.max_r by lia.
    rewrite Z.div_small by lia. lia.
  - apply IH in Hrun; [|lia]. rewrite Hrun, length_app. simpl.
    rewrite (Z.max_l (alen a - i)) by lia.
    rewrite (ceil_div_step (alen a - i) size) by lia.
    replace (alen a - (i + size)) with (alen a - i - size) by lia. lia.
  - injection Hrun as <-. rewrite Z.max_r by lia.
    rewrite Z.div_small by lia. lia.
Qed.

(** [chunk] returns [ceil(array.length / size)] slices. *)
Theorem chunk_count {T} (a : list T) (size : Z) (cs : list (list T)) :
  0 < size -> chunk a size = Some cs ->
  Z.of_nat (length cs) = (alen a + size - 1) / size.
Proof.
  intros Hs Hrun. unfold chunk in Hrun.
  apply chunk_loop_count in Hrun; [|lia|lia].
  rewrite Hrun. simpl. rewrite Z.sub_0_r, Z.max_l by (unfold alen; lia). lia.
Qed.

Lemma chunk_count_witness :
  0 < 2 /\ chunk [1; 2; 3; 4; 5] 2 = Some [[1; 2]; [3; 4]; [5]] /\
  Z.of_nat (length [[1; 2]; [3; 4]; [5]]) = (alen [1; 2; 3; 4; 5] + 2 - 1) / 2.
Proof.
  split; [lia|]. split; [reflexivity|].
  apply (chunk_count [1; 2; 3; 4; 5] 2); [lia|reflexivity].
Defined.

(** [chunk] fails to return exactly when the size is not positive and the
    array is not empty: the loop counter then never reaches the length. An
    empty array gives no slice, whatever the size. *)
Theorem chunk_returns_iff {T} (a : list T) (size : Z) :
  (chunk a size = None <-> size <= 0 /\ a <> []) /\
  (forall fuel chunks, size <= 0 -> a <> [] ->
     chunk_loop fuel a size 0 chunks = None) /\
  chunk (@nil T) size = Some [].
Proof.
  split; [|split].
  - split.
    + intros Hnone. destruct (Z.le_gt_cases size 0) as [Hle|Hgt].
      * split; [exact Hle|]. intros ->. discriminate Hnone.
      * unfold chunk in Hnone.
        destruct (chunk_loop_spec (length a) a size 0 [] ltac:(lia) ltac:(lia))
          as (cs & Hrun & _); [unfold alen; lia|].
        congruence.
    + intros [Hle Hne]. apply chunk_loop_diverges; [exact Hle|].
      unfold alen. destruct a; [congruence|simpl; lia].
  - intros fuel chunks Hle Hne. apply chunk_loop_diverges; [exact Hle|].
    unfold alen. destruct a; [congruence|simpl; lia].
  - reflexivity.
Qed.

Lemma chunk_returns_iff_witness :
  chunk [1; 2; 3] 0 = None /\ chunk [1; 2; 3] (-1) = None /\
  chunk_loop 1000 [1; 2; 3] 0 0 [] = None /\ chunk (@nil Z) 0 = Some [].
Proof.
  assert (Hne : [1; 2; 3] <> @nil Z) by discriminate.
  split; [apply (proj1 (chunk_returns_iff [1; 2; 3] 0)); split; [lia|exact Hne]|].
  split; [apply (proj1 (chunk_returns_iff [1; 2; 3] (-1))); split; [lia|exact Hne]|].
  split; [apply (proj1 (proj2 (chunk_returns_iff [1; 2; 3] 0))); [lia|exact Hne]|].
  exact (proj2 (proj2 (chunk_returns_iff (@nil Z) 0))).
Defined.

(** ** [unique] *)

Example unique_ex : unique [3; 1; 3; 2; 1] = [3; 1; 2].
Proof. reflexivity. Qed.

Section Unique.

Context {T : Type} `{EqDecision T}.

#[local] Abbreviation add_new :=
  (fun (seen : list T) (x : T) => if decide (x ∈ seen) then seen else seen ++ [x]).

(** The insertion loop of the [Set]: it only appends, keeps the sequence
    free of repetitions, and ends with everything it has seen. *)
Lemma unique_fold (seen array : list T) :
  NoDup seen ->
  exists rest,
    foldl add_new seen array = seen ++ rest /\
    NoDup (seen ++ rest) /\
    rest `sublist_of` array /\
    (forall x, x ∈ seen ++ rest <-> x ∈ seen \/ x ∈ array).
Proof.
  revert seen. induction array as [|y array IH]; intros seen Hnd; cbn [foldl].
  - exists []. rewrite app_nil_r. split; [reflexivity|]. split; [exact Hnd|].
    split; [reflexivity|]. intros x. rewrite elem_of_nil. tauto.
  - destruct (decide (y ∈ seen)) as [Hin|Hnin].
    + destruct (IH seen Hnd) as (rest & Hrun & Hnd' & Hsub & Hmem).
      exists rest. split; [exact Hrun|]. split; [exact Hnd'|].
      split; [apply sublist_cons; exact Hsub|].
      intros x. rewrite Hmem, elem_of_cons. split; [tauto|].
      intros [?|[->|?]]; tauto.
    + destruct (IH (seen ++ [y])) as (rest & Hrun & Hnd' & Hsub & Hmem).
      { apply NoDup_app. split; [exact Hnd|]. split; [|apply NoDup_singleton].
        intros x Hx Hy. apply list_elem_of_singleton in Hy. congruence. }
      exists (y :: rest). rewrite Hrun, <- app_assoc. simpl.
      rewrite <- app_assoc in Hnd'. simpl in Hnd'.
      split; [reflexivity|]. split; [exact Hnd'|].
      split; [apply sublist_skip; exact Hsub|].
      intros x. rewrite <- app_assoc in Hmem. simpl in Hmem.
      rewrite Hmem, elem_of_app, list_elem_of_singleton, elem_of_cons. tauto.
Qed.

Lemma unique_fold_NoDup (seen array : list T) :
  NoDup (seen ++ array) -> foldl add_new seen array = seen ++ array.
Proof.
  revert seen. induction array as [|y array IH]; intros seen Hnd; cbn [foldl].
  - rewrite app_nil_r. reflexivity.
  - apply NoDup_app in Hnd as Hparts. destruct Hparts as (_ & Hdisj & _).
    rewrite decide_False.
    + rewrite IH by (rewrite <- app_assoc; exact Hnd).
      rewrite <- app_assoc. reflexivity.
    + intros Hin. apply (Hdisj y Hin). apply elem_of_cons. left. reflexivity.
Qed.

(** [unique] returns the elements of the array, each once, in the order of
    their first occurrence: the result has no repetition, has exactly the
    elements of the array and is a subsequence of it, and an element stands
    where it first occurred, right after the distinct elements of what came
    before it. *)
Theorem unique_spec (array : list T) :
  NoDup (unique array) /\
  (forall x, x ∈ unique array <-> x ∈ array) /\
  unique array `sublist_of` array /\
  (forall before x after,
     array = before ++ x :: after -> x ∉ before ->
     exists rest, unique array = unique before ++ x :: rest).
Proof.
  assert (Hall : forall l : list T,
    NoDup (unique l) /\ (forall x, x ∈ unique l <-> x ∈ l) /\
    unique l `sublist_of` l).
  { intros l. unfold unique.
    destruct (unique_fold [] l (NoDup_nil_2)) as (rest & Hrun & Hnd & Hsub & Hmem).
    rewrite Hrun. simpl in *. split; [exact Hnd|]. split; [|exact Hsub].
    intros x. rewrite Hmem, elem_of_nil. tauto. }
  destruct (Hall array) as (Hnd & Hmem & Hsub).
  split; [exact Hnd|]. split; [exact Hmem|]. split; [exact Hsub|].
  intros before x after -> Hx.
  destruct (Hall before) as (Hnd_b & Hmem_b & _).
  assert (Hnew : x ∉ unique before) by (rewrite Hmem_b; exact Hx).
  unfold unique at 1. rewrite foldl_app. cbn [foldl]. fold (unique before).
  rewrite decide_False by exact Hnew.
  destruct (unique_fold (unique before ++ [x]) after) as (rest & Hrun & _).
  { apply NoDup_app. split; [exact Hnd_b|]. split; [|apply NoDup_singleton].
    intros y Hy Hyx. apply list_elem_of_singleton in Hyx. congruence. }
  exists rest. rewrite Hrun, <- app_assoc. reflexivity.
Qed.

(** An array without repetitions is returned as it is, so [unique] applied
    twice is [unique] applied once. *)
Theorem unique_idempotent (array : list T) :
  (NoDup array -> unique array = array) /\
  unique (unique array) = unique array.
Proof.
  assert (Hfix : forall l : list T, NoDup l -> unique l = l).
  { intros l Hl. unfold unique. apply (unique_fold_NoDup [] l). exact Hl. }
  split; [apply Hfix|]. apply Hfix.
  unfold unique.
  destruct (unique_fold [] array (NoDup_nil_2)) as (rest & Hrun & Hnd & _).
  rewrite Hrun. exact Hnd.
Qed.

End Unique.

Lemma unique_idempotent_witness :
  unique [3; 1; 2] = [3; 1; 2] /\
  unique (unique [3; 1; 3; 2; 1]) = unique [3; 1; 3; 2; 1].
Proof.
  split.
  - apply (proj1 (unique_idempotent [3; 1; 2])).
    repeat (apply NoDup_cons; split; [vm_compute; intros H; inversion H; subst;
      repeat match goal with H : _ ∈ _ |- _ => inversion H; clear H; subst end|]).
    apply NoDup_nil_2.
  - exact (proj2 (unique_idempotent [3; 1; 3; 2; 1])).
Defined.

(** ** [groupBy] *)

Example groupBy_ex :
  groupBy object_prototype fst [("a", 1); ("b", 2); ("a", 3)] =
  inr {[ "a" := [("a", 1); ("a", 3)]; "b" := [("b", 2)] ]}.
Proof. vm_compute. reflexivity. Qed.

Example groupBy_inherited_ex :
  groupBy object_prototype fst [("a", 1); ("constructor", 2); ("a", 3)] =
  inl (TypeError "result[groupKey].push is not a function").
Proof. vm_compute. reflexivity. Qed.

Section GroupByFacts.

Variable inherited : string -> bool.
Context {T : Type}.
Variable keyOf : T -> string.

#[local] Abbreviation step :=
  (fun (acc : JsError + gmap string (list T)) (item : T) =>
     match acc with
     | inr result => groupBy_step inherited keyOf result item
     | inl e => inl e
     end).

Lemma groupBy_step_own (result : gmap string (list T)) (item : T) :
  inherited (keyOf item) = false ->
  groupBy_step inherited keyOf result item =
  inr (<[keyOf item := default [] (result !! keyOf item) ++ [item]]> result).
Proof.
  intros Hitem. unfold groupBy_step. rewrite Hitem.
  destruct (result !! keyOf item); reflexivity.
Qed.

Lemma groupBy_step_inherited (result : gmap string (list T)) (item : T) :
  inherited (keyOf item) = true -> result !! keyOf item = None ->
  groupBy_step inherited keyOf result item =
  inl (TypeError "result[groupKey].push is not a function").
Proof. intros Hitem Hnone. unfold groupBy_step. rewrite Hitem, Hnone. reflexivity. Qed.

Lemma groupBy_fold (result : gmap string (list T)) (array : list T) :
  (forall item, item ∈ array -> inherited (keyOf item) = false) ->
  exists result',
    foldl step (inr result) array = inr result' /\
    forall k, result' !! k = extend (result !! k) (with_key keyOf k array).
Proof.
  revert result. induction array as [|item array IH]; intros result Hkeys;
    cbn [foldl].
  - exists result. split; [reflexivity|]. intros k. unfold with_key, extend.
    simpl. destruct (result !! k); [rewrite app_nil_r|]; reflexivity.
  - assert (Hitem : inherited (keyOf item) = false)
      by (apply Hkeys, elem_of_cons; left; reflexivity).
    assert (Hrest : forall x, x ∈ array -> inherited (keyOf x) = false)
      by (intros x Hx; apply Hkeys, elem_of_cons; right; exact Hx).
    rewrite (groupBy_step_own result item Hitem).
    destruct (IH (<[keyOf item := default [] (result !! keyOf item) ++ [item]]> result)
                Hrest) as (result' & Hrun & Hlook).
    exists result'. split; [exact Hrun|]. intros k. rewrite Hlook.
    unfold with_key. rewrite filter_cons.
    destruct (decide (keyOf item = k)) as [<-|Hne].
    + rewrite lookup_insert_eq. destruct (result !! keyOf item) as [group|]; simpl.
      * rewrite <- app_assoc. reflexivity.
      * reflexivity.
    + rewrite lookup_insert_ne by exact Hne. reflexivity.
Qed.

(** When no item has a key that object literals inherit, [groupBy] returns
    an object with one member per key that occurs: the items with that key,
    in the order of the array. There is no member for any other key. *)
Theorem groupBy_spec (array : list T) :
  (forall item, item ∈ array -> inherited (keyOf item) = false) ->
  exists result,
    groupBy inherited keyOf array = inr result /\
    forall k,
      result !! k =
      if decide (with_key keyOf k array = []) then None else Some (with_key keyOf k array).
Proof.
  intros Hkeys. unfold groupBy.
  destruct (groupBy_fold ∅ array Hkeys) as (result & Hrun & Hlook).
  exists result. split; [exact Hrun|]. intros k. rewrite Hlook, lookup_empty.
  unfold extend. destruct (with_key keyOf k array); reflexivity.
Qed.

Lemma groupBy_fold_thrown (e : JsError) (array : list T) :
  foldl step (inl e) array = inl e.
Proof. induction array as [|item array IH]; [reflexivity|exact IH]. Qed.

Lemma groupBy_fold_throws (result : gmap string (list T)) (array : list T) :
  (forall k, inherited k = true -> result !! k = None) ->
  (exists item, item ∈ array /\ inherited (keyOf item) = true) ->
  foldl step (inr result) array =
  inl (TypeError "result[groupKey].push is not a function").
Proof.
  revert result. induction array as [|item array IH]; intros result Hown Hex;
    cbn [foldl].
  - destruct Hex as (x & Hx & _). apply elem_of_nil in Hx. contradiction.
  - destruct (inherited (keyOf item)) eqn:Hitem.
    + rewrite (groupBy_step_inherited result item Hitem (Hown _ Hitem)).
      apply groupBy_fold_thrown.
    + rewrite (groupBy_step_own result item Hitem). apply IH.
      * intros k Hk. rewrite lookup_insert_ne by congruence. apply Hown, Hk.
      * destruct Hex as (x & Hx & Hinh). exists x. split; [|exact Hinh].
        apply elem_of_cons in Hx as [->|Hx]; [congruence|exact Hx].
Qed.

(** When some item has a key that object literals inherit (such as
    ["constructor"] or ["toString"]), [groupBy] throws a [TypeError]: the
    inherited value is taken for the group and has no [push]. *)
Theorem groupBy_inherited_key (array : list T) :
  (exists item, item ∈ array /\ inherited (keyOf item) = true) ->
  groupBy inherited keyOf array =
  inl (TypeError "result[groupKey].push is not a function").
Proof.
  intros Hex. unfold groupBy. apply groupBy_fold_throws; [|exact Hex].
  intros k _. apply lookup_empty.
Qed.

End GroupByFacts.

Lemma groupBy_spec_witness :
  let array := [("a", 1); ("b", 2); ("a", 3)] in
  (forall item, item ∈ array -> object_prototype (fst item) = false) /\
  exists result,
    groupBy object_prototype fst array = inr result /\
    forall k,
      result !! k =
      if decide (with_key fst k array = []) then None
      else Some (with_key fst k array).
Proof.
  intros array.
  assert (Hkeys : forall item, item ∈ array -> object_prototype (fst item) = false).
  { intros item Hin. subst array.
    repeat (apply elem_of_cons in Hin as [->|Hin]; [reflexivity|]).
    apply elem_of_nil in Hin. contradiction. }
  split; [exact Hkeys|].
  exact (groupBy_spec object_prototype fst array Hkeys).
Defined.

Lemma groupBy_inherited_key_witness :
  let array := [("a", 1); ("constructor", 2); ("a", 3)] in
  (exists item, item ∈ array /\ object_prototype (fst item) = true) /\
  groupBy object_prototype fst array =
  inl (TypeError "result[groupKey].push is not a function").
Proof.
  intros array.
  assert (Hex : exists item, item ∈ array /\ object_prototype (fst item) = true).
  { exists ("constructor", 2). split; [|reflexivity].
    subst array. apply elem_of_cons. right. apply elem_of_cons. left. reflexivity. }
  split; [exact Hex|].
  exact (groupBy_inherited_key object_prototype fst array Hex).
Defined.

(** ** [pick], and [pick] with [omit] *)

Example pick_inherited_ex :
  let o : Obj Z := {[ "id" := 1; "name" := 3 ]} in
  pick {[ "toString" := 0 ]} 1%positive ["name"; "toString"; "__proto__"]
    {[ 1%positive := o ]} =
  Some (2%positive,
        {[ 1%positive := o; 2%positive := {[ "name" := 3; "toString" := 0 ]} ]}).
Proof. vm_compute. reflexivity. Qed.

Section PickFacts.

Context {V : Type}.
Variable inherited : gmap string V.

Lemma picked_at_nil (o acc : Obj V) (k : string) : picked_at inherited o acc [] k = acc !! k.
Proof.
  unfold picked_at. rewrite decide_False; [reflexivity|].
  intros [Hin _]. apply elem_of_nil in Hin. exact Hin.
Qed.

Lemma picked_at_skip (o acc : Obj V) (key : string) (keys : list string) (k : string) :
  key = "__proto__" \/ read_prop inherited o key = None ->
  picked_at inherited o acc (key :: keys) k = picked_at inherited o acc keys k.
Proof.
  intros Hskip. unfold picked_at.
  destruct (decide (k ∈ keys /\ k <> "__proto__")) as [[Hin Hne]|Hno].
  - rewrite decide_True; [reflexivity|].
    split; [apply elem_of_cons; right; exact Hin|exact Hne].
  - destruct (decide (k ∈ key :: keys /\ k <> "__proto__")) as [[Hin Hne]|_];
      [|reflexivity].
    apply elem_of_cons in Hin. destruct Hin as [->|Hin];
      [|contradiction Hno; split; assumption].
    destruct Hskip as [-> | ->]; [contradiction Hne; reflexivity|reflexivity].
Qed.

Lemma picked_at_write (o acc : Obj V) (key : string) (keys : list string)
    (v : V) (k : string) :
  key <> "__proto__" -> read_prop inherited o key = Some v ->
  picked_at inherited o (<[key := v]> acc) keys k = picked_at inherited o acc (key :: keys) k.
Proof.
  intros Hkey Hread. unfold picked_at.
  destruct (decide (k = key)) as [->|Hne].
  - rewrite lookup_insert_eq, Hread.
    rewrite (decide_True (P := key ∈ key :: keys /\ key <> "__proto__"))
      by (split; [apply elem_of_cons; left; reflexivity|exact Hkey]).
    destruct (decide (key ∈ keys /\ key <> "__proto__")); reflexivity.
  - rewrite lookup_insert_ne by congruence.
    destruct (decide (k ∈ keys /\ k <> "__proto__")) as [[Hin Hk]|Hno].
    + rewrite decide_True; [reflexivity|].
      split; [apply elem_of_cons; right; exact Hin|exact Hk].
    + rewrite decide_False; [reflexivity|].
      intros [Hin Hk]. apply elem_of_cons in Hin. destruct Hin as [?|Hin];
        [contradiction|].
      apply Hno. split; assumption.
Qed.

(** The [forEach] of [pick] writes to the object at [result] only, and
    reads an object [obj] that it does not write to. *)
Lemma pick_fold (obj result : loc) (o : Obj V) (keys : list string)
    (h : Heap V) (acc : Obj V) :
  obj <> result -> h !! obj = Some o -> h !! result = Some acc ->
  let h' := foldl (fun h' key =>
                     match h' !! obj ≫= (fun o => read_prop inherited o key) with
                     | Some v => assign result key v h'
                     | None => h'
                     end) h keys in
  (exists r, h' !! result = Some r /\ forall k, r !! k = picked_at inherited o acc keys k) /\
  (forall l, l <> result -> h' !! l = h !! l).
Proof.
  intros Hneq. revert h acc.
  induction keys as [|key keys IH]; intros h acc Hobj Hres; cbn [foldl].
  - split; [|reflexivity].
    exists acc. split; [exact Hres|]. intros k. rewrite picked_at_nil. reflexivity.
  - rewrite Hobj. simpl. unfold assign.
    destruct (read_prop inherited o key) as [v|] eqn:Hread.
    + destruct (String.eqb_spec key "__proto__") as [Hproto|Hproto].
      * destruct (IH h acc Hobj Hres) as [(r & Hr & Hlook) Hframe].
        split; [|exact Hframe]. exists r. split; [exact Hr|].
        intros k. rewrite Hlook, picked_at_skip by (left; exact Hproto).
        reflexivity.
      * destruct (IH (set_prop result key v h) (<[key := v]> acc))
          as [(r & Hr & Hlook) Hframe].
        { unfold set_prop. rewrite lookup_alter_ne by congruence. exact Hobj. }
        { unfold set_prop. rewrite lookup_alter_eq, Hres. reflexivity. }
        split.
        -- exists r. split; [exact Hr|]. intros k.
           rewrite Hlook. apply picked_at_write; assumption.
        -- intros l Hl. rewrite Hframe by exact Hl. unfold set_prop.
           apply lookup_alter_ne. congruence.
    + destruct (IH h acc Hobj Hres) as [(r & Hr & Hlook) Hframe].
      split; [|exact Hframe]. exists r. split; [exact Hr|].
      intros k. rewrite Hlook, picked_at_skip by (right; exact Hread).
      reflexivity.
Qed.

Lemma pick_members (h : Heap V) (obj : loc) (o : Obj V) (keys : list string) :
  h !! obj = Some o ->
  exists h' r,
    pick inherited obj keys h = Some (fresh (dom h), h') /\
    h' !! fresh (dom h) = Some r /\
    (forall k, r !! k = if decide (k ∈ keys /\ k <> "__proto__")
                        then read_prop inherited o k else None) /\
    (forall l, l <> fresh (dom h) -> h' !! l = h !! l).
Proof.
  intros Hobj. unfold pick, alloc. rewrite Hobj. simpl.
  set (result := fresh (dom h)).
  assert (Hfresh : h !! result = None).
  { apply not_elem_of_dom. apply is_fresh. }
  assert (Hneq : obj <> result) by congruence.
  destruct (pick_fold obj result o keys (<[result := ∅]> h) ∅ Hneq)
    as [(r & Hr & Hlook) Hframe].
  { rewrite lookup_insert_ne by congruence. exact Hobj. }
  { apply lookup_insert_eq. }
  eexists _, r. split; [reflexivity|]. split; [exact Hr|]. split.
  - intros k. rewrite Hlook. unfold picked_at. rewrite lookup_empty.
    destruct (decide (k ∈ keys /\ k <> "__proto__"));
      [destruct (read_prop inherited o k)|]; reflexivity.
  - intros l Hl. rewrite Hframe by exact Hl. apply lookup_insert_ne. congruence.
Qed.


(** For the same keys, the results of [pick] and [omit] have no key in
    common. When [__proto__] is not listed and every listed key that [obj]
    does not own is not inherited either, they together hold exactly the
    members of [obj]. *)
Theorem pick_omit_partition (h : Heap V) (obj : loc) (o : Obj V)
    (keys : list string) :
  h !! obj = Some o ->
  exists picked hp rp omitted ho ro,
    pick inherited obj keys h = Some (picked, hp) /\ hp !! picked = Some rp /\
    omit obj keys h = Some (omitted, ho) /\ ho !! omitted = Some ro /\
    rp ##ₘ ro /\
    ("__proto__" ∉ keys ->
     (forall k, k ∈ keys -> o !! k = None -> inherited !! k = None) ->
     rp ∪ ro = o).
Proof.
  intros Hobj.
  destruct (pick_members h obj o keys Hobj) as (hp & rp & Hpick & Hrp & Hlook & _).
  exists (fresh (dom h)), hp, rp. unfold omit, alloc. rewrite Hobj. simpl.
  rewrite delete_props_heap.
  eexists _, _, (foldl (fun r' key => delete key r') o keys).
  split; [exact Hpick|]. split; [exact Hrp|]. split; [reflexivity|].
  split; [rewrite lookup_alter_eq, lookup_insert_eq; reflexivity|].
  split.
  - apply map_disjoint_spec. intros k x y Hx Hy.
    rewrite delete_keys_lookup in Hy.
    destruct (decide (k ∈ keys)) as [Hk|Hk]; [discriminate|].
    rewrite Hlook, decide_False in Hx; [discriminate|].
    intros [Hin _]. contradiction.
  - intros Hproto Hown. apply map_eq. intros k.
    rewrite lookup_union, delete_keys_lookup, Hlook.
    destruct (decide (k ∈ keys)) as [Hk|Hk].
    + rewrite decide_True.
      * unfold read_prop. destruct (o !! k) eqn:Hok; [reflexivity|].
        rewrite (Hown k Hk Hok). reflexivity.
      * split; [exact Hk|]. intros ->. contradiction.
    + rewrite decide_False; [destruct (o !! k); reflexivity|].
      intros [Hin _]. contradiction.
Qed.

End PickFacts.


Lemma pick_omit_partition_witness :
  let o : Obj Z := {[ "id" := 1; "password" := 2; "name" := 3 ]} in
  let h : Heap Z := {[ 1%positive := o ]} in
  let inherited : gmap string Z := {[ "toString" := 0 ]} in
  h !! 1%positive = Some o /\
  exists picked hp rp omitted ho ro,
    pick inherited 1%positive ["password"] h = Some (picked, hp) /\
    hp !! picked = Some rp /\
    omit 1%positive ["password"] h = Some (omitted, ho) /\
    ho !! omitted = Some ro /\
    rp ##ₘ ro /\ rp ∪ ro = o.
Proof.
  intros o h inherited.
  assert (Hobj : h !! 1%positive = Some o) by (apply lookup_singleton_eq).
  split; [exact Hobj|].
  destruct (pick_omit_partition inherited h 1%positive o ["password"] Hobj)
    as (picked & hp & rp & omitted & ho & ro & Hpick & Hrp & Homit & Hro & Hdisj & Hunion).
  exists picked, hp, rp, omitted, ho, ro.
  split; [exact Hpick|]. split; [exact Hrp|]. split; [exact Homit|].
  split; [exact Hro|]. split; [exact Hdisj|]. apply Hunion.
  - intros Hin. apply list_elem_of_singleton in Hin. discriminate Hin.
  - intros k Hk. apply list_elem_of_singleton in Hk. subst k.
    intros Hnone. vm_compute in Hnone. discriminate Hnone.
Defined.

(** ** The authentication data in the storage *)

Lemma saveAuthData_frame (token : string) (user : list (string * option string))
    (refreshToken : option string) (ls : Storage) (k : string) :
  k <> Config.STORAGE_KEYS.TOKEN -> k <> Config.STORAGE_KEYS.USER ->
  k <> Config.STORAGE_KEYS.REFRESH_TOKEN ->
  saveAuthData token user refreshToken ls !! k = ls !! k.
Proof.
  intros H1 H2 H3. unfold saveAuthData, setItem.
  destruct (truthy_opt refreshToken);
    rewrite !lookup_insert_ne by congruence; reflexivity.
Qed.

(** After [saveAuthData], the token read back is the one saved, and the
    user counts as authenticated exactly when that token is not empty; the
    user record is stored as JSON. A refresh token is stored when one is
    given and not empty; otherwise the entry is left alone, so a refresh
    token saved earlier stays. No other key is touched. *)
Theorem saveAuthData_spec (token : string) (user : list (string * option string))
    (refreshToken : option string) (ls : Storage) :
  let ls' := saveAuthData token user refreshToken ls in
  getAuthToken ls' = Some token /\
  (isAuthenticated ls' = true <-> token <> "") /\
  ls' !! Config.STORAGE_KEYS.USER = Some (JSON_stringify user) /\
  ls' !! Config.STORAGE_KEYS.REFRESH_TOKEN =
    (if truthy_opt refreshToken then refreshToken
     else ls !! Config.STORAGE_KEYS.REFRESH_TOKEN) /\
  (forall k, k <> Config.STORAGE_KEYS.TOKEN -> k <> Config.STORAGE_KEYS.USER ->
             k <> Config.STORAGE_KEYS.REFRESH_TOKEN -> ls' !! k = ls !! k).
Proof.
  unfold saveAuthData, isAuthenticated, getAuthToken, getItem, setItem.
  assert (Htok : forall m : Storage,
    (if truthy_opt refreshToken
     then <[Config.STORAGE_KEYS.REFRESH_TOKEN := to_string refreshToken]> m
     else m) !! Config.STORAGE_KEYS.TOKEN = m !! Config.STORAGE_KEYS.TOKEN).
  { intros m. destruct (truthy_opt refreshToken); [|reflexivity].
    apply lookup_insert_ne. discriminate. }
  cbv zeta. rewrite Htok, lookup_insert_ne, lookup_insert_eq by discriminate.
  split; [reflexivity|]. split; [apply truthy_str_spec|].
  destruct refreshToken as [rt|]; simpl.
  - destruct (truthy_str rt).
    + split; [rewrite lookup_insert_ne by discriminate; apply lookup_insert_eq|].
      split; [apply lookup_insert_eq|].
      intros k H1 H2 H3. rewrite !lookup_insert_ne by congruence. reflexivity.
    + split; [apply lookup_insert_eq|].
      split; [rewrite !lookup_insert_ne by discriminate; reflexivity|].
      intros k H1 H2 H3. rewrite !lookup_insert_ne by congruence. reflexivity.
  - split; [apply lookup_insert_eq|].
    split; [rewrite !lookup_insert_ne by discriminate; reflexivity|].
    intros k H1 H2 H3. rewrite !lookup_insert_ne by congruence. reflexivity.
Qed.

Lemma clearAuth_lookup (ls : Storage) (k : string) :
  clearAuth ls !! k =
  if decide (k ∈ [Config.STORAGE_KEYS.TOKEN; Config.STORAGE_KEYS.USER;
                  Config.STORAGE_KEYS.REFRESH_TOKEN])
  then None else ls !! k.
Proof.
  unfold clearAuth, removeItem.
  destruct (decide (k = Config.STORAGE_KEYS.REFRESH_TOKEN)) as [->|H3].
  { rewrite lookup_delete_eq. reflexivity. }
  rewrite lookup_delete_ne by congruence.
  destruct (decide (k = Config.STORAGE_KEYS.USER)) as [->|H2].
  { rewrite lookup_delete_eq. reflexivity. }
  rewrite lookup_delete_ne by congruence.
  destruct (decide (k = Config.STORAGE_KEYS.TOKEN)) as [->|H1].
  { rewrite lookup_delete_eq. reflexivity. }
  rewrite lookup_delete_ne by congruence.
  rewrite decide_False; [reflexivity|].
  intros Hin. repeat (apply elem_of_cons in Hin as [?|Hin]; [congruence|]).
  apply elem_of_nil in Hin. exact Hin.
Qed.

(** After [clearAuth] the user is not authenticated and there is no
    current user, whatever [JSON.parse] does; every other key of the
    storage keeps its value; and clearing after saving leaves what clearing
    alone leaves. *)
Theorem clearAuth_spec (JSON_parse : string -> JsError + JsVal) (ls : Storage) :
  isAuthenticated (clearAuth ls) = false /\
  getAuthToken (clearAuth ls) = None /\
  getCurrentUser JSON_parse (clearAuth ls) = JNull /\
  (forall k, k <> Config.STORAGE_KEYS.TOKEN -> k <> Config.STORAGE_KEYS.USER ->
             k <> Config.STORAGE_KEYS.REFRESH_TOKEN ->
             clearAuth ls !! k = ls !! k) /\
  (forall token user refreshToken,
     clearAuth (saveAuthData token user refreshToken ls) = clearAuth ls).
Proof.
  unfold isAuthenticated, getAuthToken, getCurrentUser, getItem.
  rewrite !clearAuth_lookup. simpl.
  split; [reflexivity|]. split; [reflexivity|]. split; [reflexivity|].
  split.
  - intros k H1 H2 H3. rewrite clearAuth_lookup, decide_False; [reflexivity|].
    intros Hin. repeat (apply elem_of_cons in Hin as [?|Hin]; [congruence|]).
    apply elem_of_nil in Hin. exact Hin.
  - intros token user refreshToken. apply map_eq. intros k.
    rewrite !clearAuth_lookup. case_decide as Hk; [reflexivity|].
    apply saveAuthData_frame.
    all: intros ->; apply Hk.
    + apply elem_of_cons; left; reflexivity.
    + apply elem_of_cons; right; apply elem_of_cons; left; reflexivity.
    + do 2 (apply elem_of_cons; right). apply elem_of_cons; left; reflexivity.
Qed.

(** ** [getRelativeTime] *)

Example getRelativeTime_ex1 : getRelativeTime 7200000 0 = "2 hours ago".
Proof. reflexivity. Qed.

Example getRelativeTime_ex2 : getRelativeTime 0 7200000 = "just now".
Proof. reflexivity. Qed.

(** [getRelativeTime] counts in the largest unit that fits at least once
    into the whole seconds elapsed (a year is 365 days, a month 30 days),
    rounding down; under one minute, and for a date in the future, the
    answer is ["just now"]. *)
Theorem getRelativeTime_spec (now d : Z) :
  let seconds := (now - d) / 1000 in
  (seconds < 60 -> getRelativeTime now d = "just now") /\
  (60 <= seconds < 3600 -> getRelativeTime now d = ago (seconds / 60) "minute") /\
  (3600 <= seconds < 86400 -> getRelativeTime now d = ago (seconds / 3600) "hour") /\
  (86400 <= seconds < 604800 -> getRelativeTime now d = ago (seconds / 86400) "day") /\
  (604800 <= seconds < 2592000 ->
   getRelativeTime now d = ago (seconds / 604800) "week") /\
  (2592000 <= seconds < 31536000 ->
   getRelativeTime now d = ago (seconds / 2592000) "month") /\
  (31536000 <= seconds -> getRelativeTime now d = ago (seconds / 31536000) "year").
Proof.
  intros seconds. unfold getRelativeTime. fold seconds. generalize seconds.
  clear. intros s.
  assert (Hlt : forall u, 0 < u -> s < u -> (s / u >=? 1) = false).
  { intros u Hu Hs. rewrite Z.geb_leb. apply Z.leb_gt.
    assert (s / u < 1) by (apply Z.div_lt_upper_bound; lia). lia. }
  assert (Hge : forall u, 0 < u -> u <= s -> (s / u >=? 1) = true).
  { intros u Hu Hs. rewrite Z.geb_leb. apply Z.leb_le.
    apply Z.div_le_lower_bound; lia. }
  unfold intervals, relative_loop, ago.
  repeat split; intros Hs;
    repeat first [ rewrite Hlt by lia | rewrite Hge by lia ]; reflexivity.
Qed.

Lemma getRelativeTime_spec_witness :
  getRelativeTime 1000000 990000 = "just now" /\
  getRelativeTime 1000000 0 = ago (1000 / 60) "minute" /\
  getRelativeTime 40000000000 0 = ago (40000000 / 31536000) "year".
Proof.
  split; [apply (proj1 (getRelativeTime_spec 1000000 990000)); vm_compute; reflexivity|].
  split.
  - apply (proj1 (proj2 (getRelativeTime_spec 1000000 0))).
    vm_compute. split; [discriminate|reflexivity].
  - apply (proj2 (proj2 (proj2 (proj2 (proj2 (proj2
             (getRelativeTime_spec 40000000000 0))))))).
    vm_compute. discriminate.
Defined.

(** ** [hexToRgb] and [randomColor] *)

Example hexToRgb_ex1 : hexToRgb "#2563EB" = Some {| r := 37; g := 99; b := 235 |}.
Proof. reflexivity. Qed.

Example hexToRgb_ex2 : hexToRgb "10b981" = Some {| r := 16; g := 185; b := 129 |}.
Proof. reflexivity. Qed.

Example hexToRgb_short : hexToRgb "#fff" = None.
Proof. reflexivity. Qed.

Example randomColor_short : randomColor 65535 = "#ffff".
Proof. reflexivity. Qed.

Lemma hex_value_bound (c : ascii) (v : Z) : hex_value c = Some v -> 0 <= v < 16.
Proof.
  unfold hex_value. intros H.
  repeat match type of H with
         | (if ?c then _ else _) = _ => destruct c eqn:?
         end; inversion H; subst; lia.
Qed.

Lemma parse_hex2_bound (c1 c2 : ascii) (v : Z) :
  parse_hex2 c1 c2 = Some v -> 0 <= v <= 255.
Proof.
  unfold parse_hex2. intros H.
  destruct (hex_value c1) as [hi|] eqn:H1; [|discriminate].
  destruct (hex_value c2) as [lo|] eqn:H2; [|discriminate].
  simpl in H. injection H as <-.
  apply hex_value_bound in H1. apply hex_value_bound in H2. lia.
Qed.

(** What the pattern of [hexToRgb] matches: six characters after an
    optional [#]. *)
Lemma hexToRgb_digits (hex : string) (rgb : RGB) :
  hexToRgb hex = Some rgb ->
  exists c1 c2 c3 c4 c5 c6,
    let digits := String c1 (String c2 (String c3 (String c4 (String c5 (String c6 ""))))) in
    (hex = digits \/ hex = String "#"%char digits) /\
    parse_hex2 c1 c2 = Some (r rgb) /\
    parse_hex2 c3 c4 = Some (g rgb) /\
    parse_hex2 c5 c6 = Some (b rgb).
Proof.
  unfold hexToRgb. intros H.
  set (digits := match hex with String "#"%char rest => rest | _ => hex end) in *.
  assert (Hhex : hex = digits \/ hex = String "#"%char digits).
  { subst digits. destruct hex as [|c rest]; [left; reflexivity|].
    destruct (ascii_dec c "#"%char) as [->|Hc]; [right; reflexivity|].
    left. destruct c as [[] [] [] [] [] [] [] []]; try reflexivity.
    contradiction Hc. reflexivity. }
  clearbody digits.
  destruct digits as [|c1 [|c2 [|c3 [|c4 [|c5 [|c6 [|c7 rest]]]]]]];
    try discriminate.
  exists c1, c2, c3, c4, c5, c6. cbv zeta. split; [exact Hhex|].
  destruct (parse_hex2 c1 c2) as [r0|]; [|discriminate].
  destruct (parse_hex2 c3 c4) as [g0|]; [|discriminate].
  destruct (parse_hex2 c5 c6) as [b0|]; [|discriminate].
  simpl in H. injection H as <-. simpl. repeat split; reflexivity.
Qed.

Lemma hex_value_hexadecimal (c : ascii) (v : Z) :
  hex_value c = Some v <-> hexadecimal c v.
Proof.
  split.
  - intros H. pose proof (hex_value_bound c v H) as Hv. split; [exact Hv|].
    destruct c as [[] [] [] [] [] [] [] []]; vm_compute in H;
      try discriminate H; injection H as <-;
      first [left; reflexivity | right; reflexivity].
  - intros [Hv Hc].
    assert (Hcases : v = 0 \/ v = 1 \/ v = 2 \/ v = 3 \/ v = 4 \/ v = 5 \/ v = 6 \/
                     v = 7 \/ v = 8 \/ v = 9 \/ v = 10 \/ v = 11 \/ v = 12 \/
                     v = 13 \/ v = 14 \/ v = 15) by lia.
    repeat (destruct Hcases as [-> | Hcases]);
      try subst v; destruct Hc as [Hc|Hc]; vm_compute in Hc;
      injection Hc as <-; reflexivity.
Qed.

Lemma parse_hex2_values (c1 c2 : ascii) (v : Z) :
  parse_hex2 c1 c2 = Some v <->
  exists v1 v2, hex_value c1 = Some v1 /\ hex_value c2 = Some v2 /\ v = 16 * v1 + v2.
Proof.
  unfold parse_hex2. split.
  - intros H. destruct (hex_value c1) as [hi|]; [|discriminate].
    destruct (hex_value c2) as [lo|]; [|discriminate].
    simpl in H. injection H as <-. exists hi, lo. repeat split; reflexivity.
  - intros (v1 & v2 & -> & -> & ->). reflexivity.
Qed.

(** On six characters after an optional [#], [hexToRgb] reads the three
    groups. *)
Lemma hexToRgb_six (hex : string) (c1 c2 c3 c4 c5 c6 : ascii) :
  let digits := String c1 (String c2 (String c3 (String c4 (String c5 (String c6 ""))))) in
  hex = digits \/ hex = String "#"%char digits ->
  hexToRgb hex =
  (r ← parse_hex2 c1 c2; g ← parse_hex2 c3 c4; b ← parse_hex2 c5 c6;
   Some {| r := r; g := g; b := b |}).
Proof.
  cbv zeta. intros [-> | ->]; [|reflexivity].
  destruct c1 as [[] [] [] [] [] [] [] []]; reflexivity.
Qed.

(** [hexToRgb] answers exactly for six hexadecimal digits ([0-9], [a-f],
    [A-F]) with an optional leading [#], so not for the three-digit short
    form; each component of the answer is sixteen times its first digit
    plus its second, a number between 0 and 255. *)
Theorem hexToRgb_spec (hex : string) (rgb : RGB) :
  (hexToRgb hex = Some rgb <->
   exists c1 c2 c3 c4 c5 c6 v1 v2 v3 v4 v5 v6,
     let digits :=
       String c1 (String c2 (String c3 (String c4 (String c5 (String c6 ""))))) in
     (hex = digits \/ hex = String "#"%char digits) /\
     hexadecimal c1 v1 /\ hexadecimal c2 v2 /\ hexadecimal c3 v3 /\
     hexadecimal c4 v4 /\ hexadecimal c5 v5 /\ hexadecimal c6 v6 /\
     rgb = {| r := 16 * v1 + v2; g := 16 * v3 + v4; b := 16 * v5 + v6 |}) /\
  (hexToRgb hex = Some rgb ->
   0 <= r rgb <= 255 /\ 0 <= g rgb <= 255 /\ 0 <= b rgb <= 255).
Proof.
  split; [split|].
  - intros H. destruct (hexToRgb_digits hex rgb H)
      as (c1 & c2 & c3 & c4 & c5 & c6 & Hhex & Hr & Hg & Hb).
    apply parse_hex2_values in Hr as (v1 & v2 & H1 & H2 & Hr).
    apply parse_hex2_values in Hg as (v3 & v4 & H3 & H4 & Hg).
    apply parse_hex2_values in Hb as (v5 & v6 & H5 & H6 & Hb).
    exists c1, c2, c3, c4, c5, c6, v1, v2, v3, v4, v5, v6. cbv zeta.
    split; [exact Hhex|].
    repeat (split; [apply hex_value_hexadecimal; assumption|]).
    destruct rgb as [r0 g0 b0]. simpl in Hr, Hg, Hb. subst. reflexivity.
  - intros (c1 & c2 & c3 & c4 & c5 & c6 & v1 & v2 & v3 & v4 & v5 & v6 & Hhex &
            H1 & H2 & H3 & H4 & H5 & H6 & ->).
    apply hex_value_hexadecimal in H1, H2, H3, H4, H5, H6.
    rewrite (hexToRgb_six hex c1 c2 c3 c4 c5 c6 Hhex).
    unfold parse_hex2. rewrite H1, H2, H3, H4, H5, H6. reflexivity.
  - intros H. destruct (hexToRgb_digits hex rgb H)
      as (c1 & c2 & c3 & c4 & c5 & c6 & _ & Hr & Hg & Hb).
    apply parse_hex2_bound in Hr. apply parse_hex2_bound in Hg.
    apply parse_hex2_bound in Hb. lia.
Qed.

Lemma hexToRgb_spec_witness :
  hexToRgb "#2563EB" = Some {| r := 37; g := 99; b := 235 |} /\
  hexToRgb "#ggg000" = None.
Proof.
  split.
  - apply (proj2 (proj1 (hexToRgb_spec "#2563EB" {| r := 37; g := 99; b := 235 |}))).
    exists "2"%char, "5"%char, "6"%char, "3"%char, "E"%char, "B"%char,
      2, 5, 6, 3, 14, 11.
    cbv zeta. split; [right; reflexivity|].
    repeat (split; [split; [lia|first [left; reflexivity | right; reflexivity]]|]).
    reflexivity.
  - destruct (hexToRgb "#ggg000") as [rgb|] eqn:H; [|reflexivity].
    exfalso.
    destruct (proj1 (proj1 (hexToRgb_spec "#ggg000" rgb)) H)
      as (c1 & c2 & c3 & c4 & c5 & c6 & v1 & v2 & v3 & v4 & v5 & v6 & Hhex &
          (Hv & Hc) & _).
    cbv zeta in Hhex. destruct Hhex as [Hhex|Hhex]; [discriminate Hhex|].
    injection Hhex as <- _ _ _ _ _.
    assert (Hcases : v1 = 0 \/ v1 = 1 \/ v1 = 2 \/ v1 = 3 \/ v1 = 4 \/ v1 = 5 \/
                     v1 = 6 \/ v1 = 7 \/ v1 = 8 \/ v1 = 9 \/ v1 = 10 \/ v1 = 11 \/
                     v1 = 12 \/ v1 = 13 \/ v1 = 14 \/ v1 = 15) by lia.
    repeat (destruct Hcases as [-> | Hcases]);
      try subst v1; destruct Hc as [Hc|Hc]; vm_compute in Hc; discriminate Hc.
Defined.

Lemma to_hex_unfold (n : Z) :
  to_hex n =
  if decide (n < 16) then String (hex_digit (Z.to_N n)) ""
  else to_hex (n / 16) +:+ String (hex_digit (Z.to_N (n mod 16))) "".
Proof.
  rewrite to_hex_equation_1.
  destruct (Z_lt_dec n 16) as [Hlt|Hge]; cbn [to_hex_unfold_clause_1].
  - rewrite decide_True by exact Hlt. reflexivity.
  - rewrite decide_False by exact Hge. reflexivity.
Qed.

Lemma hex_value_digit (x : Z) :
  0 <= x < 16 -> hex_value (hex_digit (Z.to_N x)) = Some x.
Proof.
  intros Hx.
  assert (Hcases : x = 0 \/ x = 1 \/ x = 2 \/ x = 3 \/ x = 4 \/ x = 5 \/ x = 6 \/
                   x = 7 \/ x = 8 \/ x = 9 \/ x = 10 \/ x = 11 \/ x = 12 \/
                   x = 13 \/ x = 14 \/ x = 15) by lia.
  repeat (destruct Hcases as [->|Hcases]; [reflexivity|]). subst x. reflexivity.
Qed.

(** The number of digits of [n.toString(16)]. *)
Lemma to_hex_length (d : nat) (n : Z) :
  0 <= n < 16 ^ Z.of_nat (S d) -> (String.length (to_hex n) <= S d)%nat.
Proof.
  revert n. induction d as [|d IH]; intros n Hn; rewrite to_hex_unfold.
  - rewrite decide_True by (change (16 ^ Z.of_nat 1) with 16 in Hn; lia).
    simpl. lia.
  - case_decide as Hlt; [simpl; lia|].
    assert (Hlen : forall s c, String.length (s +:+ String c "") = S (String.length s)).
    { intros s c. induction s as [|c' s IHs]; [reflexivity|].
      rewrite append_cons. simpl. rewrite IHs. reflexivity. }
    rewrite Hlen. apply le_n_S, IH. split; [apply Z.div_pos; lia|].
    apply Z.div_lt_upper_bound; [lia|].
    rewrite <- Z.pow_succ_r by lia. rewrite <- Nat2Z.inj_succ. lia.
Qed.

(** The six digits of a number with six hexadecimal digits. *)
Lemma to_hex_six (n : Z) :
  16 ^ 5 <= n < 16 ^ 6 ->
  to_hex n =
  String (hex_digit (Z.to_N (n / 16 / 16 / 16 / 16 / 16)))
   (String (hex_digit (Z.to_N (n / 16 / 16 / 16 / 16 mod 16)))
    (String (hex_digit (Z.to_N (n / 16 / 16 / 16 mod 16)))
     (String (hex_digit (Z.to_N (n / 16 / 16 mod 16)))
      (String (hex_digit (Z.to_N (n / 16 mod 16)))
       (String (hex_digit (Z.to_N (n mod 16))) ""))))).
Proof.
  intros Hn. change (16 ^ 5) with 1048576 in Hn. change (16 ^ 6) with 16777216 in Hn.
  rewrite (to_hex_unfold n), decide_False by lia.
  rewrite (to_hex_unfold (n / 16)), decide_False
    by (Z.div_mod_to_equations; lia).
  rewrite (to_hex_unfold (n / 16 / 16)), decide_False
    by (Z.div_mod_to_equations; lia).
  rewrite (to_hex_unfold (n / 16 / 16 / 16)), decide_False
    by (Z.div_mod_to_equations; lia).
  rewrite (to_hex_unfold (n / 16 / 16 / 16 / 16)), decide_False
    by (Z.div_mod_to_equations; lia).
  rewrite (to_hex_unfold (n / 16 / 16 / 16 / 16 / 16)), decide_True
    by (Z.div_mod_to_equations; lia).
  reflexivity.
Qed.

(** [randomColor] does not pad its digits. A draw below [16^5] (one in
    sixteen) gives fewer than six digits, which [hexToRgb] rejects; any
    other draw gives a colour that [hexToRgb] reads back, with the draw as
    the number [r * 65536 + g * 256 + b]. *)
Theorem randomColor_hexToRgb (drawn : Z) :
  (0 <= drawn < 16 ^ 5 -> hexToRgb (randomColor drawn) = None) /\
  (16 ^ 5 <= drawn < 16 ^ 6 ->
   hexToRgb (randomColor drawn) =
   Some {| r := drawn / 65536; g := drawn / 256 mod 256; b := drawn mod 256 |}).
Proof.
  unfold randomColor. change ("#" +:+ to_hex drawn) with (String "#"%char (to_hex drawn)).
  split; intros Hd.
  - pose proof (to_hex_length 4 drawn Hd) as Hlen.
    unfold hexToRgb.
    destruct (to_hex drawn) as [|c1 [|c2 [|c3 [|c4 [|c5 [|c6 [|c7 rest]]]]]]];
      try reflexivity; simpl in Hlen; lia.
  - rewrite (to_hex_six drawn Hd). unfold hexToRgb, parse_hex2.
    change (16 ^ 5) with 1048576 in Hd. change (16 ^ 6) with 16777216 in Hd.
    rewrite !hex_value_digit by (Z.div_mod_to_equations; lia).
    simpl. f_equal. f_equal; Z.div_mod_to_equations; lia.
Qed.

Lemma randomColor_hexToRgb_witness :
  hexToRgb (randomColor 65535) = None /\
  hexToRgb (randomColor 2450411) =
  Some {| r := 2450411 / 65536; g := 2450411 / 256 mod 256; b := 2450411 mod 256 |}.
Proof.
  split.
  - apply (proj1 (randomColor_hexToRgb 65535)). vm_compute. split; discriminate || reflexivity.
  - apply (proj2 (randomColor_hexToRgb 2450411)). vm_compute. split; discriminate || reflexivity.
Defined.

End UtilMore.

(* ===================================================================== *)
(** * Further properties of the pages *)
(* ===================================================================== *)

Module PagesMore.
Import Js Util Pages PagesFacts.

(** ** The mock registration *)

Example registerApi_short_password :
  snd (Register.registerApi "Ada" "ada@company.com" "abc") =
  {| ok := false; token := None; name := None;
     error := Some "Invalid registration details" |}.
Proof. reflexivity. Qed.

(** [registerApi] waits for one timer of 500 ms and then accepts exactly
    the inputs whose email contains an [@] and whose password has at least
    four characters; the name is not looked at and comes back as given. *)
Theorem registerApi_spec (name email password : string) :
  fst (Register.registerApi name email password) = [500] /\
  (includes email "@" = true /\ 4 <= slen password ->
   snd (Register.registerApi name email password) =
     {| ok := true; token := Some "demo-token-456";
        Pages.name := Some name; error := None |}) /\
  (includes email "@" = false \/ slen password < 4 ->
   snd (Register.registerApi name email password) =
     {| ok := false; token := None; Pages.name := None;
        error := Some "Invalid registration details" |}).
Proof.
  unfold Register.registerApi, await, sleep, resolve.
  destruct (includes email "@") eqn:Hat;
    destruct (slen password >=? 4) eqn:Hlen; simpl;
    (split; [reflexivity|]); split; intros H;
    try reflexivity; try (destruct H; try discriminate; lia).
Qed.

Lemma registerApi_spec_witness :
  snd (Register.registerApi "" "a@b" "1234") =
    {| ok := true; token := Some "demo-token-456";
       Pages.name := Some ""; error := None |} /\
  snd (Register.registerApi "Ada" "ada.company.com" "s3cret") =
    {| ok := false; token := None; Pages.name := None;
       error := Some "Invalid registration details" |}.
Proof.
  split.
  - apply (proj1 (proj2 (registerApi_spec "" "a@b" "1234"))).
    split; [reflexivity|vm_compute; discriminate].
  - apply (proj2 (proj2 (registerApi_spec "Ada" "ada.company.com" "s3cret"))).
    left. reflexivity.
Defined.

(** ** A submission that fails *)

(** When the mock API refuses, [handleSubmit] touches neither the storage
    nor the location: the browser is as before, the form is no longer
    loading and shows the error of the API. This holds for the login page
    and for the registration page. *)
Theorem failed_submit_leaves_browser :
  (forall (st : Login.State) (b : Browser),
     ok (snd (Login.loginApi (Login.email st) (Login.password st))) = false ->
     let out := snd (Login.handleSubmit st b) in
     snd out = b /\ Login.loading (fst out) = false /\
     Login.error_ (fst out) = "Invalid email or password") /\
  (forall (st : Register.State) (b : Browser),
     ok (snd (Register.registerApi (Register.name st) (Register.email st)
                (Register.password st))) = false ->
     let out := snd (Register.handleSubmit st b) in
     snd out = b /\ Register.loading (fst out) = false /\
     Register.error_ (fst out) = "Invalid registration details").
Proof.
  split.
  - intros st b. unfold Login.handleSubmit, Login.loginApi, await, sleep, resolve.
    simpl. destruct (_ && _); simpl; [discriminate|].
    intros _. repeat split; reflexivity.
  - intros st b.
    unfold Register.handleSubmit, Register.registerApi, await, sleep, resolve.
    simpl. destruct (_ && _); simpl; [discriminate|].
    intros _. repeat split; reflexivity.
Qed.

Lemma failed_submit_leaves_browser_witness :
  let st := {| Login.email := "user@company.com"; Login.password := "wrong";
               Login.loading := false; Login.error_ := "" |} in
  let rt := {| Register.name := "Ada"; Register.email := "ada";
               Register.password := "s3cret"; Register.loading := false;
               Register.error_ := "" |} in
  let b := {| localStorage := {[ "app_theme" := "dark" ]}; location := "/login" |} in
  (snd (snd (Login.handleSubmit st b)) = b /\
   Login.loading (fst (snd (Login.handleSubmit st b))) = false /\
   Login.error_ (fst (snd (Login.handleSubmit st b))) = "Invalid email or password") /\
  (snd (snd (Register.handleSubmit rt b)) = b /\
   Register.loading (fst (snd (Register.handleSubmit rt b))) = false /\
   Register.error_ (fst (snd (Register.handleSubmit rt b))) =
     "Invalid registration details").
Proof.
  intros st rt b. destruct failed_submit_leaves_browser as [Hlogin Hregister].
  split; [apply (Hlogin st b); reflexivity|apply (Hregister rt b); reflexivity].
Defined.

(** ** The dashboard guard and the session *)

Section MountFacts.

Variable JSON_parse : string -> JsError + JsVal.

(** When it does not throw, the effect of the dashboard never writes to
    the storage, and it sends the browser to [/login] exactly when
    [isAuthenticated] is false; otherwise the location stays. It throws
    only for an authenticated user whose stored record is not JSON. *)
Theorem mount_guard (user : JsVal) (b : Browser) :
  (forall user' b', Dashboard.mount JSON_parse user b = inr (user', b') ->
     localStorage b' = localStorage b /\
     (isAuthenticated (localStorage b) = false ->
      location b' = "/login" /\ user' = user) /\
     (isAuthenticated (localStorage b) = true -> location b' = location b)) /\
  (forall e, Dashboard.mount JSON_parse user b = inl e ->
     isAuthenticated (localStorage b) = true /\
     exists text, localStorage b !! Config.STORAGE_KEYS.USER = Some text /\
                  JSON_parse text = inl e).
Proof.
  unfold Dashboard.mount, isAuthenticated, getItem.
  change Config.STORAGE_KEYS.TOKEN with "company_token".
  change Config.STORAGE_KEYS.USER with "company_user".
  destruct (truthy_opt (localStorage b !! "company_token")); simpl.
  - destruct (localStorage b !! "company_user") as [text|]; simpl.
    + destruct (truthy_str text); [|split; [|discriminate]].
      * destruct (JSON_parse text) as [e|parsed] eqn:Hparse; split;
          try discriminate.
        -- intros e' [= <-]. split; [reflexivity|]. exists text. auto.
        -- intros user' b' [= <- <-]. split; [reflexivity|].
           split; [discriminate|reflexivity].
      * intros user' b' [= <- <-]. split; [reflexivity|].
        split; [discriminate|reflexivity].
    + split; [|discriminate]. intros user' b' [= <- <-].
      split; [reflexivity|]. split; [discriminate|reflexivity].
  - split; [|discriminate]. intros user' b' [= <- <-].
    split; [reflexivity|]. split; [auto|discriminate].
Qed.

Lemma login_browser (st : Login.State) (b : Browser) :
  ok (snd (Login.loginApi (Login.email st) (Login.password st))) = true ->
  localStorage (snd (snd (Login.handleSubmit st b))) =
    setItem "company_user"
      (JSON_stringify [("name", Some "Demo User"); ("email", Some (Login.email st))])
      (setItem "company_token" "demo-token-123" (localStorage b)) /\
  location (snd (snd (Login.handleSubmit st b))) = "/dashboard".
Proof.
  intros Hok. pose proof (loginApi_ok _ _ Hok) as Hres.
  unfold Login.handleSubmit, await. simpl Login.email. simpl Login.password.
  destruct (Login.loginApi (Login.email st) (Login.password st)) as [d res].
  simpl in Hres. subst res. split; reflexivity.
Qed.

(** A session from login to logout. After a successful login the user is
    authenticated and the dashboard, when it reads the stored record,
    stays on [/dashboard]; after [handleLogout] the user is no longer
    authenticated and mounting the dashboard again leads to [/login]. The
    logout removes the token and the user record only: every other key,
    [company_refresh_token] included, keeps its value. *)
Theorem session_flow (st : Login.State) (b : Browser) :
  ok (snd (Login.loginApi (Login.email st) (Login.password st))) = true ->
  let b1 := snd (snd (Login.handleSubmit st b)) in
  let b2 := Pages.Dashboard.handleLogout b1 in
  isAuthenticated (localStorage b1) = true /\
  (forall user parsed,
     JSON_parse (JSON_stringify [("name", Some "Demo User");
                                 ("email", Some (Login.email st))]) = inr parsed ->
     Dashboard.mount JSON_parse user b1 = inr (parsed, b1)) /\
  location b1 = "/dashboard" /\
  isAuthenticated (localStorage b2) = false /\
  (forall user, Dashboard.mount JSON_parse user b2 = inr (user, b2)) /\
  location b2 = "/login" /\
  (forall k, k <> Config.STORAGE_KEYS.TOKEN -> k <> Config.STORAGE_KEYS.USER ->
     localStorage b2 !! k = localStorage b !! k).
Proof.
  intros Hok b1 b2.
  destruct (login_browser st b Hok) as [Hls1 Hloc1].
  fold b1 in Hls1, Hloc1.
  assert (Htok1 : localStorage b1 !! "company_token" = Some "demo-token-123").
  { rewrite Hls1. unfold setItem. rewrite lookup_insert_ne by discriminate.
    apply lookup_insert_eq. }
  assert (Husr1 : localStorage b1 !! "company_user" =
            Some (JSON_stringify [("name", Some "Demo User");
                                  ("email", Some (Login.email st))])).
  { rewrite Hls1. apply lookup_insert_eq. }
  assert (Hls2 : localStorage b2 =
            removeItem "company_user" (removeItem "company_token" (localStorage b1)))
    by reflexivity.
  assert (Htok2 : localStorage b2 !! "company_token" = None).
  { rewrite Hls2. unfold removeItem. rewrite lookup_delete_ne by discriminate.
    apply lookup_delete_eq. }
  unfold isAuthenticated, Dashboard.mount, getItem.
  change Config.STORAGE_KEYS.TOKEN with "company_token".
  change Config.STORAGE_KEYS.USER with "company_user".
  rewrite Htok1, Htok2, Husr1. simpl truthy_opt. simpl negb. cbv iota.
  split; [reflexivity|]. split.
  { intros user parsed Hparse.
    assert (Hne : truthy_str (JSON_stringify
              [("name", Some "Demo User"); ("email", Some (Login.email st))]) = true)
      by reflexivity.
    rewrite Hne. simpl to_string. rewrite Hparse. reflexivity. }
  split; [exact Hloc1|]. split; [reflexivity|]. split; [reflexivity|].
  split; [reflexivity|].
  intros k H1 H2. rewrite Hls2, Hls1. unfold removeItem, setItem.
  rewrite !lookup_delete_ne, !lookup_insert_ne by congruence. reflexivity.
Qed.

End MountFacts.

Lemma mount_guard_witness :
  let parse := fun _ : string => @inl JsError JsVal (TypeError "no parser") in
  let b := {| localStorage := {[ "company_user" := "{}" ]}; location := "/dashboard" |} in
  Dashboard.mount parse JNull b = inr (JNull, navigate "/login" b) /\
  localStorage (navigate "/login" b) = localStorage b /\
  (isAuthenticated (localStorage b) = false ->
   location (navigate "/login" b) = "/login" /\ JNull = JNull).
Proof.
  intros parse b.
  assert (Hrun : Dashboard.mount parse JNull b = inr (JNull, navigate "/login" b))
    by reflexivity.
  split; [exact Hrun|].
  destruct (proj1 (mount_guard parse JNull b) _ _ Hrun) as (Hls & Hout & _).
  split; [exact Hls|exact Hout].
Defined.

Lemma session_flow_witness :
  let parse := fun _ : string => @inr JsError JsVal (JObj []) in
  let st := {| Login.email := "user@company.com"; Login.password := "password";
               Login.loading := false; Login.error_ := "" |} in
  let b := {| localStorage := {[ "company_refresh_token" := "r1" ]};
              location := "/login" |} in
  let b2 := Pages.Dashboard.handleLogout (snd (snd (Login.handleSubmit st b))) in
  isAuthenticated (localStorage (snd (snd (Login.handleSubmit st b)))) = true /\
  isAuthenticated (localStorage b2) = false /\
  location b2 = "/login" /\
  localStorage b2 !! Config.STORAGE_KEYS.REFRESH_TOKEN = Some "r1".
Proof.
  intros parse st b b2.
  destruct (session_flow parse st b eq_refl)
    as (Hauth & _ & _ & Hout & _ & Hloc & Hframe).
  split; [exact Hauth|]. split; [exact Hout|]. split; [exact Hloc|].
  subst b2. rewrite Hframe by discriminate. reflexivity.
Defined.

End PagesMore.

(* ===================================================================== *)
(** * Further properties of [src/util/request.ts] *)
(* ===================================================================== *)

Module RequestMore.
Import Js Config Util Pages Request Spec Scenario RequestFacts SpecMore.

Section WrapperMore.

Variable fetch : string -> RequestInit -> JsError + Response.t.
Variable env_base_url : option string.

(** ** A request without a token *)

Lemma buildHeaders_no_token (customHeaders : list (string * string)) (b : Browser) :
  isAuthenticated (localStorage b) = false ->
  buildHeaders true customHeaders b =
  (b, inl (ThrownApi (new_ApiError ERROR_MESSAGES.UNAUTHORIZED
                        HTTP_STATUS.UNAUTHORIZED JUndefined))).
Proof.
  unfold isAuthenticated, buildHeaders, getAuthToken, bind. intros Hno.
  rewrite Hno. reflexivity.
Qed.

(** When authentication is required (the default) and the storage holds no
    token, or an empty one, [request] rejects with an [ApiError] of status
    401 whatever the network would answer: nothing is sent. Unlike a 401
    from the server, this one neither clears the storage nor redirects. In
    particular every such request made after [handleLogout] of the
    dashboard is rejected this way. *)
Theorem request_without_token (endpoint : string) (options : RequestOptions)
    (b : Browser) :
  requiresAuth options <> Some false ->
  (isAuthenticated (localStorage b) = false ->
   request fetch env_base_url endpoint options b =
   (b, inl (ThrownApi (new_ApiError ERROR_MESSAGES.UNAUTHORIZED 401 JUndefined)))) /\
  request fetch env_base_url endpoint options (Pages.Dashboard.handleLogout b) =
  (Pages.Dashboard.handleLogout b,
   inl (ThrownApi (new_ApiError ERROR_MESSAGES.UNAUTHORIZED 401 JUndefined))).
Proof.
  intros Hauth.
  assert (Hreq : default true (requiresAuth options) = true).
  { destruct (requiresAuth options) as [[]|]; [reflexivity|congruence|reflexivity]. }
  assert (Hgen : forall b0, isAuthenticated (localStorage b0) = false ->
    request fetch env_base_url endpoint options b0 =
    (b0, inl (ThrownApi (new_ApiError ERROR_MESSAGES.UNAUTHORIZED 401 JUndefined)))).
  { intros b0 Hno. unfold request, bind at 1. rewrite Hreq.
    rewrite (buildHeaders_no_token _ b0 Hno). reflexivity. }
  split; [apply Hgen|]. apply Hgen.
  unfold isAuthenticated, Dashboard.handleLogout, getItem, removeItem. simpl.
  change STORAGE_KEYS.TOKEN with "company_token".
  rewrite lookup_delete_ne by discriminate. rewrite lookup_delete_eq. reflexivity.
Qed.

(** ** The steps of [request] *)

Lemma request_unfold (endpoint : string) (options : RequestOptions) :
  request fetch env_base_url endpoint options =
  bind (buildHeaders (default true (requiresAuth options))
          (default [] (headers options)))
    (fun requestHeaders =>
       try_catch
         (bind (fetchWithTimeout fetch (full_url env_base_url endpoint options)
                  options requestHeaders)
            (fun response =>
               bind (parseResponse response)
                 (fun data => dispatch response data)))
         request_catch).
Proof. reflexivity. Qed.

Lemma request_catch_state {A} (t : Thrown) (b : Browser) :
  fst (request_catch (A := A) t b) = b.
Proof.
  destruct t as [e|v]; [reflexivity|].
  unfold request_catch, bind, lift.
  destruct (get_prop v "message") as [err|msg]; [reflexivity|]. simpl.
  destruct msg; try reflexivity.
  repeat match goal with
         | |- context [match ?x with _ => _ end] => destruct x
         end; reflexivity.
Qed.

(** The [catch] block gives status 0 to whatever the platform threw. *)
Lemma request_catch_platform {A} (e : JsError) (b : Browser) :
  exists err : ApiError.t,
    request_catch (A := A) (ThrownVal (JErr e)) b = (b, inl (ThrownApi err)) /\
    ApiError.status err = 0 /\ ApiError.data err = JErr e.
Proof.
  unfold request_catch, bind, lift. simpl.
  destruct (err_message e) as [|c m]; simpl.
  - eexists. split; [reflexivity|]. split; reflexivity.
  - repeat match goal with
           | |- context [match ?x with _ => _ end] => destruct x
           end; eexists; (split; [reflexivity|]); split; reflexivity.
Qed.

Lemma fetchWithTimeout_state url options requestHeaders (b : Browser) :
  fst (fetchWithTimeout fetch url options requestHeaders b) = b.
Proof.
  unfold fetchWithTimeout. destruct (fetch url _) as [error|response];
    [destruct (String.eqb _ _)|]; reflexivity.
Qed.

Lemma clearAuthData_storage (b : Browser) :
  redirectToLogin b = (logged_out b, inr tt).
Proof. reflexivity. Qed.

Lemma dispatch_unauthorized (response : Response.t) (data : JsVal) (b : Browser) :
  Response.status response = 401 ->
  dispatch response data b =
  (logged_out b, inl (ThrownApi (new_ApiError ERROR_MESSAGES.UNAUTHORIZED 401 data))).
Proof. intros Hs. unfold dispatch. rewrite Hs. reflexivity. Qed.

(** For a body that is not [null], the dispatch resolves for the statuses
    200 to 299 and otherwise throws an [ApiError] with the status of the
    response; only the status 401 changes the browser. *)
Lemma dispatch_outcome (response : Response.t) (data : JsVal) (b : Browser) :
  data <> JNull -> data <> JUndefined ->
  (Response.status response <> 401 -> fst (dispatch response data b) = b) /\
  (Response.ok response = true ->
   snd (dispatch response data b) =
   inr {| ApiResponse.data :=
            match get_prop_opt data "data" with
            | JUndefined => data
            | inner => inner
            end;
          ApiResponse.message := get_prop_opt data "message";
          ApiResponse.success := true;
          ApiResponse.status := Response.status response;
          ApiResponse.errors := get_prop_opt data "errors" |}) /\
  (Response.ok response = false ->
   exists e : ApiError.t,
     snd (dispatch response data b) = inl (ThrownApi e) /\
     ApiError.status e = Response.status response /\
     ApiError.data e = data).
Proof.
  intros Hnull Hundef.
  assert (Hprop : forall k, get_prop data k = inr (get_prop_opt data k)).
  { intros k. unfold get_prop_opt. destruct data; try reflexivity; congruence. }
  unfold dispatch, Response.ok, bind, lift, throw, ret.
  change HTTP_STATUS.UNAUTHORIZED with 401.
  change HTTP_STATUS.FORBIDDEN with 403.
  change HTTP_STATUS.NOT_FOUND with 404.
  change HTTP_STATUS.UNPROCESSABLE_ENTITY with 422.
  rewrite !Hprop. cbv zeta.
  set (status := Response.status response).
  destruct (status =? 401) eqn:H401; [apply Z.eqb_eq in H401|].
  { split; [congruence|]. split.
    - intros Hok. exfalso. lia.
    - intros _. eexists. split; [reflexivity|]. rewrite H401. split; reflexivity. }
  destruct (status =? 403) eqn:H403; [apply Z.eqb_eq in H403|].
  { split; [reflexivity|]. split.
    - intros Hok. exfalso. lia.
    - intros _. eexists. split; [reflexivity|]. rewrite H403. split; reflexivity. }
  destruct (status =? 404) eqn:H404; [apply Z.eqb_eq in H404|].
  { split; [reflexivity|]. split.
    - intros Hok. exfalso. lia.
    - intros _. eexists. split; [reflexivity|]. rewrite H404. split; reflexivity. }
  destruct (status =? 422) eqn:H422; [apply Z.eqb_eq in H422|].
  { split; [reflexivity|]. split.
    - intros Hok. exfalso. lia.
    - intros _. eexists. split; [reflexivity|]. rewrite H422. split; reflexivity. }
  destruct (status >=? 500) eqn:H500.
  { split; [reflexivity|]. split.
    - intros Hok. exfalso. lia.
    - intros _. eexists. split; [reflexivity|]. split; reflexivity. }
  destruct ((200 <=? status) && (status <=? 299)) eqn:Hok; simpl.
  - split; [reflexivity|]. split; [|discriminate].
    intros _. simpl. destruct (get_prop_opt data "data"); reflexivity.
  - split; [reflexivity|]. split; [discriminate|].
    intros _. eexists. split; [reflexivity|]. split; reflexivity.
Qed.

Lemma dispatch_state (response : Response.t) (data : JsVal) (b : Browser) :
  Response.status response <> 401 -> fst (dispatch response data b) = b.
Proof.
  intros Hs. unfold dispatch, bind, lift, throw, ret.
  change HTTP_STATUS.UNAUTHORIZED with 401.
  destruct (Response.status response =? 401) eqn:H401;
    [apply Z.eqb_eq in H401; contradiction|].
  cbv zeta.
  repeat match goal with
         | |- context [if ?c then _ else _] => destruct c
         end; try reflexivity;
  repeat match goal with
         | |- context [get_prop data ?k] => destruct (get_prop data k)
         end; reflexivity.
Qed.

(** Reading the body throws nothing but the errors of the platform. *)
Lemma parseResponse_platform (response : Response.t) (b b' : Browser) (t : Thrown) :
  parseResponse response b = (b', inl t) -> exists e, t = ThrownVal (JErr e).
Proof.
  unfold parseResponse, try_catch, bind, lift, ret, throw.
  destruct (Response.json response), (Response.text response),
    (Response.blob response), (Response.content_type response) as [ct|];
    try destruct (truthy_str ct && includes ct "application/json");
    try destruct (truthy_str ct && includes ct "text/");
    try destruct (truthy_str ct && includes ct "application/pdf");
    intros H; inversion H; eauto.
Qed.

(** Once the response is there and its body is read, what is left of
    [request] is the dispatch inside the [try] block. *)
Lemma request_arrived (endpoint : string) (options : RequestOptions)
    (b : Browser) (response : Response.t) (data : JsVal) :
  response_arrives fetch env_base_url endpoint options b response ->
  snd (parseResponse response b) = inr data ->
  request fetch env_base_url endpoint options b =
  try_catch (dispatch response data) request_catch b.
Proof.
  intros (requestHeaders & Hheaders & Hfetch) Hparse.
  rewrite request_unfold. unfold bind at 1.
  pose proof (buildHeaders_state (default true (requiresAuth options))
                (default [] (headers options)) b) as Hb.
  destruct (buildHeaders _ _ b) as [b1 r1]. simpl in Hb, Hheaders. subst b1 r1.
  unfold try_catch, bind at 1, fetchWithTimeout. rewrite Hfetch.
  unfold ret at 1, bind at 1.
  pose proof (parseResponse_state response b) as Hp.
  destruct (parseResponse response b) as [b2 r2]. simpl in Hp, Hparse. subst b2 r2.
  reflexivity.
Qed.

(** ** What [request] does to the browser *)

(** [request] changes the browser in one case only: a response with
    status 401 arrived and its body was read. Then, and only then, the
    browser is the one after the forced logout; in every other run it is
    the browser the call started with. No key of the storage other than
    the three credential keys ever changes (the theme and the language
    stay). *)
Theorem request_browser_frame (endpoint : string) (options : RequestOptions)
    (b : Browser) :
  let b' := fst (request fetch env_base_url endpoint options b) in
  (forall response data,
     response_arrives fetch env_base_url endpoint options b response ->
     Response.status response = 401 ->
     snd (parseResponse response b) = inr data ->
     b' = logged_out b) /\
  (b' = b \/
   exists response data,
     response_arrives fetch env_base_url endpoint options b response /\
     Response.status response = 401 /\
     snd (parseResponse response b) = inr data) /\
  (forall k, k <> STORAGE_KEYS.TOKEN -> k <> STORAGE_KEYS.USER ->
             k <> STORAGE_KEYS.REFRESH_TOKEN ->
             localStorage b' !! k = localStorage b !! k).
Proof.
  cbv zeta.
  assert (Hlogout : forall response data,
    response_arrives fetch env_base_url endpoint options b response ->
    Response.status response = 401 ->
    snd (parseResponse response b) = inr data ->
    fst (request fetch env_base_url endpoint options b) = logged_out b).
  { intros response data Harrives H401 Hparse.
    rewrite (request_arrived endpoint options b response data Harrives Hparse).
    unfold try_catch. rewrite (dispatch_unauthorized response data b H401).
    apply request_catch_state. }
  remember (request fetch env_base_url endpoint options b) as out eqn:Hout.
  assert (Hcases :
    fst out = b \/
    exists response data,
      response_arrives fetch env_base_url endpoint options b response /\
      Response.status response = 401 /\
      snd (parseResponse response b) = inr data).
  { rewrite request_unfold in Hout. unfold bind at 1 in Hout.
    pose proof (buildHeaders_state (default true (requiresAuth options))
                  (default [] (headers options)) b) as Hb.
    destruct (buildHeaders _ _ b) as [b1 [t|requestHeaders]] eqn:Hheaders;
      simpl in Hb; subst b1; [subst out; left; reflexivity|].
    unfold try_catch, bind at 1 in Hout.
    pose proof (fetchWithTimeout_state (full_url env_base_url endpoint options)
                  options requestHeaders b) as Hf.
    destruct (fetchWithTimeout _ _ _ _ b) as [b1 [t|response]] eqn:Hfetch;
      simpl in Hf; subst b1; [subst out; left; apply request_catch_state|].
    unfold bind at 1 in Hout.
    pose proof (parseResponse_state response b) as Hp.
    destruct (parseResponse response b) as [b1 [t|data]] eqn:Hparse;
      simpl in Hp; subst b1; [subst out; left; apply request_catch_state|].
    destruct (Z.eq_dec (Response.status response) 401) as [H401|H401].
    - right. exists response, data.
      split; [|split; [exact H401|rewrite Hparse; reflexivity]].
      exists requestHeaders. rewrite Hheaders. split; [reflexivity|].
      unfold fetchWithTimeout in Hfetch.
      destruct (fetch _ _) as [error|r]; [destruct (String.eqb _ _)|];
        inversion Hfetch. reflexivity.
    - left. pose proof (dispatch_state response data b H401) as Hd.
      destruct (dispatch response data b) as [b1 [t|r]]; simpl in Hd; subst b1;
        subst out; [apply request_catch_state|reflexivity]. }
  split; [exact Hlogout|]. split; [exact Hcases|].
  intros k H1 H2 H3.
  destruct Hcases as [-> | (response & data & Harrives & H401 & Hparse)];
    [reflexivity|].
  rewrite (Hlogout response data Harrives H401 Hparse).
  unfold logged_out, clearAuth, removeItem. simpl.
  rewrite !lookup_delete_ne by congruence. reflexivity.
Qed.

(** ** The outcome by status *)

(** When a response arrives and its body reads to a value other than
    [null], [request] resolves exactly for the statuses 200 to 299, with
    that status and [success: true], the data being the member [data] of
    the body when it has one and the body otherwise. For every other status
    it rejects with an [ApiError] that carries the status of the response
    and the body. *)
Theorem request_status (endpoint : string) (options : RequestOptions)
    (b : Browser) (response : Response.t) (data : JsVal) :
  response_arrives fetch env_base_url endpoint options b response ->
  snd (parseResponse response b) = inr data ->
  data <> JNull -> data <> JUndefined ->
  (Response.ok response = true ->
   snd (request fetch env_base_url endpoint options b) =
   inr {| ApiResponse.data :=
            match get_prop_opt data "data" with
            | JUndefined => data
            | inner => inner
            end;
          ApiResponse.message := get_prop_opt data "message";
          ApiResponse.success := true;
          ApiResponse.status := Response.status response;
          ApiResponse.errors := get_prop_opt data "errors" |}) /\
  (Response.ok response = false ->
   exists e : ApiError.t,
     snd (request fetch env_base_url endpoint options b) = inl (ThrownApi e) /\
     ApiError.status e = Response.status response /\
     ApiError.data e = data).
Proof.
  intros Harrives Hparse Hnull Hundef.
  rewrite (request_arrived endpoint options b response data Harrives Hparse).
  unfold try_catch.
  destruct (dispatch_outcome response data b Hnull Hundef) as (_ & Hok & Hbad).
  split.
  - intros H. specialize (Hok H).
    destruct (dispatch response data b) as [b1 [t|r]]; simpl in Hok;
      [discriminate|]. exact Hok.
  - intros H. destruct (Hbad H) as (e & He & Hstatus & Hdata).
    exists e. destruct (dispatch response data b) as [b1 [t|r]]; simpl in He;
      [|discriminate]. injection He as ->.
    split; [reflexivity|]. split; assumption.
Qed.

(** ** A body that cannot be read, a network that fails *)

Lemma request_fetch_rejected (endpoint : string) (options : RequestOptions)
    (b : Browser) (requestHeaders : gmap string string) (error : JsError) :
  snd (buildHeaders (default true (requiresAuth options))
         (default [] (headers options)) b) = inr requestHeaders ->
  fetch (full_url env_base_url endpoint options)
    (fetch_init options requestHeaders) = inl error ->
  request fetch env_base_url endpoint options b =
  if String.eqb (err_name error) "AbortError"
  then (b, inl (ThrownApi (new_ApiError ERROR_MESSAGES.TIMEOUT 408 JUndefined)))
  else request_catch (ThrownVal (JErr error)) b.
Proof.
  intros Hheaders Hsent. rewrite request_unfold. unfold bind at 1.
  pose proof (buildHeaders_state (default true (requiresAuth options))
                (default [] (headers options)) b) as Hb.
  destruct (buildHeaders _ _ b) as [b1 r1]. simpl in Hb, Hheaders.
  subst b1 r1. unfold try_catch, bind at 1, fetchWithTimeout. rewrite Hsent.
  destruct (String.eqb (err_name error) "AbortError"); reflexivity.
Qed.

(** When the body of the response cannot be read, [request] rejects with
    an [ApiError] of status 0 that wraps the error, whatever the status of
    the response was, and the browser is left alone. When [fetch] itself
    rejects, a timeout (the abort of the signal) becomes an [ApiError] of
    status 408, and any other failure one of status 0, with the network
    message for ["Failed to fetch"]. *)
Theorem request_transport_errors (endpoint : string) (options : RequestOptions)
    (b : Browser) (requestHeaders : gmap string string) :
  snd (buildHeaders (default true (requiresAuth options))
         (default [] (headers options)) b) = inr requestHeaders ->
  let sent := fetch (full_url env_base_url endpoint options)
                (fetch_init options requestHeaders) in
  (forall response t,
     sent = inr response -> snd (parseResponse response b) = inl t ->
     exists e err,
       t = ThrownVal (JErr err) /\
       request fetch env_base_url endpoint options b = (b, inl (ThrownApi e)) /\
       ApiError.status e = 0 /\ ApiError.data e = JErr err) /\
  (forall error,
     sent = inl error -> err_name error = "AbortError" ->
     request fetch env_base_url endpoint options b =
     (b, inl (ThrownApi (new_ApiError ERROR_MESSAGES.TIMEOUT 408 JUndefined)))) /\
  (forall error,
     sent = inl error -> err_name error <> "AbortError" ->
     exists e,
       request fetch env_base_url endpoint options b = (b, inl (ThrownApi e)) /\
       ApiError.status e = 0 /\ ApiError.data e = JErr error /\
       (err_message error = "Failed to fetch" ->
        ApiError.message e = ERROR_MESSAGES.NETWORK_ERROR)).
Proof.
  intros Hheaders sent.
  assert (Hstart : forall A (k : gmap string string -> Eff Browser A),
            bind (buildHeaders (default true (requiresAuth options))
                    (default [] (headers options))) k b = k requestHeaders b).
  { intros A k. unfold bind.
    pose proof (buildHeaders_state (default true (requiresAuth options))
                  (default [] (headers options)) b) as Hb.
    destruct (buildHeaders _ _ b) as [b1 r1]. simpl in Hb, Hheaders.
    subst b1 r1. reflexivity. }
  split; [|split].
  - intros response t Hsent Hparse.
    pose proof (parseResponse_state response b) as Hp.
    destruct (parseResponse response b) as [b2 r2] eqn:Hrun.
    simpl in Hp, Hparse. subst b2 r2.
    destruct (parseResponse_platform _ _ _ _ Hrun) as [err ->].
    destruct (request_catch_platform (A := ApiResponse.t) err b)
      as (e & Hcatch & Hstatus & Hdata).
    exists e, err. split; [reflexivity|]. split; [|split; assumption].
    rewrite request_unfold, Hstart. unfold try_catch, bind at 1, fetchWithTimeout.
    fold sent. rewrite Hsent. unfold ret at 1, bind at 1. rewrite Hrun.
    exact Hcatch.
  - intros error Hsent Habort.
    rewrite (request_fetch_rejected _ _ _ _ _ Hheaders Hsent), Habort.
    reflexivity.
  - intros error Hsent Hother.
    apply String.eqb_neq in Hother.
    destruct (request_catch_platform (A := ApiResponse.t) error b)
      as (e & Hcatch & Hstatus & Hdata).
    exists e.
    assert (Hreq : request fetch env_base_url endpoint options b =
                   request_catch (ThrownVal (JErr error)) b).
    { rewrite (request_fetch_rejected _ _ _ _ _ Hheaders Hsent), Hother.
      reflexivity. }
    rewrite Hreq. split; [exact Hcatch|]. split; [exact Hstatus|].
    split; [exact Hdata|].
    intros Hmsg. rewrite Hcatch in Hreq.
    unfold request_catch, bind, lift in Hcatch. simpl in Hcatch.
    rewrite Hmsg in Hcatch. simpl in Hcatch. injection Hcatch as <-. reflexivity.
Qed.

(** ** The headers of an authenticated request *)



End WrapperMore.

Lemma request_status_witness :
  let body := JObj [("data", JNum 7); ("message", JStr "ok")] in
  let denied := JObj [("message", JStr "no")] in
  snd (request (always (json_response 201 (inr body))) None "/users" no_options session) =
    inr {| ApiResponse.data := JNum 7; ApiResponse.message := JStr "ok";
           ApiResponse.success := true; ApiResponse.status := 201;
           ApiResponse.errors := JUndefined |} /\
  exists e : ApiError.t,
    snd (request (always (json_response 304 (inr denied))) None "/users"
           no_options session) = inl (ThrownApi e) /\
    ApiError.status e = 304 /\ ApiError.data e = denied.
Proof.
  intros body denied.
  assert (Harrives : forall r, response_arrives (always r) None "/users"
                                 no_options session r).
  { intros r. eexists. split; reflexivity. }
  split.
  - apply (proj1 (request_status (always (json_response 201 (inr body))) None
                    "/users" no_options session _ body (Harrives _) eq_refl
                    ltac:(discriminate) ltac:(discriminate))).
    reflexivity.
  - apply (proj2 (request_status (always (json_response 304 (inr denied))) None
                    "/users" no_options session _ denied (Harrives _) eq_refl
                    ltac:(discriminate) ltac:(discriminate))).
    reflexivity.
Defined.

Lemma request_transport_errors_witness :
  let broken := SyntaxError "Unexpected end of JSON input" in
  (exists e,
     request (always (json_response 204 (inl broken))) None "/users" no_options session =
       (session, inl (ThrownApi e)) /\
     ApiError.status e = 0 /\ ApiError.data e = JErr broken) /\
  request (fun _ _ => inl {| err_name := "AbortError"; err_message := "aborted" |})
    None "/users" no_options session =
    (session, inl (ThrownApi (new_ApiError ERROR_MESSAGES.TIMEOUT 408 JUndefined))) /\
  (exists e,
     request (fun _ _ => inl (TypeError "Failed to fetch")) None "/users"
       no_options session = (session, inl (ThrownApi e)) /\
     ApiError.status e = 0 /\ ApiError.message e = ERROR_MESSAGES.NETWORK_ERROR).
Proof.
  intros broken.
  assert (Hheaders : exists hs,
    snd (buildHeaders (default true (requiresAuth no_options))
           (default [] (headers no_options)) session) = inr hs)
    by (eexists; reflexivity).
  destruct Hheaders as [hs Hheaders].
  split; [|split].
  - destruct (proj1 (request_transport_errors
                (always (json_response 204 (inl broken))) None "/users"
                no_options session hs Hheaders)
              (json_response 204 (inl broken)) (ThrownVal (JErr broken))
              eq_refl eq_refl) as (e & err & Herr & Hreq & Hstatus & Hdata).
    injection Herr as <-. exists e. auto.
  - apply (proj1 (proj2 (request_transport_errors
            (fun _ _ => inl {| err_name := "AbortError"; err_message := "aborted" |})
            None "/users" no_options session hs Hheaders)) _ eq_refl eq_refl).
  - destruct (proj2 (proj2 (request_transport_errors
                (fun _ _ => inl (TypeError "Failed to fetch")) None "/users"
                no_options session hs Hheaders))
              (TypeError "Failed to fetch") eq_refl ltac:(discriminate))
      as (e & Hreq & Hstatus & _ & Hmsg).
    exists e. split; [exact Hreq|]. split; [exact Hstatus|]. apply Hmsg. reflexivity.
Defined.


Lemma request_without_token_witness :
  let b := {| localStorage := {[ "company_token" := "" ]}; location := "/dashboard" |} in
  request (always (json_response 200 (inr JNull))) None "/users/me" no_options b =
    (b, inl (ThrownApi (new_ApiError ERROR_MESSAGES.UNAUTHORIZED 401 JUndefined))) /\
  request (always (json_response 200 (inr JNull))) None "/users/me" no_options
    (Pages.Dashboard.handleLogout session) =
    (Pages.Dashboard.handleLogout session,
     inl (ThrownApi (new_ApiError ERROR_MESSAGES.UNAUTHORIZED 401 JUndefined))).
Proof.
  intros b.
  assert (Hopt : requiresAuth no_options <> Some false) by discriminate.
  split.
  - apply (proj1 (request_without_token (always (json_response 200 (inr JNull)))
                    None "/users/me" no_options b Hopt)).
    reflexivity.
  - exact (proj2 (request_without_token (always (json_response 200 (inr JNull)))
                    None "/users/me" no_options session Hopt)).
Defined.

(** ** [retryRequest]: no attempt, the time waited, and [request] retried *)

Section RetryMore.

Context {St T : Type}.
Variable requestFn : Eff St T.

(** With [maxRetries <= 0] the request function is never called and
    [retryRequest] throws [undefined]. *)
Theorem retryRequest_nonpositive_budget (maxRetries : Z) (baseDelay : option Z) (st : St) :
  maxRetries <= 0 ->
  retryRequest requestFn (Some maxRetries) baseDelay st =
  (st, inl (ThrownVal JUndefined), []).
Proof.
  intros Hm. unfold retryRequest. simpl default.
  rewrite retry_loop_unfold, decide_False by lia. reflexivity.
Qed.

Lemma attempts_nonneg (events : list (Event T)) : 0 <= attempts events.
Proof. induction events as [|[? ?|?] rest IH]; simpl; lia. Qed.

Lemma Run_waits (maxRetries baseDelay i : Z) lastError
    (events : list (Event T)) result :
  Run maxRetries baseDelay i lastError events result -> 0 <= i ->
  0 <= waits events /\
  waits events = Z.max (attempts events - 1) 0 /\
  total_wait events = baseDelay * (2 ^ (i + waits events) - 2 ^ i).
Proof.
  induction 1 as [i lastError Hi|i lastError response Hi|i lastError error Hi Hc
                 |i lastError error events result Hi Hc HR IH
                 |i lastError error events result Hi Hc HR IH];
    intros H0; simpl.
  - replace (i + 0) with i by lia. rewrite Z.sub_diag. split; [lia|split; lia].
  - replace (i + 0) with i by lia. rewrite Z.sub_diag. split; [lia|split; lia].
  - replace (i + 0) with i by lia. rewrite Z.sub_diag. split; [lia|split; lia].
  - destruct IH as (Hw & Hwa & Htotal); [lia|].
    pose proof (Run_attempts_bound _ _ _ _ _ _ HR) as Hatt.
    destruct (Run_head _ _ _ _ _ _ HR ltac:(lia)) as (o & rest & Hev).
    assert (Hpos : 1 <= attempts events).
    { subst events. simpl. pose proof (attempts_nonneg rest). lia. }
    split; [lia|]. split; [lia|]. rewrite Htotal. unfold backoff.
    replace (i + (1 + waits events)) with (i + 1 + waits events) by lia.
    rewrite (Z.pow_add_r 2 i 1) by lia. change (2 ^ 1) with 2. ring.
  - destruct (Run_past_end _ _ _ _ _ _ HR) as [-> ->]; [lia|]. simpl.
    replace (i + 0) with i by lia. rewrite Z.sub_diag. split; [lia|split; lia].
Qed.

Lemma retryRequest_waits_attempts (maxRetries baseDelay : option Z) (st : St) :
  waits (snd (retryRequest requestFn maxRetries baseDelay st)) =
  Z.max (attempts (snd (retryRequest requestFn maxRetries baseDelay st)) - 1) 0.
Proof.
  unfold retryRequest.
  pose proof (retry_loop_Run requestFn (default 3 maxRetries)
                (default 1000 baseDelay) 0 (ThrownVal JUndefined) st) as HR.
  destruct (Run_waits _ _ _ _ _ _ HR ltac:(lia)) as (_ & Hwa & _). exact Hwa.
Qed.

(** Between its attempts [retryRequest] waits [baseDelay * (2^k - 1)]
    milliseconds in all, where [k], the number of timers, is one less than
    the number of attempts; so never more than
    [baseDelay * (2^(maxRetries - 1) - 1)], which is 3000 ms with the
    default arguments. *)
Theorem retryRequest_total_wait (maxRetries baseDelay : option Z) (st : St) :
  let events := snd (retryRequest requestFn maxRetries baseDelay st) in
  let M := default 3 maxRetries in
  let B := default 1000 baseDelay in
  waits events = Z.max (attempts events - 1) 0 /\
  total_wait events = B * (2 ^ waits events - 1) /\
  (0 <= B -> 1 <= M -> total_wait events <= B * (2 ^ (M - 1) - 1)).
Proof.
  cbv zeta. unfold retryRequest.
  pose proof (retry_loop_Run requestFn (default 3 maxRetries)
                (default 1000 baseDelay) 0 (ThrownVal JUndefined) st) as HR.
  destruct (Run_waits _ _ _ _ _ _ HR ltac:(lia)) as (Hw & Hwa & Htotal).
  pose proof (Run_attempts_bound _ _ _ _ _ _ HR) as Hatt.
  simpl in Htotal. split; [exact Hwa|]. split; [exact Htotal|].
  intros HB HM. rewrite Htotal.
  apply Z.mul_le_mono_nonneg_l; [exact HB|].
  apply Z.sub_le_mono_r. apply Z.pow_le_mono_r; lia.
Qed.

(** A request function that fails in the same way each time and leaves
    the state alone uses up the attempts, unless its error is a client
    error, which ends the run at once. *)
Lemma retry_loop_steady (maxRetries baseDelay : Z) (st : St) (error : Thrown) :
  requestFn st = (st, inl error) ->
  forall n i lastError, n = Z.to_nat (maxRetries - i) -> i < maxRetries ->
  let out := retry_loop requestFn maxRetries baseDelay i lastError st in
  fst (fst out) = st /\ snd (fst out) = inl error /\
  attempts (snd out) = if is_client_error error then 1 else maxRetries - i.
Proof.
  intros Hfix. induction n as [|n IH]; intros i lastError Hn Hlt; [lia|].
  cbv zeta. rewrite retry_loop_unfold, decide_True by exact Hlt. rewrite Hfix.
  destruct (is_client_error error) eqn:Hc; [repeat split; reflexivity|].
  destruct (Z.eq_dec (i + 1) maxRetries) as [Hend|Hmore].
  - rewrite (retry_loop_unfold _ _ _ (i + 1)), decide_False by lia. simpl.
    repeat split; try reflexivity. rewrite app_nil_r.
    destruct (i <? maxRetries - 1); simpl; lia.
  - specialize (IH (i + 1) error ltac:(lia) ltac:(lia)). cbv zeta in IH.
    destruct (retry_loop requestFn maxRetries baseDelay (i + 1) error st)
      as [[st2 result] events]. simpl in *. destruct IH as (-> & -> & Hatt).
    repeat split; try reflexivity.
    destruct (i <? maxRetries - 1); simpl; lia.
Qed.

End RetryMore.

Lemma retryRequest_nonpositive_budget_witness :
  retryRequest flaky (Some 0) None 7%nat = (7%nat, inl (ThrownVal JUndefined), []).
Proof. apply (retryRequest_nonpositive_budget flaky 0 None 7%nat). lia. Defined.

Lemma retryRequest_total_wait_witness :
  let events := snd (retryRequest down None None 0%nat) in
  waits events = Z.max (attempts events - 1) 0 /\
  total_wait events = 1000 * (2 ^ waits events - 1) /\
  total_wait events <= 1000 * (2 ^ (3 - 1) - 1).
Proof.
  intros events.
  destruct (retryRequest_total_wait down None None 0%nat) as (Hw & Ht & Hbound).
  split; [exact Hw|]. split; [exact Ht|]. apply Hbound; simpl; lia.
Defined.

(** [retryRequest] around [request], with a token in place so that the
    request goes out: a timeout is not retried, because [request] reports
    it with the status 408, a client error; a network failure has the
    status 0 and is retried until the attempts are used up. Neither changes
    the browser. *)
Theorem retryRequest_of_request (fetch : string -> RequestInit -> JsError + Response.t)
    (env_base_url : option string) (endpoint : string) (options : RequestOptions)
    (maxRetries baseDelay : option Z) (b : Browser)
    (requestHeaders : gmap string string) (error : JsError) :
  snd (buildHeaders (default true (requiresAuth options))
         (default [] (headers options)) b) = inr requestHeaders ->
  fetch (full_url env_base_url endpoint options)
    (fetch_init options requestHeaders) = inl error ->
  1 <= default 3 maxRetries ->
  let out := retryRequest (request fetch env_base_url endpoint options)
               maxRetries baseDelay b in
  fst (fst out) = b /\
  (err_name error = "AbortError" ->
   snd (fst out) = inl (ThrownApi (new_ApiError ERROR_MESSAGES.TIMEOUT 408 JUndefined)) /\
   attempts (snd out) = 1 /\ waits (snd out) = 0) /\
  (err_name error <> "AbortError" ->
   (exists e, snd (fst out) = inl (ThrownApi e) /\ ApiError.status e = 0) /\
   attempts (snd out) = default 3 maxRetries).
Proof.
  intros Hheaders Hfetch Hmax out.
  pose proof (request_fetch_rejected fetch env_base_url endpoint options b
                requestHeaders error Hheaders Hfetch) as Hrej.
  assert (Hsteady : forall t, request fetch env_base_url endpoint options b = (b, inl t) ->
    fst (fst out) = b /\ snd (fst out) = inl t /\
    attempts (snd out) = if is_client_error t then 1 else default 3 maxRetries).
  { intros t Ht. subst out. unfold retryRequest.
    pose proof (retry_loop_steady (request fetch env_base_url endpoint options)
                  (default 3 maxRetries) (default 1000 baseDelay) b t Ht
                  _ 0 (ThrownVal JUndefined) eq_refl ltac:(lia)) as Hs.
    cbv zeta in Hs. rewrite Z.sub_0_r in Hs. exact Hs. }
  destruct (String.eqb_spec (err_name error) "AbortError") as [Hname|Hname].
  - destruct (Hsteady _ Hrej) as (Hst & Hres & Hatt).
    split; [exact Hst|]. split; [|congruence]. intros _.
    split; [exact Hres|]. split; [exact Hatt|].
    pose proof (retryRequest_waits_attempts
                  (request fetch env_base_url endpoint options)
                  maxRetries baseDelay b) as Hw.
    fold out in Hw. rewrite Hw, Hatt. reflexivity.
  - destruct (request_catch_platform (A := ApiResponse.t) error b)
      as (e & Hcatch & Hstatus & _).
    rewrite Hcatch in Hrej. rename Hrej into Hreq.
    destruct (Hsteady _ Hreq) as (Hst & Hres & Hatt).
    split; [exact Hst|]. split; [congruence|]. intros _.
    split; [exists e; split; [exact Hres|exact Hstatus]|].
    rewrite Hatt. simpl. rewrite Hstatus. reflexivity.
Qed.

Lemma retryRequest_of_request_witness :
  let hs : gmap string string :=
    <["Authorization" := "Bearer demo-token-123"]>
      {[ "Content-Type" := "application/json" ]} in
  snd (buildHeaders true [] session) = inr hs /\
  (let out := retryRequest (request too_slow None "/users" no_options) None None session in
   fst (fst out) = session /\
   snd (fst out) = inl (ThrownApi (new_ApiError ERROR_MESSAGES.TIMEOUT 408 JUndefined)) /\
   attempts (snd out) = 1 /\ waits (snd out) = 0) /\
  (let out := retryRequest (request unreachable None "/users" no_options) None None session in
   (exists e, snd (fst out) = inl (ThrownApi e) /\ ApiError.status e = 0) /\
   attempts (snd out) = 3).
Proof.
  intros hs.
  assert (Hheaders : snd (buildHeaders (default true (requiresAuth no_options))
                            (default [] (headers no_options)) session) = inr hs)
    by reflexivity.
  split; [exact Hheaders|]. split.
  - destruct (retryRequest_of_request too_slow None "/users" no_options None None
                session hs _ Hheaders eq_refl ltac:(simpl; lia))
      as (Hst & Habort & _).
    cbv zeta. split; [exact Hst|]. apply Habort. reflexivity.
  - destruct (retryRequest_of_request unreachable None "/users" no_options None None
                session hs _ Hheaders eq_refl ltac:(simpl; lia))
      as (_ & _ & Hother).
    apply Hother. discriminate.
Defined.

(** ** [sequentialRequest] *)

Section SequentialMore.

Context {St T : Type}.

Lemma sequential_loop_cons (req : Eff St T) (rest : list (Eff St T))
    (results : list T) (st : St) :
  sequential_loop (req :: rest) results st =
  match req st with
  | (st1, inr result) => sequential_loop rest (results ++ [result]) st1
  | (st1, inl t) => (st1, inl t)
  end.
Proof.
  simpl. unfold bind, try_catch, ret, throw.
  destruct (req st) as [st1 [t|result]]; reflexivity.
Qed.

Lemma sequential_loop_app (reqs1 reqs2 : list (Eff St T)) (results : list T)
    (st : St) :
  sequential_loop (reqs1 ++ reqs2) results st =
  match sequential_loop reqs1 results st with
  | (st1, inr rs1) => sequential_loop reqs2 rs1 st1
  | (st1, inl t) => (st1, inl t)
  end.
Proof.
  revert results st. induction reqs1 as [|req reqs1 IH]; intros results st.
  - reflexivity.
  - rewrite <- app_comm_cons, !sequential_loop_cons.
    destruct (req st) as [st1 [t|result]]; [reflexivity|apply IH].
Qed.

Lemma sequential_loop_results (reqs : list (Eff St T)) (results : list T)
    (st : St) :
  sequential_loop reqs results st =
  match sequential_loop reqs [] st with
  | (st1, inr rs) => (st1, inr (results ++ rs))
  | (st1, inl t) => (st1, inl t)
  end.
Proof.
  revert results st. induction reqs as [|req reqs IH]; intros results st.
  - simpl. unfold ret. rewrite app_nil_r. reflexivity.
  - rewrite !sequential_loop_cons.
    destruct (req st) as [st1 [t|result]]; [reflexivity|].
    rewrite (IH (results ++ [result])), (IH ([] ++ [result])).
    destruct (sequential_loop reqs [] st1) as [st2 [t|rs]]; [reflexivity|].
    rewrite <- app_assoc. reflexivity.
Qed.

Lemma sequentialRequest_snoc (reqs : list (Eff St T)) (req : Eff St T) (st : St) :
  sequentialRequest (reqs ++ [req]) st =
  match sequentialRequest reqs st with
  | (st1, inr rs) =>
      match req st1 with
      | (st2, inr r) => (st2, inr (rs ++ [r]))
      | (st2, inl t) => (st2, inl t)
      end
  | (st1, inl t) => (st1, inl t)
  end.
Proof.
  unfold sequentialRequest. rewrite sequential_loop_app.
  destruct (sequential_loop reqs [] st) as [st1 [t|rs]]; [reflexivity|].
  rewrite sequential_loop_cons. destruct (req st1) as [st2 [t|r]]; reflexivity.
Qed.

(** Running a list of requests in sequence is running its first part and
    then, from the state that leaves, the rest: the results are joined in
    order, and a failure of the first part keeps the rest from running. *)
Lemma sequentialRequest_app (reqs1 reqs2 : list (Eff St T)) (st : St) :
  sequentialRequest (reqs1 ++ reqs2) st =
  match sequentialRequest reqs1 st with
  | (st1, inr rs1) =>
      match sequentialRequest reqs2 st1 with
      | (st2, inr rs2) => (st2, inr (rs1 ++ rs2))
      | (st2, inl t) => (st2, inl t)
      end
  | (st1, inl t) => (st1, inl t)
  end.
Proof.
  unfold sequentialRequest. rewrite sequential_loop_app.
  destruct (sequential_loop reqs1 [] st) as [st1 [t|rs1]]; [reflexivity|].
  apply sequential_loop_results.
Qed.

(** When [sequentialRequest] returns, there is one result for each
    request, in the order of the requests, and the result at [i] is what
    the request at [i] returned in the state left by the requests before
    it. *)
Theorem sequentialRequest_results (requests : list (Eff St T)) (st st' : St)
    (results : list T) :
  sequentialRequest requests st = (st', inr results) ->
  length results = length requests /\
  forall (i : nat) (req : Eff St T), requests !! i = Some req ->
    exists sti sti' r,
      sequentialRequest (take i requests) st = (sti, inr (take i results)) /\
      req sti = (sti', inr r) /\
      results !! i = Some r.
Proof.
  revert st' results.
  induction requests as [|req0 reqs IH] using rev_ind; intros st' results H.
  - injection H as <- <-. split; [reflexivity|].
    intros i req Hi. rewrite lookup_nil in Hi. discriminate Hi.
  - rewrite sequentialRequest_snoc in H.
    destruct (sequentialRequest reqs st) as [st1 [t|rs]] eqn:Hpre; [discriminate H|].
    destruct (req0 st1) as [st2 [t|r]] eqn:Hreq; [discriminate H|].
    injection H as <- <-.
    destruct (IH st1 rs eq_refl) as [Hlen Hall].
    split; [rewrite !length_app, Hlen; reflexivity|].
    intros i req Hi. destruct (decide (i < length reqs)%nat) as [Hlt|Hge].
    + rewrite lookup_app_l in Hi by exact Hlt.
      destruct (Hall i req Hi) as (sti & sti' & r' & Hrun & Hreq' & Hres).
      exists sti, sti', r'.
      rewrite !take_app_le by lia.
      split; [exact Hrun|]. split; [exact Hreq'|].
      rewrite lookup_app_l by lia. exact Hres.
    + assert (Hi' : i = length reqs).
      { apply lookup_lt_Some in Hi. rewrite length_app in Hi. simpl in Hi. lia. }
      subst i. rewrite list_lookup_middle in Hi by reflexivity.
      injection Hi as <-. exists st1, st2, r.
      rewrite take_app_length. rewrite <- Hlen, take_app_length.
      split; [exact Hpre|]. split; [exact Hreq|].
      apply list_lookup_middle. reflexivity.
Qed.

(** [sequentialRequest] rejects exactly when some request fails after all
    those before it returned: it rejects with what that request threw, as
    it is, in the state that request left, so that no later request runs. *)
Theorem sequentialRequest_first_failure (requests : list (Eff St T))
    (st st' : St) (t : Thrown) :
  sequentialRequest requests st = (st', inl t) <->
  exists (i : nat) (req : Eff St T) sti rs,
    requests !! i = Some req /\
    sequentialRequest (take i requests) st = (sti, inr rs) /\
    req sti = (st', inl t).
Proof.
  split.
  - revert st' t.
    induction requests as [|req0 reqs IH] using rev_ind; intros st' t H.
    + discriminate H.
    + rewrite sequentialRequest_snoc in H.
      destruct (sequentialRequest reqs st) as [st1 [t1|rs]] eqn:Hpre.
      * injection H as <- <-.
        destruct (IH st1 t1 eq_refl) as (i & req & sti & rs & Hi & Hrun & Hreq).
        exists i, req, sti, rs.
        pose proof (lookup_lt_Some _ _ _ Hi) as Hlt.
        split; [rewrite lookup_app_l by exact Hlt; exact Hi|].
        split; [|exact Hreq].
        rewrite take_app_le by (apply Nat.lt_le_incl; exact Hlt). exact Hrun.
      * destruct (req0 st1) as [st2 [t2|r]] eqn:Hreq; [|discriminate H].
        injection H as <- <-. exists (length reqs), req0, st1, rs.
        split; [apply list_lookup_middle; reflexivity|].
        split; [rewrite take_app_length; exact Hpre|exact Hreq].
  - intros (i & req & sti & rs & Hi & Hrun & Hreq).
    rewrite <- (take_drop_middle _ _ _ Hi).
    unfold sequentialRequest in *. rewrite sequential_loop_app, Hrun.
    rewrite sequential_loop_cons, Hreq. reflexivity.
Qed.

End SequentialMore.

Lemma sequentialRequest_results_witness :
  sequentialRequest [answers; answers; answers] 5%nat = (8%nat, inr [5; 6; 7]) /\
  length [5; 6; 7] = length [answers; answers; answers] /\
  forall (i : nat) (req : Eff nat Z), [answers; answers; answers] !! i = Some req ->
    exists sti sti' r,
      sequentialRequest (take i [answers; answers; answers]) 5%nat =
        (sti, inr (take i [5; 6; 7])) /\
      req sti = (sti', inr r) /\
      [5; 6; 7] !! i = Some r.
Proof.
  split; [reflexivity|].
  apply (sequentialRequest_results [answers; answers; answers] 5%nat 8%nat [5; 6; 7]).
  reflexivity.
Defined.

Lemma sequentialRequest_first_failure_witness :
  sequentialRequest [answers; fails_at 6; answers] 5%nat =
  (7%nat, inl (ThrownVal (JStr "refused"))).
Proof.
  apply (proj2 (sequentialRequest_first_failure [answers; fails_at 6; answers]
                  5%nat 7%nat (ThrownVal (JStr "refused")))).
  exists 1%nat, (fails_at 6), 6%nat, [5].
  split; [reflexivity|split; reflexivity].
Defined.

(** ** [uploadFile] *)

Section UploadMore.

Variable fetch : string -> RequestInit -> JsError + Response.t.
Variable env_base_url : option string.

Lemma upload_catch_throws {A} (t : Thrown) :
  api_or_platform t -> throws_only api_only (upload_catch (A := A) t).
Proof.
  destruct t as [e|v]; simpl.
  - intros He. apply throws_only_throw. exists e. split; [reflexivity|exact He].
  - destruct v; try contradiction. intros _.
    unfold upload_catch. simpl. repeat throws_step. apply api_only_new.
Qed.

Lemma upload_catch_state {A} (t : Thrown) (b : Browser) :
  fst (upload_catch (A := A) t b) = b.
Proof.
  destruct t as [e|v]; [reflexivity|].
  unfold upload_catch, bind, lift, throw, ret.
  destruct (get_prop v "message"); reflexivity.
Qed.

Lemma upload_init_sent (formData : string) (options : RequestOptions)
    (b : Browser) :
  fetch_init (upload_options formData options)
    (upload_sent_headers
       (upload_headers (default true (requiresAuth options))
          (getItem STORAGE_KEYS.TOKEN (localStorage b))
          (default [] (headers options))) options) =
  upload_init formData options b.
Proof.
  unfold fetch_init, upload_init, upload_sent_headers, upload_headers. simpl.
  f_equal. destruct (headers options) as [custom|]; [reflexivity|]. simpl.
  destruct (getItem STORAGE_KEYS.TOKEN (localStorage b)) as [token|]; simpl.
  - destruct (default true (requiresAuth options) && truthy_str token);
      [apply insert_empty|reflexivity].
  - rewrite andb_false_r. reflexivity.
Qed.

(** The body of [uploadFile] once the response and its data are there. *)
Lemma uploadFile_unfold (endpoint formData : string) (options : RequestOptions)
    (b : Browser) :
  uploadFile fetch env_base_url endpoint formData options b =
  match fetch (full_url env_base_url endpoint options)
          (upload_init formData options b) with
  | inr response =>
      match parseResponse response b with
      | (_, inr data) =>
          try_catch
            (if negb (Response.ok response) then
               msg <- lift (get_prop data "message") ;;
               throw (ThrownApi
                 (new_ApiError (to_str (or_else msg (JStr "Upload failed")))
                    (Response.status response) data))
             else
               inner <- lift (get_prop data "data") ;;
               message <- lift (get_prop data "message") ;;
               ret {| ApiResponse.data := or_else inner data;
                      ApiResponse.message := message;
                      ApiResponse.success := true;
                      ApiResponse.status := Response.status response;
                      ApiResponse.errors := JUndefined |})%eff
            upload_catch b
      | (_, inl t) => upload_catch t b
      end
  | inl error =>
      if String.eqb (err_name error) "AbortError"
      then (b, inl (ThrownApi (new_ApiError ERROR_MESSAGES.TIMEOUT 408 JUndefined)))
      else upload_catch (ThrownVal (JErr error)) b
  end.
Proof.
  unfold uploadFile. unfold bind at 1. unfold getAuthToken at 1.
  cbv zeta. unfold try_catch, bind at 1, fetchWithTimeout.
  rewrite upload_init_sent.
  destruct (fetch _ _) as [error|response].
  - destruct (String.eqb (err_name error) "AbortError"); reflexivity.
  - unfold ret at 1, bind at 1.
    pose proof (parseResponse_state response b) as Hp.
    destruct (parseResponse response b) as [b2 [t|data]]; simpl in Hp; subst b2;
      reflexivity.
Qed.

(** [uploadFile] never touches the browser: unlike [request] it keeps the
    credentials and the location even when the server answers 401. And
    whatever it throws is an [ApiError]. *)
Theorem uploadFile_keeps_session (endpoint formData : string)
    (options : RequestOptions) (b : Browser) :
  let out := uploadFile fetch env_base_url endpoint formData options b in
  fst out = b /\ (forall t, snd out = inl t -> api_only t).
Proof.
  cbv zeta. split.
  - rewrite uploadFile_unfold.
    destruct (fetch _ _) as [error|response].
    + destruct (String.eqb _ _); [reflexivity|apply upload_catch_state].
    + destruct (parseResponse response b) as [b2 [t|data]];
        [apply upload_catch_state|].
      unfold try_catch.
      destruct (Response.ok response); simpl;
        unfold bind, lift, throw, ret;
        repeat match goal with
               | |- context [get_prop ?v ?k] => destruct (get_prop v k)
               end; simpl; try reflexivity; apply upload_catch_state.
  - intros t Ht.
    destruct (uploadFile fetch env_base_url endpoint formData options b)
      as [b' r] eqn:Hrun. simpl in Ht. subst r. revert Hrun.
    generalize b, b', t.
    change (throws_only api_only
              (uploadFile fetch env_base_url endpoint formData options)).
    unfold uploadFile. apply throws_only_bind; [intros ? ? ? H; discriminate H|].
    intros token.
    apply (throws_only_try_catch _ api_or_platform);
      [|intros t' Ht'; apply upload_catch_throws; exact Ht'].
    apply throws_only_bind; [apply fetchWithTimeout_throws|]. intros response.
    apply throws_only_bind; [apply parseResponse_throws|]. intros data.
    repeat throws_step. apply api_or_platform_new.
Qed.

(** When the response is there and its body was read as an object,
    [uploadFile] returns it with the status of the response if the
    response is ok, and otherwise rejects with an [ApiError] of that status
    whose message is [data.message] or ["Upload failed"]. A body that reads
    as [null] makes it reject with the status 0, whatever the response
    said. The browser is the same in each case. *)
Theorem uploadFile_status (endpoint formData : string) (options : RequestOptions)
    (b : Browser) (response : Response.t) (data : JsVal) :
  fetch (full_url env_base_url endpoint options)
    (upload_init formData options b) = inr response ->
  snd (parseResponse response b) = inr data ->
  (data <> JNull -> data <> JUndefined ->
   uploadFile fetch env_base_url endpoint formData options b =
   (b, if Response.ok response
       then inr {| ApiResponse.data := or_else (get_prop_opt data "data") data;
                   ApiResponse.message := get_prop_opt data "message";
                   ApiResponse.success := true;
                   ApiResponse.status := Response.status response;
                   ApiResponse.errors := JUndefined |}
       else inl (ThrownApi
              (new_ApiError
                 (to_str (or_else (get_prop_opt data "message")
                            (JStr "Upload failed")))
                 (Response.status response) data)))) /\
  (data = JNull ->
   exists e,
     uploadFile fetch env_base_url endpoint formData options b =
       (b, inl (ThrownApi e)) /\
     ApiError.status e = 0).
Proof.
  intros Hsent Hparse. rewrite uploadFile_unfold, Hsent.
  destruct (parseResponse response b) as [b2 r]. simpl in Hparse. subst r.
  split.
  - intros Hnull Hundef.
    assert (Hprop : forall k, get_prop data k = inr (get_prop_opt data k)).
    { intros k. unfold get_prop_opt. destruct data; try reflexivity; congruence. }
    unfold try_catch, bind, lift, throw, ret. rewrite !Hprop.
    destruct (Response.ok response); reflexivity.
  - intros ->. unfold try_catch, bind, lift, throw, ret. simpl.
    destruct (Response.ok response); simpl; eexists; split; reflexivity.
Qed.

End UploadMore.


Lemma uploadFile_status_witness :
  let body := JObj [("message", JStr "Token expired")] in
  let response := json_response 401 (inr body) in
  always response (full_url None "/files" no_options)
    (upload_init "file=report.pdf" no_options session) = inr response /\
  snd (parseResponse response session) = inr body /\
  uploadFile (always response) None "/files" "file=report.pdf" no_options session =
    (session, inl (ThrownApi (new_ApiError "Token expired" 401 body))) /\
  exists e,
    uploadFile (always (json_response 401 (inr JNull))) None "/files"
      "file=report.pdf" no_options session = (session, inl (ThrownApi e)) /\
    ApiError.status e = 0.
Proof.
  intros body response.
  split; [reflexivity|]. split; [reflexivity|]. split.
  - apply (proj1 (uploadFile_status (always response) None "/files"
                    "file=report.pdf" no_options session response body
                    eq_refl eq_refl)); discriminate.
  - apply (proj2 (uploadFile_status (always (json_response 401 (inr JNull))) None
                    "/files" "file=report.pdf" no_options session
                    (json_response 401 (inr JNull)) JNull eq_refl eq_refl)).
    reflexivity.
Defined.

End RequestMore.
